(** * SentinelAI: document ingestion and privacy masking

    A shallow embedding of the ingestion pipeline of the SentinelAI backend:
    - [services/pii_service.py]: the pattern table, the backtracking scan
      behind [re.finditer], and [PIIService.detect_pii];
    - [services/document_service.py]: [_chunk_text], [process_document] and
      [delete_document];
    - [services/llm_service.py]: [generate_embeddings_batch];
    - [services/vector_store.py]: [add_documents], [delete_by_document_id].

    Python [str] values are lists of characters; a character is a code point
    below 256.  Offsets and lengths are natural numbers.  Dictionaries are
    finite maps; the insertion-ordered pattern table is an association list. *)

From Stdlib Require Import Ascii String List Arith ZArith Lia Bool.
From stdpp Require Import base option list gmap strings pretty sorting.
Import ListNotations.

Set Default Proof Using "Type".
Local Open Scope nat_scope.
Local Open Scope list_scope.

(** ** Text *)

Abbreviation str := (list ascii).

(** A string literal read as a Python [str]. *)
Definition txt (x : string) : str := list_ascii_of_string x.

Module Text.

Definition code (c : ascii) : nat := nat_of_ascii c.

Definition between (lo hi : nat) (c : ascii) : bool :=
  (lo <=? code c) && (code c <=? hi).

Definition is_digit (c : ascii) : bool := between 48 57 c.
Definition is_upper (c : ascii) : bool := between 65 90 c.
Definition is_lower (c : ascii) : bool := between 97 122 c.
Definition is_letter (c : ascii) : bool := is_upper c || is_lower c.

(** [str.isspace] on one character: tab .. carriage return, the four
    separators 0x1c .. 0x1f, the space, NEL and the no-break space. *)
Definition is_space (c : ascii) : bool :=
  between 9 13 c || between 28 32 c || (code c =? 133) || (code c =? 160).

(** The word characters of [\b] and [\w]: alphanumeric or underscore.
    Above 127 these are the letters and numeric signs of Latin-1. *)
Definition is_word (c : ascii) : bool :=
  is_digit c || is_letter c || (code c =? 95)
  || (code c =? 170) || between 178 179 c || (code c =? 181)
  || between 185 186 c || between 188 190 c
  || between 192 214 c || between 216 246 c || between 248 255 c.

Definition is_char (x : ascii) (c : ascii) : bool := code c =? code x.

(** [text[i:j]] for non-negative [i], [j]. *)
Definition slice {A} (i j : nat) (t : list A) : list A :=
  firstn (j - i) (skipn i t).

(** [t[:i] + u + t[j:]] *)
Definition splice (t : str) (i j : nat) (u : str) : str :=
  firstn i t ++ u ++ skipn j t.

(** [needle in hay] *)
Fixpoint is_prefix (p t : str) : bool :=
  match p, t with
  | [], _ => true
  | a :: p', b :: t' => (code a =? code b) && is_prefix p' t'
  | _ :: _, [] => false
  end.

Fixpoint contains (hay needle : str) : bool :=
  is_prefix needle hay ||
  match hay with
  | [] => false
  | _ :: hay' => contains hay' needle
  end.

End Text.

(** ** Regular expressions

    The fragment of [re] syntax used by the pattern table, with the
    [re.IGNORECASE] folding already applied to the character classes. *)

Module Re.
Import Text.

Inductive regex : Type :=
| Eps                               (* the empty pattern *)
| Chr (p : ascii → bool)            (* one character of a class *)
| WordB                             (* \b *)
| Seq (r1 r2 : regex)
| Alt (r1 r2 : regex)               (* r1|r2, left first *)
| Rep (r : regex) (lo : nat) (hi : option nat).   (* greedy r{lo,hi} *)

Definition word_before (prev : option ascii) : bool :=
  match prev with Some c => is_word c | None => false end.

Definition word_after (rest : str) : bool :=
  match rest with c :: _ => is_word c | [] => false end.

Definition can_stop (lo : nat) : bool :=
  match lo with 0 => true | _ => false end.

Definition exhausted (hi : option nat) : bool :=
  match hi with Some 0 => true | _ => false end.

(** The continuation receives the last character consumed and the text
    still to read; a matcher answers with the text left after the whole
    match, or [None] to make the caller backtrack. *)
Definition cont := option ascii → str → option str.
Definition matcher := option ascii → str → cont → option str.

(** Greedy repetition: one more round of the body first, the
    continuation only when that fails.  Every body of the table consumes
    a character, so [fuel] above the length of the text is never used up. *)
Fixpoint rep_loop (body : matcher) (fuel lo : nat) (hi : option nat)
    (prev : option ascii) (rest : str) (k : cont) : option str :=
  match fuel with
  | 0 => None
  | S fuel' =>
      let stop := if can_stop lo then k prev rest else None in
      if exhausted hi then stop
      else
        match body prev rest
                (λ p' r', rep_loop body fuel' (pred lo) (pred <$> hi) p' r' k) with
        | Some r => Some r
        | None => stop
        end
  end.

Fixpoint rmatch (r : regex) (prev : option ascii) (rest : str) (k : cont)
    : option str :=
  match r with
  | Eps => k prev rest
  | Chr p =>
      match rest with
      | c :: rest' => if p c then k (Some c) rest' else None
      | [] => None
      end
  | WordB => if xorb (word_before prev) (word_after rest) then k prev rest else None
  | Seq r1 r2 => rmatch r1 prev rest (λ p' r', rmatch r2 p' r' k)
  | Alt r1 r2 =>
      match rmatch r1 prev rest k with
      | Some r => Some r
      | None => rmatch r2 prev rest k
      end
  | Rep r lo hi => rep_loop (rmatch r) (S (length rest)) lo hi prev rest k
  end.

(** One match attempt at the current position: the length of the match. *)
Definition match_here (r : regex) (prev : option ascii) (rest : str) : option nat :=
  (λ left : str, length rest - length left) <$> rmatch r prev rest (λ _ r', Some r').

(** [re.finditer]: leftmost matches, left to right, the search resuming
    where the previous match ended ([skip] characters are passed over). *)
Fixpoint scan (r : regex) (prev : option ascii) (rest : str) (pos skip : nat)
    : list (nat * nat) :=
  match rest with
  | [] =>
      match skip, match_here r prev [] with
      | 0, Some _ => [(pos, pos)]
      | _, _ => []
      end
  | c :: rest' =>
      match skip with
      | S skip' => scan r (Some c) rest' (S pos) skip'
      | 0 =>
          match match_here r prev rest with
          | Some n => (pos, pos + n) :: scan r (Some c) rest' (S pos) (pred n)
          | None => scan r (Some c) rest' (S pos) 0
          end
      end
  end.

Definition finditer (r : regex) (text : str) : list (nat * nat) :=
  scan r None text 0 0.

(** Pattern syntax. *)
Fixpoint seq (rs : list regex) : regex :=
  match rs with
  | [] => Eps
  | [r] => r
  | r :: rs' => Seq r (seq rs')
  end.

Fixpoint lit (x : str) : regex :=
  match x with
  | [] => Eps
  | [c] => Chr (is_char c)
  | c :: x' => Seq (Chr (is_char c)) (lit x')
  end.

Definition times (n : nat) (r : regex) : regex := Rep r n (Some n).
Definition range (lo hi : nat) (r : regex) : regex := Rep r lo (Some hi).
Definition at_least (lo : nat) (r : regex) : regex := Rep r lo None.
Definition opt (r : regex) : regex := Rep r 0 (Some 1).
Definition plus (r : regex) : regex := Rep r 1 None.

Definition one_of (x : string) (c : ascii) : bool :=
  existsb (λ a, is_char a c) (txt x).

Definition d : regex := Chr is_digit.                           (* \d *)
Definition az : regex := Chr is_letter.                         (* [A-Z] folded *)
Definition az09 : regex := Chr (λ c, is_letter c || is_digit c).   (* [A-Z0-9] *)
Definition sp : regex := Chr is_space.                          (* [\s] *)
Definition sep : regex := Chr (λ c, is_space c || one_of "-" c).   (* [\s\-] *)

End Re.

(** ** [services/pii_service.py] *)

Module Pii.
Import Text Re.

(** [PIIMatch] *)
Record PIIMatch : Type := {
  type : str;
  value : str;
  start : nat;
  end_ : nat;
  masked_value : str
}.

(** [PIIResult] *)
Record PIIResult : Type := {
  original_text : str;
  masked_text : str;
  pii_detected : bool;
  matches : list PIIMatch
}.

(** [PIIService.PATTERNS], in the order the dictionary is written; above
    each pattern its source text. *)
(* \b[A-Za-z0-9._%+-]+@[A-Za-z0-9.-]+\.[A-Z|a-z]{2,}\b *)
Definition email : regex :=
  seq [WordB;
       plus (Chr (λ c, is_letter c || is_digit c || one_of "._%+-" c));
       lit (txt "@");
       plus (Chr (λ c, is_letter c || is_digit c || one_of ".-" c));
       lit (txt ".");
       at_least 2 (Chr (λ c, is_letter c || one_of "|" c));
       WordB].

(* \b(?:\+49|0049|0)[\s\-]?(?:\d{2,4})[\s\-]?(?:\d{3,})[\s\-]?(?:\d{2,})\b *)
Definition phone_de : regex :=
  seq [WordB;
       Alt (lit (txt "+49")) (Alt (lit (txt "0049")) (lit (txt "0")));
       opt sep; range 2 4 d; opt sep; at_least 3 d; opt sep; at_least 2 d;
       WordB].

(* \b[A-Z]{2}\d{2}[\s]?(?:\d{4}[\s]?){4,7}\d{0,2}\b *)
Definition iban : regex :=
  seq [WordB; times 2 az; times 2 d; opt sp;
       range 4 7 (Seq (times 4 d) (opt sp)); range 0 2 d; WordB].

(* \b[A-Z]{4}[A-Z]{2}[A-Z0-9]{2}(?:[A-Z0-9]{3})?\b *)
Definition bic : regex :=
  seq [WordB; times 4 az; times 2 az; times 2 az09; opt (times 3 az09); WordB].

(* \b\d{5}\b *)
Definition plz_de : regex := seq [WordB; times 5 d; WordB].

(* \b(?:\d{1,2}[./]\d{1,2}[./]\d{2,4})\b *)
Definition date_de : regex :=
  seq [WordB; range 1 2 d; Chr (one_of "./"); range 1 2 d; Chr (one_of "./");
       range 2 4 d; WordB].

(* \b\d{2}[\s]?\d{3}[\s]?\d{3}[\s]?\d{3}\b *)
Definition steuer_id : regex :=
  seq [WordB; times 2 d; opt sp; times 3 d; opt sp; times 3 d; opt sp;
       times 3 d; WordB].

(* \b\d{2}[\s]?\d{6}[\s]?[A-Z][\s]?\d{3}\b *)
Definition sozialversicherung : regex :=
  seq [WordB; times 2 d; opt sp; times 6 d; opt sp; az; opt sp; times 3 d; WordB].

(* \b(?:\d{4}[\s\-]?){3}\d{4}\b *)
Definition kreditkarte : regex :=
  seq [WordB; times 3 (Seq (times 4 d) (opt sep)); times 4 d; WordB].

(* \b(?:\d{1,3}\.){3}\d{1,3}\b *)
Definition ip_address : regex :=
  seq [WordB; times 3 (Seq (range 1 3 d) (lit (txt "."))); range 1 3 d; WordB].

Definition PATTERNS : list (str * regex) :=
  [ (txt "email", email);
    (txt "phone_de", phone_de);
    (txt "iban", iban);
    (txt "bic", bic);
    (txt "plz_de", plz_de);
    (txt "date_de", date_de);
    (txt "steuer_id", steuer_id);
    (txt "sozialversicherung", sozialversicherung);
    (txt "kreditkarte", kreditkarte);
    (txt "ip_address", ip_address) ].

(** [PIIService.MASK_PATTERNS] *)
Definition MASK_TABLE : list (str * str) :=
  [ (txt "email", txt "[EMAIL]");
    (txt "phone_de", txt "[TELEFON]");
    (txt "iban", txt "[IBAN]");
    (txt "bic", txt "[BIC]");
    (txt "plz_de", txt "[PLZ]");
    (txt "date_de", txt "[DATUM]");
    (txt "steuer_id", txt "[STEUER-ID]");
    (txt "sozialversicherung", txt "[SOZVERS-NR]");
    (txt "kreditkarte", txt "[KREDITKARTE]");
    (txt "ip_address", txt "[IP-ADRESSE]");
    (txt "PERSON", txt "[PERSON]");
    (txt "ORG", txt "[ORGANISATION]");
    (txt "LOC", txt "[ORT]");
    (txt "GPE", txt "[ORT]") ].

Definition MASK_PATTERNS : gmap str str := list_to_map MASK_TABLE.

(** [self.MASK_PATTERNS.get(key, "[REDACTED]")] *)
Definition mask_for (key : str) : str :=
  default (txt "[REDACTED]") (MASK_PATTERNS !! key).

(** A span returned by the entity recogniser ([doc.ents]). *)
Record Entity : Type := {
  label_ : str;
  text : str;
  start_char : nat;
  end_char : nat
}.

Definition Language : Type := str → list Entity.

(** [PIIService]: the two attributes set by [__init__]. *)
Record PIIService : Type := {
  enabled : bool;
  nlp : option Language
}.

(** [PIIService.__init__]; [SPACY_AVAILABLE] and [spacy.load] belong to
    the environment, a missing model is [None]. *)
Definition init (SPACY_AVAILABLE : bool) (load : str → option Language)
    (spacy_model : str) (enabled : bool) : PIIService :=
  {| enabled := enabled;
     nlp :=
       if SPACY_AVAILABLE && enabled then
         match load spacy_model with
         | Some m => Some m
         | None => load (txt "de_core_news_sm")
         end
       else None |}.

(** Step 1 of [detect_pii]: every match of every pattern. *)
Definition regex_matches (t : str) : list PIIMatch :=
  flat_map
    (λ '(pii_type, pattern),
       map (λ '(i, j),
              {| type := pii_type; value := slice i j t; start := i; end_ := j;
                 masked_value := mask_for pii_type |})
           (finditer pattern t))
    PATTERNS.

(** Step 2: the recognised entities with one of the five labels. *)
Definition ner_labels : list str :=
  [txt "PER"; txt "PERSON"; txt "ORG"; txt "LOC"; txt "GPE"].

Definition ner_matches (svc : PIIService) (t : str) : list PIIMatch :=
  match nlp svc with
  | Some model =>
      map (λ ent,
             {| type := label_ ent; value := text ent; start := start_char ent;
                end_ := end_char ent; masked_value := mask_for (label_ ent) |})
          (filter (λ ent, label_ ent ∈ ner_labels) (model t))
  | None => []
  end.

(** [sorted(matches, key=lambda m: m.start, reverse=True)]: stable, so
    candidates with the same start keep their order. *)
Fixpoint insert_desc (m : PIIMatch) (l : list PIIMatch) : list PIIMatch :=
  match l with
  | [] => [m]
  | x :: l' => if start m <? start x then x :: insert_desc m l' else m :: l
  end.

Definition sorted_desc (l : list PIIMatch) : list PIIMatch :=
  foldr insert_desc [] l.

(** Step 3: one round of the replacement loop. *)
Definition mask_step (st : str * gset (nat * nat)) (m : PIIMatch)
    : str * gset (nat * nat) :=
  let span_key := (start m, end_ m) in
  if decide (span_key ∈ st.2) then st
  else (splice st.1 (start m) (end_ m) (masked_value m), {[span_key]} ∪ st.2).

Definition mask_loop (sorted_matches : list PIIMatch) (t : str)
    : str * gset (nat * nat) :=
  foldl mask_step (t, ∅) sorted_matches.

Definition apply_masks (matches : list PIIMatch) (t : str) : str :=
  (mask_loop (sorted_desc matches) t).1.

Definition nonempty {A} (l : list A) : bool :=
  match l with [] => false | _ => true end.

(** [PIIService.detect_pii] *)
Definition detect_pii (svc : PIIService) (t : str) (mask : bool) : PIIResult :=
  if negb (enabled svc) then
    {| original_text := t; masked_text := t; pii_detected := false; matches := [] |}
  else
    let matches := regex_matches t ++ ner_matches svc t in
    let masked_text :=
      if mask && nonempty matches then apply_masks matches t else t in
    {| original_text := t; masked_text := masked_text;
       pii_detected := 0 <? length matches; matches := matches |}.

(** [PIIService.detect_in_chunks] *)
Definition detect_in_chunks (svc : PIIService) (chunks : list str) (mask : bool)
    : list PIIResult :=
  map (λ chunk, detect_pii svc chunk mask) chunks.

(** The service [main.py] gets when no spaCy model is installed. *)
Definition regex_only : PIIService := {| enabled := true; nlp := None |}.

End Pii.


(** ** [DocumentService._chunk_text] *)

Module Chunker.
Import Text.
Local Open Scope Z_scope.

Definition len (t : str) : Z := Z.of_nat (length t).

(** [t.split()]: the maximal runs of non-space characters. *)
Fixpoint split_go (word : str) (t : str) : list str :=
  match t with
  | [] => if Pii.nonempty word then [word] else []
  | c :: t' =>
      if is_space c then
        if Pii.nonempty word then word :: split_go [] t' else split_go [] t'
      else split_go (word ++ [c]) t'
  end.

Definition split (t : str) : list str := split_go [] t.

(** [sep.join(l)] *)
Fixpoint join (sep : str) (l : list str) : str :=
  match l with
  | [] => []
  | [x] => x
  | x :: l' => x ++ sep ++ join sep l'
  end.

(** [t.replace(old, new)] for a non-empty [old]: occurrences are taken
    left to right and do not overlap. *)
Fixpoint replace_go (old new : str) (t : str) (skip : nat) : str :=
  match t with
  | [] => []
  | c :: t' =>
      match skip with
      | S skip' => replace_go old new t' skip'
      | O =>
          if is_prefix old t then new ++ replace_go old new t' (pred (length old))
          else c :: replace_go old new t' 0
      end
  end.

Definition replace (old new t : str) : str := replace_go old new t 0.

(** [t.split(sep)] for a one-character separator: empty fields are kept. *)
Fixpoint split_on_go (sep : ascii) (field : str) (t : str) : list str :=
  match t with
  | [] => [field]
  | c :: t' =>
      if is_char sep c then field :: split_on_go sep [] t'
      else split_on_go sep (field ++ [c]) t'
  end.

Definition split_on (sep : ascii) (t : str) : list str := split_on_go sep [] t.

(** [t.strip()] *)
Fixpoint lstrip (t : str) : str :=
  match t with
  | c :: t' => if is_space c then lstrip t' else t
  | [] => []
  end.

Definition strip (t : str) : str := rev (lstrip (rev (lstrip t))).

Definition nl : ascii := ascii_of_nat 10.

(** The sentence list of [_chunk_text]. *)
Definition sentences (t : str) : list str :=
  let t := join (txt " ") (split t) in
  split_on nl
    (replace (txt "! ") (txt "!" ++ [nl])
       (replace (txt "? ") (txt "?" ++ [nl])
          (replace (txt ". ") (txt "." ++ [nl]) t))).

(** The walk over [reversed(words)] that collects the overlap. *)
Fixpoint overlap_go (chunk_overlap : Z) (rwords : list str)
    (overlap_words : list str) (overlap_len : Z) : list str * Z :=
  match rwords with
  | [] => (overlap_words, overlap_len)
  | word :: rwords' =>
      if overlap_len + len word <? chunk_overlap then
        overlap_go chunk_overlap rwords' (word :: overlap_words)
                   (overlap_len + len word + 1)
      else (overlap_words, overlap_len)
  end.

(** What the next chunk starts with after [overlap_text] was closed:
    the new [current_chunk] and [current_length]. *)
Definition carry (chunk_overlap : Z) (overlap_text : str) : list str * Z :=
  if len overlap_text >? chunk_overlap then
    overlap_go chunk_overlap (rev (split overlap_text)) [] 0
  else ([], 0).

(** The three loop variables. *)
Record state : Type := {
  chunks : list str;
  current_chunk : list str;
  current_length : Z
}.

Definition close (chunk_overlap : Z) (st : state) : state :=
  let overlap_text := join (txt " ") (current_chunk st) in
  let c := carry chunk_overlap overlap_text in
  {| chunks := chunks st ++ [overlap_text];
     current_chunk := c.1;
     current_length := c.2 |}.

(** One round of [for sentence in sentences]. *)
Definition step (chunk_size chunk_overlap : Z) (st : state) (sentence : str) : state :=
  let sentence := strip sentence in
  if negb (Pii.nonempty sentence) then st
  else
    let sentence_length := len sentence in
    let st :=
      if (current_length st + sentence_length >? chunk_size)
         && Pii.nonempty (current_chunk st)
      then close chunk_overlap st else st in
    {| chunks := chunks st;
       current_chunk := current_chunk st ++ [sentence];
       current_length := current_length st + sentence_length + 1 |}.

Definition run (chunk_size chunk_overlap : Z) (ss : list str) : state :=
  foldl (step chunk_size chunk_overlap)
        {| chunks := []; current_chunk := []; current_length := 0 |} ss.

Definition flush (st : state) : list str :=
  if Pii.nonempty (current_chunk st)
  then chunks st ++ [join (txt " ") (current_chunk st)]
  else chunks st.

Definition _chunk_text (chunk_size chunk_overlap : Z) (t : str) : list str :=
  flush (run chunk_size chunk_overlap (sentences t)).

End Chunker.

(** ** The services and their stores

    The mutable objects the services share are the fields of [World]; a
    service method is a function from the world before the call to its
    outcome and the world after it.  What the outside decides during one
    call (the identifier drawn, the clock, the answers and failures of the
    embedding client, of the collection, of the file system and of the
    audit database) is read from an [Env]. *)

Module Sys.

(** An embedding vector; no method looks inside one. *)
Definition Embedding : Type := list Z.

(** The metadata dictionary stored with every chunk. *)
Record ChunkMeta : Type := {
  document_id : str;
  chunk_filename : str;
  chunk_index : nat;
  total_chunks : nat;
  pii_masked : bool;
  chunk_uploaded_at : str
}.

(** One record of the Chroma collection. *)
Record Entry : Type := {
  document : str;
  embedding : Embedding;
  metadata : ChunkMeta
}.

(** One value of [DocumentService.documents_metadata]. *)
Record DocMeta : Type := {
  id : str;
  filename : str;
  file_type : str;
  uploaded_at : str;
  chunk_count : nat;
  character_count : nat;
  pii_detected : bool;
  pii_summary : option str;
  user_id : str
}.

(** One row of the audit trail. *)
Record AuditRow : Type := {
  audit_user : str;
  action : str;
  audit_document_id : str
}.

(** [metadata_file] is [documents.json] as [json.load] reads it: the
    dictionary it holds, and the empty one for a file that is missing,
    truncated or otherwise not parseable ([_load_metadata] answers [{}] for
    each of them). *)
Record World : Type := {
  collection : gmap str Entry;            (* VectorStoreService.collection *)
  documents_metadata : gmap str DocMeta;  (* DocumentService.documents_metadata *)
  metadata_file : gmap str DocMeta;       (* documents.json *)
  embed_calls : list str;                 (* prompts sent to the embedding client *)
  audit_rows : list AuditRow
}.

Record Env : Type := {
  uuid4 : str;
  utcnow : nat → str;
  utf8_decode : str → str;
  extract_pdf : str → option str;         (* _extract_pdf *)
  extract_docx : str → option str;        (* _extract_docx *)
  client_embeddings : nat → str → option Embedding;
  collection_add_ok : bool;               (* collection.add takes a batch *)
  collection_add_value_error : bool;      (* what it raises is a ValueError *)
  collection_get_ok : bool;
  collection_delete_ok : bool;
  metadata_open_ok : bool;                (* open(metadata_file, "w") *)
  json_dump_ok : bool;                    (* json.dump into the open file *)
  audit_ok : bool
}.

Inductive exc : Type :=
| ValueError        (* also the collection's, as for an empty batch *)
| RuntimeError      (* raised by generate_embedding *)
| ChromaError       (* an exception of the collection that is no ValueError *)
| AuditError.       (* whatever the audit database raises *)

Inductive outcome (A : Type) : Type :=
| Return (a : A)
| Raise (e : exc).
Arguments Return {A} a.
Arguments Raise {A} e.

Definition M (A : Type) : Type := World → outcome A * World.

Definition ret {A} (a : A) : M A := λ w, (Return a, w).
Definition raise {A} (e : exc) : M A := λ w, (Raise e, w).
Definition bind {A B} (m : M A) (f : A → M B) : M B :=
  λ w, match m w with
       | (Return a, w') => f a w'
       | (Raise e, w') => (Raise e, w')
       end.
Definition get_world : M World := λ w, (Return w, w).
Definition modify (f : World → World) : M unit := λ w, (Return tt, f w).

(** [try: m except Exception: return a] *)
Definition try_except {A} (m : M A) (a : A) : M A :=
  λ w, match m w with
       | (Return x, w') => (Return x, w')
       | (Raise _, w') => (Return a, w')
       end.

(** A [for] loop that collects one result per element. *)
Fixpoint for_each {A B} (f : A → M B) (l : list A) : M (list B) :=
  match l with
  | [] => ret []
  | x :: l' => bind (f x) (λ y, bind (for_each f l') (λ ys, ret (y :: ys)))
  end.

Definition returned {A} (r : outcome A * World) : Prop :=
  match r.1 with Return _ => True | Raise _ => False end.

#[global] Instance M_ret : MRet M := @ret.
#[global] Instance M_bind : MBind M := λ A B f m, bind m f.

End Sys.


(** ** [services/llm_service.py] *)

Module Llm.
Import Sys.

(** [LLMService.generate_embedding] *)
Definition generate_embedding (env : Env) (t : str) : M Embedding :=
  λ w,
    let w' := {| collection := collection w;
                 documents_metadata := documents_metadata w;
                 metadata_file := metadata_file w;
                 embed_calls := embed_calls w ++ [t];
                 audit_rows := audit_rows w |} in
    match client_embeddings env (length (embed_calls w)) t with
    | Some e => (Return e, w')
    | None => (Raise RuntimeError, w')
    end.

(** [range(0, n, step)] for a positive [step] *)
Definition range_step (n step : nat) : list nat :=
  map (λ k, k * step) (seq 0 (Nat.div (n + step - 1) step)).

(** [LLMService.generate_embeddings_batch] *)
Definition generate_embeddings_batch (env : Env) (texts : list str)
    (batch_size : nat) : M (list Embedding) :=
  match batch_size with
  | 0 => raise ValueError          (* range() arg 3 must not be zero *)
  | _ =>
      bs ← for_each
             (λ i, for_each (generate_embedding env)
                            (Text.slice i (i + batch_size) texts))
             (range_step (length texts) batch_size);
      ret (concat bs)
  end.

End Llm.

(** ** [services/vector_store.py] *)

Module Store.
Import Sys.

Definition set_collection (c : gmap str Entry) (w : World) : World :=
  {| collection := c;
     documents_metadata := documents_metadata w;
     metadata_file := metadata_file w;
     embed_calls := embed_calls w;
     audit_rows := audit_rows w |}.

Definition entries (documents : list str) (embeddings : list Embedding)
    (metadatas : list ChunkMeta) (ids : list str) : list (str * Entry) :=
  zip ids
      (zip_with (λ de m, {| document := de.1; embedding := de.2; metadata := m |})
                (zip documents embeddings) metadatas).

(** What [collection.add] does to the records: it is no upsert, a record
    whose identifier the collection holds already stays as it is, the
    others are added. *)
Definition insert_all (es : list (str * Entry)) (c : gmap str Entry)
    : gmap str Entry :=
  foldl (λ c e, match c !! e.1 with Some _ => c | None => <[e.1 := e.2]> c end) c es.

(** [collection.add]: Chroma refuses an empty list of identifiers with a
    [ValueError]; any other batch is taken or refused as the environment
    says.  The one caller, [process_document], hands over lists of one
    length and identifiers that differ from one another. *)
Definition collection_add (env : Env) (documents : list str)
    (embeddings : list Embedding) (metadatas : list ChunkMeta) (ids : list str)
    : M unit :=
  if negb (Pii.nonempty ids) then raise ValueError
  else if collection_add_ok env then
    modify (λ w, set_collection
                   (insert_all (entries documents embeddings metadatas ids)
                               (collection w)) w)
  else raise (if collection_add_value_error env then ValueError else ChromaError).

(** [VectorStoreService.add_documents]: an exception of the collection is
    logged and raised again. *)
Definition add_documents (env : Env) (documents : list str)
    (embeddings : list Embedding) (metadatas : list ChunkMeta) (ids : list str)
    : M nat :=
  collection_add env documents embeddings metadatas ids;;
  mret (length documents).

(** [collection.get(where={"document_id": d})["ids"]] *)
Definition ids_of (d : str) (c : gmap str Entry) : list str :=
  (map_to_list (filter (λ kv, document_id (metadata kv.2) = d) c)).*1.

(** [collection.delete(ids=ids)] *)
Definition delete_ids (ids : list str) (c : gmap str Entry) : gmap str Entry :=
  foldr delete c ids.

(** The body of the [try] in [delete_by_document_id]. *)
Definition delete_chunks (env : Env) (d : str) : M bool :=
  w ← get_world;
  if collection_get_ok env then
    let ids := ids_of d (collection w) in
    if Pii.nonempty ids then
      if collection_delete_ok env then
        modify (set_collection (delete_ids ids (collection w)));;
        mret true
      else raise ChromaError
    else mret false
  else raise ChromaError.

(** [VectorStoreService.delete_by_document_id] *)
Definition delete_by_document_id (env : Env) (d : str) : M bool :=
  try_except (delete_chunks env d) false.

End Store.

(** ** [services/document_service.py] *)

Module Docs.
Import Sys.

(** The attributes of [DocumentService] that never change. *)
Record DocumentService : Type := {
  pii_service : Pii.PIIService;
  chunk_size : Z;
  chunk_overlap : Z
}.

(** The dictionary [process_document] returns. *)
Record Processed : Type := {
  r_id : str;
  r_filename : str;
  r_chunk_count : nat;
  r_pii_detected : bool;
  r_pii_summary : option str
}.

(** [t.lower()].  The strings of this model hold code points below 256,
    and on these [str.lower] is the map below, character by character.
    Above them it is not: lower-casing can depend on the neighbours of a
    character and change the length of the text. *)
Definition lower_char (c : ascii) : ascii :=
  if Text.is_upper c
     || (Text.between 192 222 c && negb (Text.code c =? 215))
  then ascii_of_nat (Text.code c + 32) else c.

Definition lower (t : str) : str := map lower_char t.

(** [DocumentService._extract_text] *)
Definition _extract_text (env : Env) (content : str) (file_type : str) : option str :=
  let file_type := lower file_type in
  if decide (file_type = txt ".pdf") then extract_pdf env content
  else if decide (file_type ∈ [txt ".docx"; txt ".doc"]) then extract_docx env content
  else if decide (file_type ∈ [txt ".txt"; txt ".md"]) then Some (utf8_decode env content)
  else None.

(** [PIIService.get_pii_stats]: the type distribution, a dictionary in
    insertion order. *)
Fixpoint count_type (ty : str) (d : list (str * nat)) : list (str * nat) :=
  match d with
  | [] => [(ty, 1)]
  | (k, n) :: d' => if decide (k = ty) then (k, S n) :: d' else (k, n) :: count_type ty d'
  end.

Definition type_distribution (results : list Pii.PIIResult) : list (str * nat) :=
  foldl (λ d m, count_type (Pii.type m) d) [] (flat_map Pii.matches results).

Definition quote : ascii := ascii_of_nat 34.

(** [json.dumps] of that dictionary; the keys need no escaping. *)
Definition json_dumps (d : list (str * nat)) : str :=
  txt "{"
  ++ Chunker.join (txt ", ")
       (map (λ kv, [quote] ++ kv.1 ++ [quote] ++ txt ": " ++ txt (pretty kv.2)) d)
  ++ txt "}".

(** [f"{document_id}_chunk_{i}"] *)
Definition chunk_id (document_id : str) (i : nat) : str :=
  document_id ++ txt "_chunk_" ++ txt (pretty i).

Definition set_documents_metadata (m : gmap str DocMeta) (w : World) : World :=
  {| collection := collection w;
     documents_metadata := m;
     metadata_file := metadata_file w;
     embed_calls := embed_calls w;
     audit_rows := audit_rows w |}.

(** What [documents.json] holds after [_save_metadata] has tried to write
    the dictionary [m] over [old].  [open(..., "w")] truncates the file
    before [json.dump] runs: when the file cannot be opened it stays as it
    was; when it is opened and the dump fails, what is left is a proper
    prefix of a dump, which no later [json.load] can parse. *)
Definition dumped (env : Env) (m old : gmap str DocMeta) : gmap str DocMeta :=
  if metadata_open_ok env then
    if json_dump_ok env then m else ∅
  else old.

(** [DocumentService._save_metadata]: an error is logged, not raised. *)
Definition _save_metadata (env : Env) : M unit :=
  modify (λ w,
    {| collection := collection w;
       documents_metadata := documents_metadata w;
       metadata_file := dumped env (documents_metadata w) (metadata_file w);
       embed_calls := embed_calls w;
       audit_rows := audit_rows w |}).

(** [AuditService.log] *)
Definition audit_log (env : Env) (user act d : str) : M unit :=
  if audit_ok env then
    modify (λ w,
      {| collection := collection w;
         documents_metadata := documents_metadata w;
         metadata_file := metadata_file w;
         embed_calls := embed_calls w;
         audit_rows := audit_rows w
                       ++ [{| audit_user := user; action := act;
                              audit_document_id := d |}] |})
  else raise AuditError.

(** [DocumentService.process_document] *)
Definition process_document (svc : DocumentService) (env : Env)
    (filename content file_type user_id : str) : M Processed :=
  let document_id := uuid4 env in
  (* 1. Extract text from document *)
  match _extract_text env content file_type with
  | None | Some [] => raise ValueError
  | Some text =>
      (* 2. Split into chunks *)
      let chunks := Chunker._chunk_text (chunk_size svc) (chunk_overlap svc) text in
      (* 3. PII detection and masking *)
      let results := map (λ chunk, Pii.detect_pii (pii_service svc) chunk true) chunks in
      let masked_chunks := map Pii.masked_text results in
      let pii_detected := existsb Pii.pii_detected results in
      let pii_summary :=
        if pii_detected then
          Some (txt "Gefunden: "
                ++ json_dumps (type_distribution
                                 (Pii.detect_in_chunks (pii_service svc) chunks true)))
        else None in
      (* 4. Generate embeddings for masked chunks *)
      embeddings ← Llm.generate_embeddings_batch env masked_chunks 10;
      (* 5. Store in vector database *)
      let n := length masked_chunks in
      let chunk_ids := map (chunk_id document_id) (seq 0 n) in
      let metadatas :=
        map (λ i, {| document_id := document_id; chunk_filename := filename;
                     chunk_index := i; total_chunks := n;
                     pii_masked := pii_detected;
                     chunk_uploaded_at := utcnow env i |})
            (seq 0 n) in
      Store.add_documents env masked_chunks embeddings metadatas chunk_ids;;
      (* 6. Save document metadata *)
      modify (λ w, set_documents_metadata
                     (<[document_id :=
                          {| id := document_id; filename := filename;
                             file_type := file_type; uploaded_at := utcnow env n;
                             chunk_count := length chunks;
                             character_count := length text;
                             pii_detected := pii_detected;
                             pii_summary := pii_summary;
                             user_id := user_id |}]>
                        (documents_metadata w)) w);;
      _save_metadata env;;
      (* 7. Audit log *)
      audit_log env user_id (txt "document_processed") document_id;;
      mret {| r_id := document_id; r_filename := filename;
              r_chunk_count := length chunks; r_pii_detected := pii_detected;
              r_pii_summary := pii_summary |}
  end.

(** [DocumentService.list_documents]; the order of the dictionary is not
    part of the model. *)
Definition list_documents (w : World) : list (str * DocMeta) :=
  map_to_list (documents_metadata w).

(** [DocumentService.get_document] *)
Definition get_document (w : World) (document_id : str) : option DocMeta :=
  documents_metadata w !! document_id.

(** [DocumentService.delete_document] *)
Definition delete_document (env : Env) (document_id : str) : M bool :=
  w ← get_world;
  if decide (document_id ∈ dom (documents_metadata w)) then
    (* Delete from vector store *)
    Store.delete_by_document_id env document_id;;
    (* Delete metadata *)
    modify (λ w, set_documents_metadata (delete document_id (documents_metadata w)) w);;
    _save_metadata env;;
    mret true
  else mret false.

Definition empty_world : World :=
  {| collection := ∅; documents_metadata := ∅; metadata_file := ∅;
     embed_calls := []; audit_rows := [] |}.

End Docs.

(** ** The reports of [services/pii_service.py] *)

Module Report.
Import Pii.

(** The loop that fills [type_counts]: a dictionary in insertion order. *)
Definition type_counts (ms : list PIIMatch) : list (str * nat) :=
  foldl (λ d m, Docs.count_type (type m) d) [] ms.

(** [PIIResult.summary] *)
Definition summary (r : PIIResult) : str :=
  if negb (nonempty (matches r)) then txt "Keine PII erkannt"
  else
    Chunker.join (txt ", ")
      (map (λ kv, txt (pretty kv.2) ++ txt "x " ++ kv.1) (type_counts (matches r))).

(** The dictionary [get_pii_stats] returns. *)
Record PIIStats : Type := {
  total_matches : nat;
  documents_with_pii : nat;
  type_distribution : list (str * nat)
}.

(** The inner loop of [get_pii_stats], over the matches of one result. *)
Definition count_match (st : PIIStats) (m : PIIMatch) : PIIStats :=
  {| total_matches := S (total_matches st);
     documents_with_pii := documents_with_pii st;
     type_distribution := Docs.count_type (type m) (type_distribution st) |}.

(** The outer loop, over the results. *)
Definition count_result (st : PIIStats) (result : PIIResult) : PIIStats :=
  let st :=
    if pii_detected result then
      {| total_matches := total_matches st;
         documents_with_pii := S (documents_with_pii st);
         type_distribution := type_distribution st |}
    else st in
  foldl count_match st (matches result).

(** [PIIService.get_pii_stats] *)
Definition get_pii_stats (results : list PIIResult) : PIIStats :=
  foldl count_result
        {| total_matches := 0; documents_with_pii := 0; type_distribution := [] |}
        results.

(** [PIIService.is_available] *)
Definition is_available (svc : PIIService) : bool :=
  enabled svc && (match nlp svc with Some _ => true | None => false end || true).

End Report.

(** ** The queries of [services/vector_store.py] *)

Module Query.
Import Sys.

(** One element of the list [get_document_chunks] returns. *)
Record Chunk : Type := {
  chunk_key : str;
  content : str;
  chunk_metadata : ChunkMeta
}.

(** [VectorStoreService.get_document_chunks]; the order in which the
    collection lists its records is not part of the model, an exception of
    the collection gives the empty list. *)
Definition get_document_chunks (env : Env) (d : str) (w : World) : list Chunk :=
  if collection_get_ok env then
    map (λ kv, {| chunk_key := kv.1; content := document kv.2;
                  chunk_metadata := metadata kv.2 |})
        (map_to_list (filter (λ kv, document_id (metadata kv.2) = d) (collection w)))
  else [].

(** [VectorStoreService.get_all_document_ids]: [list(doc_ids)] of the set
    of the identifiers met. *)
Definition get_all_document_ids (env : Env) (w : World) : list str :=
  if collection_get_ok env then
    let metadatas := map (λ kv, metadata kv.2) (map_to_list (collection w)) in
    if negb (Pii.nonempty metadatas) then []
    else
      elements
        (foldl (λ doc_ids m, doc_ids ∪ {[document_id m]}) (∅ : gset str) metadatas)
  else [].

(** The two counters of [VectorStoreService.get_stats]. *)
Record StoreStats : Type := {
  total_chunks : nat;
  total_documents : nat
}.

(** [VectorStoreService.get_stats]; [count_ok] tells whether
    [collection.count()] answers. *)
Definition get_stats (env : Env) (count_ok : bool) (w : World) : StoreStats :=
  if count_ok then
    {| total_chunks := size (collection w);
       total_documents := length (get_all_document_ids env w) |}
  else {| total_chunks := 0; total_documents := 0 |}.

End Query.

(** ** The queries of [services/document_service.py] *)

Module Catalog.
Import Sys.

(** [DocumentService._load_metadata]; [readable] tells whether
    [documents.json] can be opened and parsed.  A file that does not exist
    and a file that holds the empty dictionary give the same result. *)
Definition _load_metadata (readable : bool) (w : World) : gmap str DocMeta :=
  if readable then metadata_file w else ∅.

(** What [DocumentService.__init__] does to the stores of a process that
    starts on the files of an earlier one. *)
Definition init (readable : bool) (w : World) : World :=
  Docs.set_documents_metadata (_load_metadata readable w) w.

(** The dictionary [get_stats] returns. *)
Record DocStats : Type := {
  total_documents : nat;
  total_chunks : nat;
  pii_documents : nat
}.

(** [DocumentService.get_stats] *)
Definition get_stats (w : World) : DocStats :=
  let values := (map_to_list (documents_metadata w)).*2 in
  {| total_documents := size (documents_metadata w);
     total_chunks := sum_list (map chunk_count values);
     pii_documents := length (filter (λ meta, pii_detected meta = true) values) |}.

End Catalog.

(** ** The document endpoints of [main.py] *)

Module Api.
Import Sys.

(** [p.rfind(c)]; [None] stands for -1. *)
Fixpoint rfind_go (c : ascii) (p : str) (pos : nat) (found : option nat) : option nat :=
  match p with
  | [] => found
  | x :: p' => rfind_go c p' (S pos) (if Text.is_char c x then Some pos else found)
  end.

Definition rfind (c : ascii) (p : str) : option nat := rfind_go c p 0 None.

(** The loop of [_splitext] that skips the leading dots of the file name:
    whether a character other than a dot is met. *)
Fixpoint past_leading_dots (name : str) : bool :=
  match name with
  | [] => false
  | c :: name' => if negb (Text.is_char "." c) then true else past_leading_dots name'
  end.

(** [os.path.splitext] of [posixpath] *)
Definition splitext (p : str) : str * str :=
  let sepIndex := rfind "/" p in
  let dotIndex := rfind "." p in
  match dotIndex with
  | Some dot =>
      let filenameIndex := match sepIndex with Some i => S i | None => 0 end in
      if (filenameIndex <=? dot)
         && past_leading_dots (Text.slice filenameIndex dot p)
      then (firstn dot p, skipn dot p)
      else (p, [])
  | None => (p, [])
  end.

(** [filename.startswith(prefix)] *)
Definition startswith (filename prefix : str) : bool := Text.is_prefix prefix filename.

(** The file types [upload_document] accepts. *)
Definition allowed_types : list str :=
  [txt ".pdf"; txt ".docx"; txt ".doc"; txt ".txt"; txt ".md"].

(** The extension [upload_document] derives from the name of the file. *)
Definition file_ext_of (filename : str) : str :=
  let file_ext := Docs.lower (splitext filename).2 in
  if negb (Pii.nonempty file_ext) && startswith filename (txt ".")
  then Docs.lower filename
  else file_ext.

(** What an endpoint answers: its value, or the status of the
    [HTTPException] it raises. *)
Inductive answer (A : Type) : Type :=
| Ok (a : A)
| HTTPException (status_code : nat).
Arguments Ok {A} a.
Arguments HTTPException {A} status_code.

(** [DocumentResponse] *)
Record DocumentResponse : Type := {
  resp_id : str;
  resp_filename : str;
  resp_uploaded_at : str;
  resp_chunk_count : nat;
  resp_pii_detected : bool;
  resp_pii_summary : option str
}.

(** [audit_service.log] as the endpoints call it, without metadata;
    [log_ok] tells whether the audit database takes this row. *)
Definition log (log_ok : bool) (user_id action : str) : M unit :=
  if log_ok then
    modify (λ w,
      {| collection := collection w;
         documents_metadata := documents_metadata w;
         metadata_file := metadata_file w;
         embed_calls := embed_calls w;
         audit_rows := audit_rows w
                       ++ [{| audit_user := user_id; Sys.action := action;
                              audit_document_id := [] |}] |})
  else raise AuditError.

(** [upload_document]; [document_service] is the global that is [None]
    until the application has started. *)
Definition upload_document (document_service : option Docs.DocumentService) (env : Env)
    (log_ok : bool) (filename content : str) : M (answer DocumentResponse) :=
  match document_service with
  | None => mret (HTTPException 503)
  | Some svc =>
      (* Validate file type *)
      let file_ext := file_ext_of filename in
      if decide (file_ext ∈ allowed_types) then
        (* Process document *)
        λ w,
          match Docs.process_document svc env filename content file_ext (txt "system") w
          with
          | (Return result, w') =>
              (log log_ok (txt "system") (txt "document_upload");;
               mret (Ok {| resp_id := Docs.r_id result;
                           resp_filename := filename;
                           resp_uploaded_at :=
                             utcnow env (S (Docs.r_chunk_count result));
                           resp_chunk_count := Docs.r_chunk_count result;
                           resp_pii_detected := Docs.r_pii_detected result;
                           resp_pii_summary := Docs.r_pii_summary result |})) w'
          | (Raise ValueError, w') => (Return (HTTPException 400), w')
          | (Raise _, w') => (Return (HTTPException 500), w')
          end
      else mret (HTTPException 400)
  end.

(** [delete_document], the endpoint *)
Definition delete_document (document_service : option Docs.DocumentService) (env : Env)
    (log_ok : bool) (document_id : str) : M (answer str) :=
  match document_service with
  | None => mret (HTTPException 503)
  | Some _ =>
      success ← Docs.delete_document env document_id;
      if negb success then mret (HTTPException 404)
      else
        log log_ok (txt "system") (txt "document_delete");;
        mret (Ok document_id)
  end.

End Api.

(** * Vocabulary of the properties *)

Section Vocabulary.
Import Sys.

(** ** The matcher *)

(** Every character class of [r] lies within [P]. *)
Fixpoint classes (P : ascii → bool) (r : Re.regex) : Prop :=
  match r with
  | Re.Chr p => ∀ c, p c = true → P c = true
  | Re.Seq r1 r2 | Re.Alt r1 r2 => classes P r1 ∧ classes P r2
  | Re.Rep r _ _ => classes P r
  | Re.Eps | Re.WordB => True
  end.

(** [classes], decided by running through the 256 characters. *)
Fixpoint classes_ok (P : ascii → bool) (r : Re.regex) : bool :=
  match r with
  | Re.Chr p => forallb (λ n, implb (p (ascii_of_nat n)) (P (ascii_of_nat n))) (seq 0 256)
  | Re.Seq r1 r2 | Re.Alt r1 r2 => classes_ok P r1 && classes_ok P r2
  | Re.Rep r _ _ => classes_ok P r
  | Re.Eps | Re.WordB => true
  end.

(** The least number of characters a match of [r] holds. *)
Fixpoint min_len (r : Re.regex) : nat :=
  match r with
  | Re.Chr _ => 1
  | Re.Seq r1 r2 => min_len r1 + min_len r2
  | Re.Alt r1 r2 => min_len r1 `min` min_len r2
  | Re.Rep r lo _ => lo * min_len r
  | Re.Eps | Re.WordB => 0
  end.

(** Not a square bracket. *)
Definition plain (c : ascii) : bool :=
  negb (Text.is_char "[" c) && negb (Text.is_char "]" c).

(** A pattern whose classes hold no bracket and whose matches are not
    empty. *)
Definition sober (r : Re.regex) : bool := classes_ok plain r && (1 <=? min_len r).

(** What a successful run of a matcher has done: it has read [mid], at
    least [n] characters within [P], and the continuation has accepted what
    follows. *)
Definition reads (P : ascii → bool) (n : nat) (rest : str) (k : Re.cont) (out : str)
    : Prop :=
  ∃ mid rest' prev', rest = mid ++ rest' ∧ Forall (λ c, P c = true) mid ∧
                     n ≤ length mid ∧ k prev' rest' = Some out.

(** A matcher looks at its continuation only for texts at least [n]
    characters shorter than the one it reads. *)
Definition local (body : Re.matcher) (n : nat) : Prop :=
  ∀ prev (rest : str) (k k' : Re.cont),
    (∀ p (r' : str), length r' + n ≤ length rest → k p r' = k' p r') →
    body prev rest k = body prev rest k'.

(** Every repeated sub-pattern of [r] reads at least one character. *)
Fixpoint guarded (r : Re.regex) : bool :=
  match r with
  | Re.Rep r _ _ => (1 <=? min_len r) && guarded r
  | Re.Seq r1 r2 | Re.Alt r1 r2 => guarded r1 && guarded r2
  | Re.Eps | Re.Chr _ | Re.WordB => true
  end.

(** ** Masking *)

Definition span (m : Pii.PIIMatch) : nat * nat := (Pii.start m, Pii.end_ m).

(** One replacement: [w[:m.start] + m.masked_value + w[m.end:]]. *)
Definition put (w : str) (m : Pii.PIIMatch) : str :=
  Text.splice w (Pii.start m) (Pii.end_ m) (Pii.masked_value m).

(** The first candidate of every span, in the order of the list. *)
Fixpoint firsts (ms : list Pii.PIIMatch) : list Pii.PIIMatch :=
  match ms with
  | [] => []
  | m :: ms' => m :: filter (λ x, span x ≠ span m) (firsts ms')
  end.

(** [a] may be walked before [b]. *)
Definition later (a b : Pii.PIIMatch) : Prop := Pii.start b ≤ Pii.start a.

(** The replacement tokens of the ten pattern types. *)
Definition pattern_tokens : list str :=
  map (λ kv, Pii.mask_for kv.1) Pii.PATTERNS.

(** ** Chunks *)

Definition space : str := txt " ".

(** The words carried over from a closed chunk. *)
Definition carried (chunk_overlap : Z) (c : str) : list str :=
  (Chunker.carry chunk_overlap c).1.

(** [c'] is the chunk that follows [c]: the carried words, then at least
    one new sentence. *)
Definition follows (chunk_overlap : Z) (c c' : str) : Prop :=
  ∃ ss, ss ≠ [] ∧ c' = Chunker.join space (carried chunk_overlap c ++ ss).

Definition adjacent {A} (R : A → A → Prop) (l : list A) : Prop :=
  ∀ i x y, l !! i = Some x → l !! S i = Some y → R x y.

(** What holds between two rounds of the chunking loop. *)
Definition chunking (chunk_overlap : Z) (st : Chunker.state) : Prop :=
  adjacent (follows chunk_overlap) (Chunker.chunks st) ∧
  ∀ c, last (Chunker.chunks st) = Some c →
       ∃ ss, ss ≠ [] ∧ Chunker.current_chunk st = carried chunk_overlap c ++ ss.

(** ** Ingestion and erasure *)

(** The calls made between two worlds. *)
Definition sent (w w' : World) (k : list str) : Prop :=
  embed_calls w' = embed_calls w ++ k.

(** A step that touches nothing but the record of the calls. *)
Definition only_embeds (w w' : World) : Prop :=
  collection w' = collection w ∧
  documents_metadata w' = documents_metadata w ∧
  metadata_file w' = metadata_file w ∧
  audit_rows w' = audit_rows w.

(** The chunks of an upload and their masked texts. *)
Definition chunks_of (svc : Docs.DocumentService) (env : Env) (content file_type : str)
    : list str :=
  match Docs._extract_text env content file_type with
  | Some text => Chunker._chunk_text (Docs.chunk_size svc) (Docs.chunk_overlap svc) text
  | None => []
  end.

Definition masked_of (svc : Docs.DocumentService) (chunks : list str) : list str :=
  map Pii.masked_text
      (map (λ chunk, Pii.detect_pii (Docs.pii_service svc) chunk true) chunks).

(** The records [process_document] hands to the collection. *)
Definition new_entries (svc : Docs.DocumentService) (env : Env)
    (filename content file_type : str) (es : list Embedding) : list (str * Entry) :=
  let chunks := chunks_of svc env content file_type in
  let masked := masked_of svc chunks in
  let n := length masked in
  Store.entries masked es
    (map (λ i, {| document_id := uuid4 env; chunk_filename := filename;
                  chunk_index := i; total_chunks := n;
                  pii_masked :=
                    existsb Pii.pii_detected
                      (map (λ chunk, Pii.detect_pii (Docs.pii_service svc) chunk true)
                           chunks);
                  chunk_uploaded_at := utcnow env i |}) (seq 0 n))
    (map (Docs.chunk_id (uuid4 env)) (seq 0 n)).

Definition underscore : ascii := "_"%char.

(** Every chunk a metadata record counts is in the collection, under the
    identifier derived from the record's key, and carries that key. *)
Definition indexed (w : World) : Prop :=
  ∀ d meta (i : nat),
    documents_metadata w !! d = Some meta → i < chunk_count meta →
    ∃ x, collection w !! Docs.chunk_id d i = Some x ∧ document_id (metadata x) = d.

(** One call of one of the two methods that write to the stores. *)
Inductive call : World → World → Prop :=
| call_process svc env (filename content file_type user_id : str) w :
    call w (Docs.process_document svc env filename content file_type user_id w).2
| call_delete env d w :
    call w (Docs.delete_document env d w).2.

(** The worlds one process reaches from empty stores, by calls of the two
    methods and with no restart in between. *)
Definition reachable (w : World) : Prop := rtc call Docs.empty_world w.

(** ** Examples *)

Definition contact : str := txt "Kontakt: max@firma.de, Tel: 030 12345678".

Definition card : str := txt "1111 2222 3333 4444".

(** An address that holds an IP address. *)
Definition nested : str := txt "a@1.2.3.4.de".

(** A line in which the same address stands twice, the second time
    followed by an underscore. *)
Definition twice : str := txt "max@firma.de max@firma.de_1".

Definition two_sentences : str := txt "Das ist ein Satz. Und noch einer! Wer ist da?".

Definition cand_a : Pii.PIIMatch :=
  {| Pii.type := txt "a"; Pii.value := txt "x"; Pii.start := 0; Pii.end_ := 1;
     Pii.masked_value := txt "[A]" |}.

Definition cand_b : Pii.PIIMatch :=
  {| Pii.type := txt "b"; Pii.value := txt "z"; Pii.start := 2; Pii.end_ := 3;
     Pii.masked_value := txt "[B]" |}.

(** An environment in which nothing fails. *)
Definition quiet : Env :=
  {| uuid4 := txt "d1"; utcnow := λ _, txt "2024-01-01T00:00:00";
     utf8_decode := λ b, b;
     extract_pdf := λ _, None; extract_docx := λ _, None;
     client_embeddings := λ _ _, Some [1%Z];
     collection_add_ok := true; collection_add_value_error := false;
     collection_get_ok := true;
     collection_delete_ok := true; metadata_open_ok := true;
     json_dump_ok := true; audit_ok := true |}.

(** The same with a collection that rejects [add]. *)
Definition add_fails : Env :=
  {| uuid4 := txt "d2"; utcnow := utcnow quiet; utf8_decode := utf8_decode quiet;
     extract_pdf := extract_pdf quiet; extract_docx := extract_docx quiet;
     client_embeddings := client_embeddings quiet;
     collection_add_ok := false; collection_add_value_error := false;
     collection_get_ok := true;
     collection_delete_ok := true; metadata_open_ok := true;
     json_dump_ok := true; audit_ok := true |}.

(** The same with a collection that rejects [delete]. *)
Definition delete_fails : Env :=
  {| uuid4 := txt "d3"; utcnow := utcnow quiet; utf8_decode := utf8_decode quiet;
     extract_pdf := extract_pdf quiet; extract_docx := extract_docx quiet;
     client_embeddings := client_embeddings quiet;
     collection_add_ok := true; collection_add_value_error := false;
     collection_get_ok := true;
     collection_delete_ok := false; metadata_open_ok := true;
     json_dump_ok := true; audit_ok := true |}.

(** The service as [main.py] builds it when no spaCy model is installed. *)
Definition service : Docs.DocumentService :=
  {| Docs.pii_service := Pii.regex_only; Docs.chunk_size := 500;
     Docs.chunk_overlap := 50 |}.

Definition upload (env : Env) (content : str) : M Docs.Processed :=
  Docs.process_document service env (txt "a.txt") content (txt ".txt") (txt "system").

(** The world after the upload of [twice]. *)
Definition uploaded : World := (upload quiet twice Docs.empty_world).2.

End Vocabulary.

(** * Vocabulary of the further properties *)

Section Terms.
Import Sys.

(** ** Chunks *)

(** The sentences the loop of [_chunk_text] does not skip, stripped. *)
Definition kept_of (ss : list str) : list str :=
  filter (λ s, s ≠ []) (Chunker.strip <$> ss).

Definition kept (t : str) : list str := kept_of (Chunker.sentences t).

(** The chunks made of consecutive groups of sentences, each group after
    the words carried over from the chunk before it. *)
Fixpoint assemble (chunk_overlap : Z) (seed : list str) (groups : list (list str))
    : list str :=
  match groups with
  | [] => []
  | g :: groups' =>
      let c := Chunker.join space (seed ++ g) in
      c :: assemble chunk_overlap (carried chunk_overlap c) groups'
  end.

(** The words the next chunk starts with. *)
Definition seed_after (chunk_overlap : Z) (seed : list str) (cs : list str) : list str :=
  match last cs with Some c => carried chunk_overlap c | None => seed end.

(** What holds between two rounds of the loop, [ks] being the sentences
    taken so far: the closed chunks are assembled from groups of them, the
    open group [g] holds the rest; a chunk or the open chunk exceeds the
    chunk size only with a single sentence in its group; and a chunk was
    closed only before a sentence that did not fit. *)
Definition grouped (chunk_size chunk_overlap : Z) (ks : list str) (st : Chunker.state)
    : Prop :=
  ∃ groups g,
    Chunker.chunks st = assemble chunk_overlap [] groups ∧
    Forall (λ grp, grp ≠ []) groups ∧
    concat groups ++ g = ks ∧
    Chunker.current_chunk st = seed_after chunk_overlap [] (Chunker.chunks st) ++ g ∧
    (groups ≠ [] → g ≠ []) ∧
    Chunker.current_length st
    = (if Pii.nonempty (Chunker.current_chunk st)
       then Chunker.len (Chunker.join space (Chunker.current_chunk st)) + 1 else 0)%Z ∧
    Forall2 (λ c grp, (Chunker.len c ≤ chunk_size)%Z ∨ length grp = 1)
            (Chunker.chunks st) groups ∧
    ((Chunker.len (Chunker.join space (Chunker.current_chunk st)) ≤ chunk_size)%Z
     ∨ length g ≤ 1) ∧
    ∀ (i : nat) c grp s,
      Chunker.chunks st !! i = Some c → (groups ++ [g]) !! S i = Some grp →
      head grp = Some s → (chunk_size < Chunker.len c + 1 + Chunker.len s)%Z.

(** A word of [split]: not empty, no white space in it. *)
Definition word (x : str) : Prop := x ≠ [] ∧ Forall (λ c, Text.is_space c = false) x.

Definition long_line : str := txt "Eins zwei drei vier. Kurz. Ende gut alles gut.".

(** ** Matches and replacements *)

(** Two spans of which the first ends before the second starts. *)
Definition apart (a b : nat * nat) : Prop := a.2 ≤ b.1 ∧ a.1 < b.1.

(** Candidates in ascending order that do not overlap: each starts at or
    after [pos], is not empty and ends within [bound], and the next one
    starts at or after its end. *)
Fixpoint separated (pos bound : nat) (ms : list Pii.PIIMatch) : Prop :=
  match ms with
  | [] => True
  | m :: ms' =>
      pos ≤ Pii.start m ∧ Pii.start m < Pii.end_ m ∧ Pii.end_ m ≤ bound ∧
      separated (Pii.end_ m) bound ms'
  end.

(** The text from [pos] on, written out afresh: what stands between the
    candidates is copied, every candidate gives its replacement. *)
Fixpoint render (t : str) (pos : nat) (ms : list Pii.PIIMatch) : str :=
  match ms with
  | [] => drop pos t
  | m :: ms' =>
      Text.slice pos (Pii.start m) t ++ Pii.masked_value m ++ render t (Pii.end_ m) ms'
  end.

(** The characters taken out and the characters put in. *)
Definition removed (ms : list Pii.PIIMatch) : nat :=
  sum_list (map (λ m, Pii.end_ m - Pii.start m) ms).

Definition inserted (ms : list Pii.PIIMatch) : nat :=
  sum_list (map (λ m, length (Pii.masked_value m)) ms).

(** The replacements of the entity labels. *)
Definition entity_tokens : list str :=
  [txt "[PERSON]"; txt "[ORGANISATION]"; txt "[ORT]"; txt "[REDACTED]"].

(** The count a dictionary of counts holds for a key. *)
Definition tally (k : str) (d : list (str * nat)) : nat :=
  sum_list (filter (λ kv, kv.1 = k) d).*2.

(** A line with two dates. *)
Definition two_dates : str := txt "Vom 01.02.2020 bis 03.04.2021".

(** The number of matches of a type. *)
Definition occurrences (ty : str) (ms : list Pii.PIIMatch) : nat :=
  length (filter (λ m, Pii.type m = ty) ms).

(** ** Embedding calls *)

(** What the embedding client answers to the texts of [l], asked in their
    order, the first one as call number [base]. *)
Fixpoint answers (env : Env) (base : nat) (l : list str) : list (option Embedding) :=
  match l with
  | [] => []
  | t :: l' => client_embeddings env base t :: answers env (S base) l'
  end.

(** The call for the text at index [i] is the first one that fails. *)
Definition fails_first (env : Env) (base : nat) (l : list str) (i : nat) : Prop :=
  answers env base l !! i = Some None ∧
  ∀ j, j < i → ∃ e, answers env base l !! j = Some (Some e).

(** The world after the calls [k]. *)
Definition add_calls (k : list str) (w : World) : World :=
  {| collection := collection w;
     documents_metadata := documents_metadata w;
     metadata_file := metadata_file w;
     embed_calls := embed_calls w ++ k;
     audit_rows := audit_rows w |}.

(** An embedding client that fails at its second call. *)
Definition second_fails : Env :=
  {| uuid4 := txt "d4"; utcnow := utcnow quiet; utf8_decode := utf8_decode quiet;
     extract_pdf := extract_pdf quiet; extract_docx := extract_docx quiet;
     client_embeddings := λ n _, if n =? 1 then None else Some [1%Z];
     collection_add_ok := true; collection_add_value_error := false;
     collection_get_ok := true;
     collection_delete_ok := true; metadata_open_ok := true;
     json_dump_ok := true; audit_ok := true |}.

Definition three_texts : list str := [txt "a"; txt "b"; txt "c"].

(** ** The stores *)

(** The collection without the chunks of a document. *)
Definition without (d : str) (c : gmap str Entry) : gmap str Entry :=
  filter (λ kv, document_id (metadata kv.2) ≠ d) c.

(** The file types [_extract_text] knows. *)
Definition supported : list str :=
  [txt ".pdf"; txt ".docx"; txt ".doc"; txt ".txt"; txt ".md"].

(** The text of an upload, empty where none is extracted. *)
Definition text_of (env : Env) (content file_type : str) : str :=
  default [] (Docs._extract_text env content file_type).

(** The results of the masking pass over the chunks of an upload, the flag
    and the summary made of them. *)
Definition results_of (svc : Docs.DocumentService) (env : Env) (content file_type : str)
    : list Pii.PIIResult :=
  map (λ chunk, Pii.detect_pii (Docs.pii_service svc) chunk true)
      (chunks_of svc env content file_type).

Definition flag_of (svc : Docs.DocumentService) (env : Env) (content file_type : str)
    : bool :=
  existsb Pii.pii_detected (results_of svc env content file_type).

Definition summary_of (svc : Docs.DocumentService) (env : Env) (content file_type : str)
    : option str :=
  if flag_of svc env content file_type then
    Some (txt "Gefunden: "
          ++ Docs.json_dumps
               (Docs.type_distribution
                  (Pii.detect_in_chunks (Docs.pii_service svc)
                     (chunks_of svc env content file_type) true)))
  else None.

(** The record [process_document] writes into the dictionary. *)
Definition record_of (svc : Docs.DocumentService) (env : Env)
    (filename content file_type user_id : str) : DocMeta :=
  {| id := uuid4 env; filename := filename; file_type := file_type;
     uploaded_at :=
       utcnow env (length (masked_of svc (chunks_of svc env content file_type)));
     chunk_count := length (chunks_of svc env content file_type);
     character_count := length (text_of env content file_type);
     pii_detected := flag_of svc env content file_type;
     pii_summary := summary_of svc env content file_type;
     user_id := user_id |}.

(** The dictionary it returns. *)
Definition result_of (svc : Docs.DocumentService) (env : Env)
    (filename content file_type : str) : Docs.Processed :=
  {| Docs.r_id := uuid4 env; Docs.r_filename := filename;
     Docs.r_chunk_count := length (chunks_of svc env content file_type);
     Docs.r_pii_detected := flag_of svc env content file_type;
     Docs.r_pii_summary := summary_of svc env content file_type |}.

(** The world after the steps 5 to 7 of [process_document], the vectors
    being [es]. *)
Definition stored (svc : Docs.DocumentService) (env : Env)
    (filename content file_type user_id : str) (es : list Embedding) (w : World)
    : World :=
  let m := <[uuid4 env := record_of svc env filename content file_type user_id]>
             (documents_metadata w) in
  {| collection :=
       Store.insert_all (new_entries svc env filename content file_type es)
                        (collection w);
     documents_metadata := m;
     metadata_file := Docs.dumped env m (metadata_file w);
     embed_calls := embed_calls w;
     audit_rows :=
       if audit_ok env then
         audit_rows w ++ [{| audit_user := user_id; action := txt "document_processed";
                             audit_document_id := uuid4 env |}]
       else audit_rows w |}.

(** The file holds what the dictionary holds. *)
Definition synced (w : World) : Prop := metadata_file w = documents_metadata w.

(** Every record of the collection has the identifier derived from the
    document it belongs to. *)
Definition owned (w : World) : Prop :=
  ∀ k e, collection w !! k = Some e →
         ∃ i : nat, k = Docs.chunk_id (document_id (metadata e)) i.

(** Neither store holds anything of the document [d]. *)
Definition unused (d : str) (w : World) : Prop :=
  documents_metadata w !! d = None ∧
  ∀ k e, collection w !! k = Some e → document_id (metadata e) ≠ d.

(** An environment in which the audit database fails. *)
Definition audit_fails : Env :=
  {| uuid4 := txt "d5"; utcnow := utcnow quiet; utf8_decode := utf8_decode quiet;
     extract_pdf := extract_pdf quiet; extract_docx := extract_docx quiet;
     client_embeddings := client_embeddings quiet;
     collection_add_ok := true; collection_add_value_error := false;
     collection_get_ok := true;
     collection_delete_ok := true; metadata_open_ok := true;
     json_dump_ok := true; audit_ok := false |}.

(** An environment in which [json.dump] fails on the open file. *)
Definition dump_fails : Env :=
  {| uuid4 := txt "d6"; utcnow := utcnow quiet; utf8_decode := utf8_decode quiet;
     extract_pdf := extract_pdf quiet; extract_docx := extract_docx quiet;
     client_embeddings := client_embeddings quiet;
     collection_add_ok := true; collection_add_value_error := false;
     collection_get_ok := true;
     collection_delete_ok := true; metadata_open_ok := true;
     json_dump_ok := false; audit_ok := true |}.

(** An environment in which [documents.json] cannot be opened for
    writing. *)
Definition open_fails : Env :=
  {| uuid4 := txt "d7"; utcnow := utcnow quiet; utf8_decode := utf8_decode quiet;
     extract_pdf := extract_pdf quiet; extract_docx := extract_docx quiet;
     client_embeddings := client_embeddings quiet;
     collection_add_ok := true; collection_add_value_error := false;
     collection_get_ok := true;
     collection_delete_ok := true; metadata_open_ok := false;
     json_dump_ok := true; audit_ok := true |}.

(** Every chunk a record of the dictionary [m] counts is in the
    collection, under the identifier derived from the record's key, and
    carries that key. *)
Definition backed (m : gmap str DocMeta) (w : World) : Prop :=
  ∀ d meta (i : nat),
    m !! d = Some meta → i < chunk_count meta →
    ∃ x, collection w !! Docs.chunk_id d i = Some x ∧ document_id (metadata x) = d.

(** One event in the life of the stores: an ingestion, an erasure during
    which [documents.json] could be opened for writing, or the start of a
    new process on the files of the old one. *)
Inductive event : World → World → Prop :=
| event_process svc env (filename content file_type user_id : str) w :
    event w (Docs.process_document svc env filename content file_type user_id w).2
| event_delete env d w :
    metadata_open_ok env = true → event w (Docs.delete_document env d w).2
| event_restart (readable : bool) w :
    event w (Catalog.init readable w).

Definition lived (w : World) : Prop := rtc event Docs.empty_world w.

(** ** Scanning a masked text *)

(** The character that stands before what follows [a], when [prev] stands
    before [a]. *)
Definition before (prev : option ascii) (a : str) : option ascii :=
  match last a with Some c => Some c | None => prev end.

(** There is a word boundary at offset [q] of [t]. *)
Definition bounded_at (t : str) (q : nat) : Prop :=
  xorb (Re.word_before (before None (take q t))) (Re.word_after (drop q t)) = true.

(** A candidate that begins and ends at a word boundary. *)
Definition delimited (t : str) (m : Pii.PIIMatch) : Prop :=
  bounded_at t (Pii.start m) ∧ bounded_at t (Pii.end_ m).

(** A pattern that begins with [\b], and one that ends with it. *)
Definition opens (r : Re.regex) : bool :=
  match r with Re.Seq Re.WordB _ => true | _ => false end.

Fixpoint closes (r : Re.regex) : bool :=
  match r with
  | Re.WordB => true
  | Re.Seq _ r2 => closes r2
  | _ => false
  end.

(** The reading position [(p, rest)] of one text stands for the position
    [(p', rest')] of another: as far as plain characters follow in the
    latter, the former holds the same ones, and wherever the latter is at a
    word boundary the former is at one as well. *)
Fixpoint sim (p' : option ascii) (rest' : str) (p : option ascii) (rest : str) : Prop :=
  (xorb (Re.word_before p') (Re.word_after rest') = true →
   xorb (Re.word_before p) (Re.word_after rest) = true) ∧
  match rest' with
  | [] => True
  | c :: rest1' =>
      plain c = true →
      match rest with
      | c0 :: rest1 => c0 = c ∧ sim (Some c) rest1' (Some c) rest1
      | [] => False
      end
  end.

(** No attempt within [text] succeeds, [prev] standing before it. *)
Definition silent (r : Re.regex) (prev : option ascii) (text : str) : Prop :=
  ∀ a b, text = a ++ b → Re.match_here r (before prev a) b = None.

(** The two tokens whose letters the BIC pattern matches. *)
Definition loud_tokens : list str := [txt "[KREDITKARTE]"; txt "[REDACTED]"].

(** A token in brackets within which no attempt of a pattern succeeds. *)
Definition inert (token : str) : bool :=
  match token, last token with
  | c :: _, Some c' =>
      Text.is_char "[" c && Text.is_char "]" c' &&
      forallb
        (λ i, forallb
                (λ kv, match Re.match_here kv.2 (last (take i token)) (drop i token) with
                       | Some _ => false
                       | None => true
                       end)
                Pii.PATTERNS)
        (seq 1 (length token - 1))
  | _, _ => false
  end.

(** A line whose candidates overlap, none of them a card number. *)
Definition tangled : str := txt "08777360894 9044.194189 4".

(** A name that follows five digits with nothing in between, and a
    recogniser that finds the name there and nothing anywhere else. *)
Definition glued : str := txt "12345Max".

Definition tagger : Pii.PIIService :=
  {| Pii.enabled := true;
     Pii.nlp := Some (λ t, if decide (t = glued)
                           then [{| Pii.text := txt "Max"; Pii.label_ := txt "PERSON";
                                    Pii.start_char := 5; Pii.end_char := 8 |}]
                           else []) |}.

End Terms.
(** * Properties *)

(** ** The matcher *)

Section Matcher.
Import Text Re.

Variable P : ascii → bool.

Implicit Types (r : regex) (rest mid : str) (prev : option ascii) (k : cont).

Lemma rep_loop_sound (body : matcher) (n : nat) :
  (∀ prev rest k out, body prev rest k = Some out → reads P n rest k out) →
  ∀ fuel lo hi prev rest k out,
    rep_loop body fuel lo hi prev rest k = Some out → reads P (lo * n) rest k out.
Proof.
  intros Hbody. induction fuel as [|fuel IH]; intros lo hi prev rest k out; [done|].
  cbn [rep_loop].
  assert ((if can_stop lo then k prev rest else None) = Some out →
          reads P (lo * n) rest k out) as Hstop.
  { destruct lo; [|done]. intros Hk. exists [], rest, prev. cbn. by repeat split. }
  destruct (exhausted hi); [done|].
  destruct (body prev rest _) as [left|] eqn:Hb; [|done].
  intros [= ->]. apply Hbody in Hb as (m1 & r1 & p1 & -> & HP1 & Hn1 & Hk1).
  apply IH in Hk1 as (m2 & r2 & p2 & -> & HP2 & Hn2 & Hk2).
  exists (m1 ++ m2), r2, p2. rewrite <- app_assoc. split; [done|].
  split; [by apply Forall_app|]. split; [|done].
  rewrite length_app. destruct lo; cbn in *; lia.
Qed.

Lemma rmatch_sound r :
  classes P r →
  ∀ prev rest k out, rmatch r prev rest k = Some out → reads P (min_len r) rest k out.
Proof.
  induction r as [|p| |r1 IH1 r2 IH2|r1 IH1 r2 IH2|r IH lo hi];
    intros Hc prev rest k out; cbn [rmatch min_len].
  - intros Hk. exists [], rest, prev. cbn. by repeat split.
  - destruct rest as [|c rest]; [done|]. destruct (p c) eqn:Hp; [|done].
    intros Hk. exists [c], rest, (Some c). cbn. repeat split; [|lia|done].
    constructor; [by apply Hc|constructor].
  - destruct (xorb _ _); [|done].
    intros Hk. exists [], rest, prev. cbn. by repeat split.
  - destruct Hc as [Hc1 Hc2].
    intros (m1 & r1' & p1 & -> & HP1 & Hn1 & Hk1)%(IH1 Hc1).
    apply (IH2 Hc2) in Hk1 as (m2 & r2' & p2 & -> & HP2 & Hn2 & Hk2).
    exists (m1 ++ m2), r2', p2. rewrite <- app_assoc. split; [done|].
    split; [by apply Forall_app|]. split; [|done]. rewrite length_app. lia.
  - destruct Hc as [Hc1 Hc2].
    destruct (rmatch r1 prev rest k) as [left|] eqn:H1.
    + intros [= ->]. apply (IH1 Hc1) in H1 as (m & r' & p' & -> & HP & Hn & Hk).
      exists m, r', p'. repeat split; [done| |done]. lia.
    + intros (m & r' & p' & -> & HP & Hn & Hk)%(IH2 Hc2).
      exists m, r', p'. repeat split; [done| |done]. lia.
  - apply rep_loop_sound. intros ????. by apply IH.
Qed.

Lemma match_here_sound r prev rest (n : nat) :
  classes P r → match_here r prev rest = Some n →
  ∃ mid rest', rest = mid ++ rest' ∧ n = length mid ∧
               Forall (λ c, P c = true) mid ∧ min_len r ≤ n.
Proof.
  intros Hc. unfold match_here.
  destruct (rmatch r prev rest _) as [left|] eqn:Hm; [|done].
  intros [= <-]. apply (rmatch_sound r Hc) in Hm as (mid & rest' & p' & -> & HP & Hn & Hk).
  injection Hk as ->. exists mid, left. rewrite length_app.
  repeat split; [lia|done|lia].
Qed.

(** Every span that [scan] reports delimits characters of the classes of
    the pattern, at least as many as the pattern needs. *)
Lemma scan_sound r rest prev (pos skip i j : nat) :
  classes P r → (i, j) ∈ scan r prev rest pos skip →
  ∃ pre mid post, rest = pre ++ mid ++ post ∧ i = pos + length pre ∧
                  j = i + length mid ∧ Forall (λ c, P c = true) mid ∧
                  min_len r ≤ length mid.
Proof.
  intros Hc. revert prev pos skip.
  induction rest as [|c rest IH]; intros prev pos skip; cbn [scan].
  - destruct skip; [|by intros ?%elem_of_nil].
    destruct (match_here r prev []) as [n|] eqn:Hm; [|by intros ?%elem_of_nil].
    intros [= -> ->]%list_elem_of_singleton.
    apply match_here_sound in Hm as (mid & rest' & Heq & -> & HP & Hn); [|done].
    symmetry in Heq. apply app_eq_nil in Heq as [-> ->].
    exists [], [], []. cbn in *. repeat split; [lia..|done|lia].
  - assert (∀ skip', (i, j) ∈ scan r (Some c) rest (S pos) skip' →
              ∃ pre mid post, c :: rest = pre ++ mid ++ post ∧ i = pos + length pre ∧
                j = i + length mid ∧ Forall (λ c, P c = true) mid ∧
                min_len r ≤ length mid) as Hnext.
    { intros skip' (pre & mid & post & -> & -> & -> & HP & Hn)%IH.
      exists (c :: pre), mid, post. cbn. repeat split; [lia|done..]. }
    destruct skip as [|skip]; [|by apply Hnext].
    destruct (match_here r prev (c :: rest)) as [n|] eqn:Hm; [|by apply Hnext].
    intros [[= -> ->]|Hin]%elem_of_cons; [|by eapply Hnext].
    apply match_here_sound in Hm as (mid & rest' & Heq & -> & HP & Hn); [|done].
    exists [], mid, rest'. cbn. repeat split; [done|lia|done..].
Qed.

End Matcher.

Section Fuel.
Import Text Re.

Implicit Types (r : regex) (rest : str) (prev : option ascii) (k : cont).

Lemma rep_loop_local (body : matcher) (n : nat) :
  local body n →
  ∀ fuel lo hi prev rest k k',
    (∀ p (t' : str), length t' + lo * n ≤ length rest → k p t' = k' p t') →
    rep_loop body fuel lo hi prev rest k = rep_loop body fuel lo hi prev rest k'.
Proof.
  intros Hbody. induction fuel as [|fuel IH]; intros lo hi prev rest k k' Hk; [done|].
  cbn [rep_loop].
  assert ((if can_stop lo then k prev rest else None)
          = (if can_stop lo then k' prev rest else None)) as ->.
  { destruct lo; [|done]. cbn. apply Hk. cbn. lia. }
  destruct (exhausted hi); [done|].
  rewrite (Hbody prev rest _ (λ p' t', rep_loop body fuel (pred lo) (pred <$> hi) p' t' k'));
    [done|].
  intros p t' Ht'. apply IH. intros p2 t2 Ht2. apply Hk. destruct lo; cbn in *; lia.
Qed.

Lemma rmatch_local r : local (rmatch r) (min_len r).
Proof.
  induction r as [|p| |r1 IH1 r2 IH2|r1 IH1 r2 IH2|r IH lo hi];
    intros prev rest k k' Hk; cbn [rmatch min_len] in *.
  - apply Hk. lia.
  - destruct rest as [|c rest]; [done|]. destruct (p c); [|done].
    apply Hk. cbn. lia.
  - destruct (xorb _ _); [|done]. apply Hk. lia.
  - apply IH1. intros p t' Ht'. apply IH2. intros p2 t2 Ht2. apply Hk. lia.
  - rewrite (IH1 prev rest k k') by (intros; apply Hk; lia).
    rewrite (IH2 prev rest k k') by (intros; apply Hk; lia). done.
  - by apply (rep_loop_local _ (min_len r)).
Qed.

(** The repetition does not depend on its fuel once that exceeds the length
    of the text: a body that reads a character each round cannot use it up. *)
Lemma rep_loop_fuel (body : matcher) (n : nat) :
  1 ≤ n → local body n →
  ∀ fuel fuel' lo hi prev rest k,
    length rest < fuel → length rest < fuel' →
    rep_loop body fuel lo hi prev rest k = rep_loop body fuel' lo hi prev rest k.
Proof.
  intros Hn Hbody. induction fuel as [|fuel IH];
    intros [|fuel'] lo hi prev rest k Hf Hf'; [lia..|].
  cbn [rep_loop]. destruct (exhausted hi); [done|].
  rewrite (Hbody prev rest _ (λ p' t', rep_loop body fuel' (pred lo) (pred <$> hi) p' t' k));
    [done|].
  intros p t' Ht'. apply IH; lia.
Qed.

Lemma rmatch_rep_fuel r (lo : nat) (hi : option nat) (fuel : nat) prev rest k :
  1 ≤ min_len r → length rest < fuel →
  rep_loop (rmatch r) fuel lo hi prev rest k = rmatch (Rep r lo hi) prev rest k.
Proof.
  intros Hr Hf. cbn [rmatch].
  apply (rep_loop_fuel _ (min_len r)); [done|apply rmatch_local|done|lia].
Qed.

Lemma table_guarded : forallb (λ kv, guarded kv.2) Pii.PATTERNS = true.
Proof. vm_compute. reflexivity. Qed.

End Fuel.

Section Table.
Import Text Re Pii.

Lemma classes_ok_sound (P : ascii → bool) (r : regex) :
  classes_ok P r = true → classes P r.
Proof.
  induction r as [|p| |r1 IH1 r2 IH2|r1 IH1 r2 IH2|r IH lo hi]; cbn [classes_ok classes];
    try done.
  - intros Hall c Hp. rewrite forallb_forall in Hall.
    specialize (Hall (nat_of_ascii c)). rewrite ascii_nat_embedding, Hp in Hall.
    apply Hall, in_seq. pose proof (nat_ascii_bounded c). lia.
  - intros [H1 H2]%andb_true_iff. auto.
  - intros [H1 H2]%andb_true_iff. auto.
Qed.

Lemma table_sober : forallb (λ kv, sober kv.2) PATTERNS = true.
Proof. vm_compute. reflexivity. Qed.

Lemma plain_spec (c : ascii) : plain c = true → c ≠ "["%char ∧ c ≠ "]"%char.
Proof.
  unfold plain, is_char. intros [H1 H2]%andb_true_iff.
  split; intros ->; cbn in *; done.
Qed.

(** The invariant of [PIIMatch], for the matches of the pattern table: the
    offsets delimit the value in the text, the value is not empty and holds
    no bracket, and the replacement is the token of the type. *)
Lemma regex_matches_sound (t : str) (m : PIIMatch) :
  m ∈ regex_matches t →
  ∃ pre post,
    t = pre ++ value m ++ post ∧
    start m = length pre ∧ end_ m = start m + length (value m) ∧
    value m ≠ [] ∧ Forall (λ c, plain c = true) (value m) ∧
    masked_value m ∈ pattern_tokens.
Proof.
  unfold regex_matches. intros Hin. apply list_elem_of_In, in_flat_map in Hin.
  destruct Hin as ([ty r] & Hty & Hin). apply list_elem_of_In in Hty, Hin.
  apply list_elem_of_fmap in Hin as ([i j] & -> & Hij).
  pose proof table_sober as Hs. rewrite forallb_forall in Hs.
  specialize (Hs (ty, r)). rewrite <- list_elem_of_In in Hs. specialize (Hs Hty).
  apply andb_true_iff in Hs as [Hc Hn]. apply classes_ok_sound in Hc.
  apply Nat.leb_le in Hn.
  apply (scan_sound plain r t None 0 0 i j Hc) in Hij
    as (pre & mid & post & -> & -> & -> & HP & Hlen).
  cbn [type value start end_ masked_value].
  assert (slice (0 + length pre) (0 + length pre + length mid) (pre ++ mid ++ post) = mid)
    as ->.
  { unfold slice. cbn [Nat.add]. rewrite drop_app_length.
    replace (length pre + length mid - length pre) with (length mid) by lia.
    apply take_app_length. }
  exists pre, post. repeat split; [done..| |done|].
  - intros ->. cbn in Hlen, Hn. lia.
  - unfold pattern_tokens. apply list_elem_of_fmap. by exists (ty, r).
Qed.

Lemma regex_matches_value (t : str) (m : PIIMatch) :
  m ∈ regex_matches t → value m = slice (start m) (end_ m) t.
Proof.
  unfold regex_matches. intros Hin. apply list_elem_of_In, in_flat_map in Hin.
  destruct Hin as ([ty r] & _ & Hin). apply list_elem_of_In in Hin.
  by apply list_elem_of_fmap in Hin as ([i j] & -> & _).
Qed.

End Table.

(** ** The PII detector *)

Section Detector.
Import Text Pii.

Implicit Types (svc : PIIService) (t : str) (m : PIIMatch).

Lemma detect_pii_enabled svc t mask :
  enabled svc = true →
  detect_pii svc t mask =
    let found := regex_matches t ++ ner_matches svc t in
    {| original_text := t;
       masked_text := if mask && nonempty found then apply_masks found t else t;
       pii_detected := 0 <? length found;
       matches := found |}.
Proof. intros He. unfold detect_pii. now rewrite He. Qed.

Lemma detect_pii_no_match svc t mask :
  matches (detect_pii svc t mask) = [] → masked_text (detect_pii svc t mask) = t.
Proof.
  unfold detect_pii. destruct (enabled svc); cbn [negb matches masked_text]; [|done].
  intros ->. now rewrite andb_false_r.
Qed.

(** C10.  A service constructed with [enabled=False] has no recogniser and
    detects nothing: whatever the text and the mask flag, the result
    carries the input text as its masked text, a false flag and no match,
    also where the pattern table would have found something. *)
Theorem detect_pii_disabled (SPACY_AVAILABLE : bool) (load : str → option Language)
    (spacy_model : str) t (mask : bool) :
  let svc := init SPACY_AVAILABLE load spacy_model false in
  enabled svc = false ∧ nlp svc = None ∧
  detect_pii svc t mask =
    {| original_text := t; masked_text := t; pii_detected := false; matches := [] |}.
Proof.
  unfold init, detect_pii. cbn [enabled nlp negb]. rewrite andb_false_r. done.
Qed.

(** C9.  On the contact line an enabled service whose recogniser adds no
    span reports PII and returns the line with the address replaced by
    [EMAIL] and the number by [TELEFON]; the three other pieces of the
    line stand unchanged around them. *)
Theorem detect_contact_line svc :
  enabled svc = true → ner_matches svc contact = [] →
  let r := detect_pii svc contact true in
  pii_detected r = true ∧
  contact = txt "Kontakt: " ++ txt "max@firma.de" ++ txt ", Tel: " ++ txt "030 12345678" ∧
  masked_text r = txt "Kontakt: " ++ txt "[EMAIL]" ++ txt ", Tel: " ++ txt "[TELEFON]" ∧
  matches r =
    [ {| type := txt "email"; value := txt "max@firma.de"; start := 9; end_ := 21;
         masked_value := txt "[EMAIL]" |};
      {| type := txt "phone_de"; value := txt "030 12345678"; start := 28; end_ := 40;
         masked_value := txt "[TELEFON]" |} ].
Proof.
  intros He Hner r. subst r. rewrite (detect_pii_enabled _ _ _ He), Hner, app_nil_r.
  vm_compute. repeat split.
Qed.

Lemma detect_contact_line_witness :
  enabled regex_only = true ∧ ner_matches regex_only contact = [] ∧
  let r := detect_pii regex_only contact true in
  pii_detected r = true ∧
  contact = txt "Kontakt: " ++ txt "max@firma.de" ++ txt ", Tel: " ++ txt "030 12345678" ∧
  masked_text r = txt "Kontakt: " ++ txt "[EMAIL]" ++ txt ", Tel: " ++ txt "[TELEFON]" ∧
  matches r =
    [ {| type := txt "email"; value := txt "max@firma.de"; start := 9; end_ := 21;
         masked_value := txt "[EMAIL]" |};
      {| type := txt "phone_de"; value := txt "030 12345678"; start := 28; end_ := 40;
         masked_value := txt "[TELEFON]" |} ].
Proof.
  split; [reflexivity|]. split; [reflexivity|].
  apply (detect_contact_line regex_only); reflexivity.
Defined.

(** C3, refuted as stated: the card number is masked to [KREDITKARTE],
    whose eleven letters the case-insensitive BIC pattern matches, so a
    second pass yields [[BIC]]. *)
Lemma remask_changes_card_token :
  let once := masked_text (detect_pii regex_only card true) in
  once = txt "[KREDITKARTE]" ∧
  masked_text (detect_pii regex_only once true) = txt "[[BIC]]" ∧
  masked_text (detect_pii regex_only once true) ≠ once.
Proof. vm_compute. split; [reflexivity|split; [reflexivity|discriminate]]. Qed.

(** C4, refuted as stated: the masked card number holds a match of the
    pattern table, of type [bic]. *)
Lemma rescan_matches_card_token :
  regex_matches (masked_text (detect_pii regex_only card true)) =
    [ {| type := txt "bic"; value := txt "KREDITKARTE"; start := 1; end_ := 12;
         masked_value := txt "[BIC]" |} ].
Proof. vm_compute. reflexivity. Qed.

End Detector.

(** ** Overlap resolution *)

Section Masking.
Import Text Pii.

Implicit Types (t w : str) (m : PIIMatch) (ms walked : list PIIMatch) (n i j : nat).

Lemma insert_desc_perm m ms : insert_desc m ms ≡ₚ m :: ms.
Proof.
  induction ms as [|x ms IH]; cbn; [done|].
  case_match; [|done]. rewrite IH. apply Permutation_swap.
Qed.

Lemma sorted_desc_perm ms : sorted_desc ms ≡ₚ ms.
Proof.
  induction ms as [|m ms IH]; cbn; [done|].
  rewrite insert_desc_perm. now f_equiv.
Qed.

Lemma insert_desc_sorted m ms :
  StronglySorted later ms → StronglySorted later (insert_desc m ms).
Proof.
  induction 1 as [|x ms Hs IH Hx]; cbn [insert_desc].
  - repeat constructor.
  - destruct (Nat.ltb_spec (start m) (start x)).
    + constructor; [done|].
      rewrite Forall_forall. intros y Hy.
      apply (elem_of_Permutation_proper _ _ _ (insert_desc_perm m ms)) in Hy.
      apply elem_of_cons in Hy as [->|Hy]; [unfold later; lia|].
      rewrite Forall_forall in Hx. auto.
    + constructor; [now constructor|].
      constructor; [done|].
      eapply Forall_impl; [exact Hx|]. unfold later. intros; simpl in *; lia.
Qed.

Lemma sorted_desc_sorted ms : StronglySorted later (sorted_desc ms).
Proof.
  induction ms as [|m ms IH]; cbn; [constructor|]. now apply insert_desc_sorted.
Qed.

(** Candidates with the same start keep the order they were found in. *)
Lemma insert_desc_filter s m ms :
  StronglySorted later ms →
  filter (λ x, start x = s) (insert_desc m ms)
  = filter (λ x, start x = s) (m :: ms).
Proof.
  induction 1 as [|x ms Hs IH Hx]; cbn [insert_desc]; [done|].
  destruct (Nat.ltb_spec (start m) (start x)); [|done].
  rewrite (filter_cons _ x), IH, !filter_cons.
  repeat case_decide; try done; lia.
Qed.

Lemma sorted_desc_stable s ms :
  filter (λ x, start x = s) (sorted_desc ms) = filter (λ x, start x = s) ms.
Proof.
  induction ms as [|m ms IH]; cbn [sorted_desc foldr]; [done|].
  rewrite insert_desc_filter by apply sorted_desc_sorted.
  rewrite !filter_cons. fold (sorted_desc ms). now rewrite IH.
Qed.

(** The loop splices the first candidate of every span not seen yet. *)
Lemma mask_loop_from ms w (seen : gset (nat * nat)) :
  foldl mask_step (w, seen) ms
  = (foldl put w (filter (λ x, span x ∉ seen) (firsts ms)),
     seen ∪ list_to_set (span <$> ms)).
Proof.
  revert w seen. induction ms as [|m ms IH]; intros w seen; cbn [foldl firsts].
  - rewrite filter_nil. cbn. f_equal. by rewrite (right_id_L ∅ (∪)).
  - unfold mask_step at 2. cbn [fst snd]. fold (span m).
    rewrite filter_cons. destruct (decide (span m ∈ seen)) as [Hin|Hout].
    + rewrite decide_False by tauto. rewrite IH. f_equal.
      * f_equal. rewrite list_filter_filter. apply list_filter_iff.
        intros x. split; [|tauto]. intros Hx. split; [done|].
        intros Heq. apply Hx. now rewrite Heq.
      * rewrite fmap_cons, list_to_set_cons. apply set_eq. intros y.
        rewrite !elem_of_union, elem_of_singleton. split; [tauto|].
        intros [?|[->|?]]; tauto.
    + rewrite decide_True by done. cbn [foldl]. fold (put w m).
      rewrite IH. f_equal.
      * f_equal. rewrite list_filter_filter. apply list_filter_iff.
        intros x. rewrite not_elem_of_union, not_elem_of_singleton. tauto.
      * rewrite fmap_cons, list_to_set_cons.
        rewrite (assoc_L (∪)). f_equal. apply (comm_L (∪)).
Qed.

Lemma filter_all {A} (P : A → Prop) `{!∀ x, Decision (P x)} (l : list A) :
  Forall P l → filter P l = l.
Proof.
  induction 1 as [|x l Hx _ IH]; [done|]. now rewrite filter_cons_True, IH.
Qed.

Lemma mask_loop_firsts ms t :
  mask_loop ms t = (foldl put t (firsts ms), list_to_set (span <$> ms)).
Proof.
  unfold mask_loop. rewrite mask_loop_from. f_equal.
  - f_equal. apply filter_all, Forall_forall. intros x _. apply not_elem_of_empty.
  - apply (left_id_L ∅ (∪)).
Qed.

Lemma firsts_elem m ms : m ∈ firsts ms → m ∈ ms.
Proof.
  revert m. induction ms as [|a ms IH]; intros m; cbn [firsts]; [done|].
  rewrite !elem_of_cons, list_elem_of_filter. intros [->|[_ Hm]]; [by left|right; auto].
Qed.

Lemma firsts_cover m ms : m ∈ ms → span m ∈ span <$> firsts ms.
Proof.
  induction ms as [|a ms IH]; cbn [firsts]; [by intros ?%elem_of_nil|].
  rewrite elem_of_cons, fmap_cons, elem_of_cons.
  intros [->|Hm]; [by left|].
  destruct (decide (span m = span a)) as [|Hne]; [by left|right].
  apply list_elem_of_fmap in IH as (y & Hy & Hin); [|done].
  apply list_elem_of_fmap. exists y. split; [done|].
  apply list_elem_of_filter. split; [congruence|done].
Qed.

Lemma NoDup_span_filter (P : PIIMatch → Prop) `{!∀ x, Decision (P x)} ms :
  NoDup (span <$> ms) → NoDup (span <$> filter P ms).
Proof.
  induction ms as [|a ms IH]; [done|].
  rewrite fmap_cons, NoDup_cons, filter_cons. intros [Ha Hnd].
  case_decide; [|auto].
  rewrite fmap_cons, NoDup_cons. split; [|auto].
  intros (y & Hy & Hin%list_elem_of_filter)%list_elem_of_fmap.
  apply Ha, list_elem_of_fmap. exists y. tauto.
Qed.

Lemma firsts_NoDup ms : NoDup (span <$> firsts ms).
Proof.
  induction ms as [|a ms IH]; cbn [firsts]; [constructor|].
  rewrite fmap_cons, NoDup_cons. split; [|by apply NoDup_span_filter].
  intros (y & Hy & Hin%list_elem_of_filter)%list_elem_of_fmap.
  destruct Hin as [Hne _]. congruence.
Qed.

(** A replacement at or after offset [n] leaves the first [n] characters
    alone. *)
Lemma splice_take n w i j (u : str) :
  n ≤ i → n ≤ length w →
  take n (splice w i j u) = take n w ∧ n ≤ length (splice w i j u).
Proof.
  intros Hi Hw. unfold splice. split.
  - rewrite take_app_le by (rewrite length_take; lia).
    rewrite take_take. f_equal. lia.
  - rewrite length_app, length_take. lia.
Qed.

Lemma walk_take n (walked : list PIIMatch) w (seen : gset (nat * nat)) :
  (∀ x, x ∈ walked → n ≤ start x) → n ≤ length w →
  take n (foldl mask_step (w, seen) walked).1 = take n w.
Proof.
  revert w seen. induction walked as [|x walked IH]; intros w seen Hall Hw; [done|].
  cbn [foldl]. unfold mask_step at 2. cbn [fst snd].
  destruct (decide _).
  - apply IH; [|done]. intros y Hy. apply Hall. now right.
  - destruct (splice_take n w (start x) (end_ x) (masked_value x)) as [Heq Hlen];
      [apply Hall; by left|done|].
    rewrite IH; [done| |done]. intros y Hy. apply Hall. now right.
Qed.

(** C7, amended.  The candidates are walked in descending order of start
    offset, candidates with equal starts in the order they were found.
    The masked text is the text with one replacement per distinct span,
    made for the first candidate of that span in the walk: no span is
    replaced twice and no span of a candidate is left out, so both of two
    candidates with different spans are replaced, overlapping or not.
    When a candidate's turn comes the text before its start offset still
    is the original text; the text before its end offset is the original
    text too if every candidate walked before it starts at or after that
    end offset.  The offsets of a match of the pattern table delimit its
    value in the original text. *)
Theorem overlap_resolution ms t :
  let sorted_matches := sorted_desc ms in
  let applied := firsts sorted_matches in
  (sorted_matches ≡ₚ ms ∧ StronglySorted later sorted_matches ∧
   ∀ n, filter (λ x, start x = n) sorted_matches = filter (λ x, start x = n) ms) ∧
  (apply_masks ms t = foldl put t applied ∧
   NoDup (span <$> applied) ∧
   (∀ m, m ∈ applied → m ∈ ms) ∧
   (∀ m, m ∈ ms → span m ∈ span <$> applied)) ∧
  (∀ walked m rest, sorted_matches = walked ++ m :: rest →
     let w := (mask_loop walked t).1 in
     (start m ≤ length t → take (start m) w = take (start m) t) ∧
     (end_ m ≤ length t → (∀ x, x ∈ walked → end_ m ≤ start x) →
      take (end_ m) w = take (end_ m) t)) ∧
  (∀ m, m ∈ regex_matches t →
     start m < end_ m ≤ length t ∧ value m = slice (start m) (end_ m) t).
Proof.
  intros sorted_matches applied. subst applied sorted_matches.
  split; [|split; [|split]].
  - split; [apply sorted_desc_perm|]. split; [apply sorted_desc_sorted|].
    intros n. apply sorted_desc_stable.
  - split; [|split; [|split]].
    + unfold apply_masks. now rewrite mask_loop_firsts.
    + apply firsts_NoDup.
    + intros m Hm%firsts_elem. now rewrite sorted_desc_perm in Hm.
    + intros m Hm. apply firsts_cover. now rewrite sorted_desc_perm.
  - intros walked m rest Heq w. subst w. unfold mask_loop. split.
    + intros Hlen. apply walk_take; [|done].
      intros x Hx. pose proof (sorted_desc_sorted ms) as Hs.
      rewrite Heq in Hs.
      apply (StronglySorted_app_1_elem_of _ _ _ x m Hs Hx). by left.
    + intros Hlen Hall. now apply walk_take.
  - intros m Hm. split; [|by apply regex_matches_value].
    apply regex_matches_sound in Hm as (pre & post & Ht & Hs & He & Hne & _).
    rewrite Ht, !length_app. destruct (value m); [done|]. cbn [length] in *. lia.
Qed.

Lemma overlap_resolution_witness :
  apply_masks [cand_a; cand_b] (txt "xyz") = txt "[A]y[B]" ∧
  take 0 (mask_loop [cand_b] (txt "xyz")).1 = take 0 (txt "xyz") ∧
  take 1 (mask_loop [cand_b] (txt "xyz")).1 = take 1 (txt "xyz").
Proof.
  destruct (overlap_resolution [cand_a; cand_b] (txt "xyz"))
    as (_ & (Happly & _) & Hwalk & _).
  split; [rewrite Happly; reflexivity|].
  destruct (Hwalk [cand_b] cand_a [] eq_refl) as [H1 H2].
  split.
  - apply H1. cbn. lia.
  - apply H2; [cbn; lia|]. intros x Hx.
    apply list_elem_of_singleton in Hx as ->. cbn. lia.
Defined.

(** C7, refuted as stated: an address spans the whole of [nested] and
    holds an IP address.  The IP address is replaced first, by a token five
    characters longer; when the turn of the address comes its offsets no
    longer delimit the text that was matched, and the replacement leaves a
    remnant behind. *)
Lemma nested_candidate_is_shifted :
  ∃ walked m rest,
    sorted_desc (matches (detect_pii regex_only nested true)) = walked ++ m :: rest ∧
    end_ m ≤ length nested ∧
    value m = txt "a@1.2.3.4.de" ∧
    slice (start m) (end_ m) (mask_loop walked nested).1 = txt "a@[IP-ADRESS" ∧
    slice (start m) (end_ m) (mask_loop walked nested).1 ≠ value m ∧
    masked_text (detect_pii regex_only nested true) = txt "[EMAIL]E].de".
Proof.
  exists [ {| type := txt "ip_address"; value := txt "1.2.3.4"; start := 2; end_ := 9;
              masked_value := txt "[IP-ADRESSE]" |} ],
         {| type := txt "email"; value := nested; start := 0; end_ := 12;
            masked_value := txt "[EMAIL]" |}, [].
  vm_compute. repeat split; first [lia|discriminate].
Qed.

End Masking.

(** ** Masking twice *)

Section Fixed.
Import Text Pii.

Implicit Types (t w : str) (m : PIIMatch) (ms walked : list PIIMatch) (n i j : nat).

Lemma StronglySorted_sublist {A} (R : relation A) (l k : list A) :
  StronglySorted R k → l `sublist_of` k → StronglySorted R l.
Proof.
  intros Hk Hsub. induction Hsub as [|x l k Hsub IH|x l k Hsub IH].
  - constructor.
  - apply StronglySorted_cons in Hk as [Hx Hk]. constructor; [auto|].
    rewrite Forall_forall in Hx. apply Forall_forall. intros y Hy.
    apply Hx. by eapply elem_of_sublist.
  - apply StronglySorted_cons in Hk as [_ Hk]. auto.
Qed.

Lemma firsts_sublist ms : firsts ms `sublist_of` ms.
Proof.
  induction ms as [|m ms IH]; cbn [firsts]; [done|].
  apply sublist_skip. etrans; [apply sublist_filter|done].
Qed.

Lemma put_take n walked w :
  (∀ x, x ∈ walked → n ≤ start x) → n ≤ length w →
  take n (foldl put w walked) = take n w ∧ n ≤ length (foldl put w walked).
Proof.
  revert w. induction walked as [|x walked IH]; intros w Hall Hw; [done|].
  cbn [foldl]. unfold put at 2 4.
  destruct (splice_take n w (start x) (end_ x) (masked_value x)) as [Heq Hlen];
    [apply Hall; by left|done|].
  destruct (IH (splice w (start x) (end_ x) (masked_value x))) as [H1 H2];
    [intros y Hy; apply Hall; by right|done|].
  split; [by rewrite H1|done].
Qed.

Lemma tokens_open : Forall (λ token, ∃ l, token = "["%char :: l) pattern_tokens.
Proof. vm_compute. repeat constructor; by eexists. Qed.

(** Replacing matches of the pattern table changes the text: the leftmost
    replacement puts a bracket where a matched character stood. *)
Lemma apply_masks_changes ms t :
  ms ≠ [] → (∀ m, m ∈ ms → m ∈ regex_matches t) → apply_masks ms t ≠ t.
Proof.
  intros Hne Hall. unfold apply_masks. rewrite mask_loop_firsts. cbn [fst].
  assert (firsts (sorted_desc ms) ≠ []) as Hfirsts.
  { destruct (sorted_desc ms) eqn:Hs; [|done].
    apply (f_equal length) in Hs. rewrite (Permutation_length (sorted_desc_perm ms)) in Hs.
    by destruct ms. }
  apply last_is_Some in Hfirsts as [m Hlast].
  apply last_Some in Hlast as [walked Happ]. rewrite Happ, foldl_snoc.
  assert (m ∈ regex_matches t) as Hm.
  { apply Hall. rewrite <- (sorted_desc_perm ms). apply firsts_elem.
    rewrite Happ. apply elem_of_app. right. by left. }
  apply regex_matches_sound in Hm
    as (pre & post & Ht & Hstart & Hend & Hval & Hplain & Htok).
  pose proof tokens_open as Hopen. rewrite Forall_forall in Hopen.
  destruct (Hopen _ Htok) as [tok Htok'].
  destruct (value m) as [|c v] eqn:Hv; [done|].
  apply Forall_cons in Hplain as [Hc%plain_spec _].
  assert (StronglySorted later (walked ++ [m])) as Hsorted.
  { rewrite <- Happ. eapply StronglySorted_sublist;
      [apply sorted_desc_sorted|apply firsts_sublist]. }
  destruct (put_take (start m) walked t) as [Htake Hlen].
  { intros x Hx. apply (StronglySorted_app_1_elem_of _ _ _ x m Hsorted Hx). by left. }
  { rewrite Ht, length_app. lia. }
  intros Heq. apply (f_equal (λ l, l !! start m)) in Heq.
  unfold put, splice in Heq. rewrite Htok' in Heq.
  rewrite lookup_app_r in Heq by (rewrite length_take; lia).
  rewrite length_take, Nat.min_l, Nat.sub_diag in Heq by done. cbn in Heq.
  rewrite Ht, Hstart in Heq at 1.
  rewrite lookup_app_r, Nat.sub_diag in Heq by done. cbn in Heq.
  destruct Hc as [Hc _]. congruence.
Qed.

End Fixed.

(** ** The chunker *)

Section Chunks.
Import Chunker.
Local Open Scope Z_scope.

Variables chunk_size chunk_overlap : Z.

Implicit Types (c : str) (ws ss : list str) (st : state).

Lemma adjacent_snoc {A} (R : A → A → Prop) (l : list A) (y : A) :
  adjacent R l → (∀ x, last l = Some x → R x y) → adjacent R (l ++ [y]).
Proof.
  intros Hl Hy i a b Ha Hb.
  destruct (decide (S i < length l)%nat) as [Hlt|Hge].
  - rewrite lookup_app_l in Ha by lia. rewrite lookup_app_l in Hb by lia. eauto.
  - assert (S i = length l) as Hi.
    { apply lookup_lt_Some in Hb. rewrite length_app in Hb. cbn in Hb. lia. }
    rewrite lookup_app_l in Ha by lia.
    rewrite lookup_app_r, Hi, Nat.sub_diag in Hb by lia. injection Hb as <-.
    apply Hy. rewrite last_lookup. rewrite <- Ha. f_equal. lia.
Qed.

Lemma join_prefix (sep : str) ws ss : join sep ws `prefix_of` join sep (ws ++ ss).
Proof.
  induction ws as [|w [|w' ws] IH]; [apply prefix_nil| |].
  - destruct ss; cbn [app join]; [done|]. by apply prefix_app_r.
  - cbn [app join] in *. by do 2 apply prefix_app.
Qed.

Lemma len_join_cons (w : str) ws :
  len (join space (w :: ws))
  = if Pii.nonempty ws then len w + 1 + len (join space ws) else len w.
Proof.
  destruct ws as [|x ws]; [done|]. cbn [join Pii.nonempty].
  unfold len. rewrite !length_app. cbn [length space txt list_ascii_of_string]. lia.
Qed.

(** The walk keeps a suffix of the words it has passed, in their order;
    the characters of that suffix, joined, stay under the bound; and it
    stops at the first word that would reach the bound. *)
Lemma overlap_go_spec rwords ws n :
  (ws = [] ∧ n = 0 ∨ ws ≠ [] ∧ n = len (join space ws) + 1 ∧ n - 1 < chunk_overlap) →
  let r := overlap_go chunk_overlap rwords ws n in
  (∃ k, r.1 = rev (take k rwords) ++ ws ∧
        ((length rwords ≤ k)%nat ∨
         ∃ w, rwords !! k = Some w ∧ chunk_overlap ≤ len (join space (w :: r.1)))) ∧
  (r.1 = [] ∧ r.2 = 0 ∨
   r.1 ≠ [] ∧ r.2 = len (join space r.1) + 1 ∧ len (join space r.1) < chunk_overlap).
Proof.
  revert ws n. induction rwords as [|word rwords IH]; intros ws n Hinv;
    cbn [overlap_go]; cbn zeta.
  - cbn [fst snd]. split; [exists 0%nat; split; [done|by left]|].
    destruct Hinv as [|(?&?&?)]; [by left|right].
    repeat split; [done..|lia].
  - destruct (Z.ltb_spec (n + len word) chunk_overlap) as [Hlt|Hge].
    + destruct (IH (word :: ws) (n + len word + 1)) as [(k & Hk & Hstop) Hlen].
      { right. split; [done|]. rewrite len_join_cons.
        destruct Hinv as [[-> ->]|(Hne & -> & _)]; cbn [Pii.nonempty]; [lia|].
        destruct ws; [done|]. cbn [Pii.nonempty]. lia. }
      split; [|done]. exists (S k). split.
      * rewrite Hk. cbn [take rev]. now rewrite <- app_assoc.
      * destruct Hstop as [Hall|Hw]; [left; cbn [length]; lia|by right].
    + cbn [fst snd]. split.
      * exists 0%nat. split; [done|right]. exists word. split; [done|].
        rewrite len_join_cons.
        destruct Hinv as [[-> ->]|(Hne & -> & _)]; cbn [Pii.nonempty]; [lia|].
        destruct ws; [done|]. cbn [Pii.nonempty]. lia.
      * destruct Hinv as [|(?&?&?)]; [by left|right].
        repeat split; [done..|lia].
Qed.

Lemma seed_suffix c : carried chunk_overlap c `suffix_of` split c.
Proof.
  unfold carried, carry. destruct (len c >? chunk_overlap); [|apply suffix_nil].
  destruct (overlap_go_spec (rev (split c)) [] 0) as [(k & Hk & _) _]; [by left|].
  rewrite Hk, app_nil_r.
  exists (rev (drop k (rev (split c)))).
  rewrite <- rev_app_distr, take_drop. now rewrite rev_involutive.
Qed.

Lemma seed_bound c :
  carried chunk_overlap c = [] ∨
  len (join space (carried chunk_overlap c)) < chunk_overlap.
Proof.
  unfold carried, carry. destruct (len c >? chunk_overlap); [|by left].
  destruct (overlap_go_spec (rev (split c)) [] 0) as [_ [[? _]|(_ & _ & ?)]];
    [by left|by left|by right].
Qed.

Lemma seed_short c : len c ≤ chunk_overlap → carried chunk_overlap c = [].
Proof.
  intros Hle. unfold carried, carry.
  destruct (Z.gtb_spec (len c) chunk_overlap); [lia|done].
Qed.

(** The carried words are all the words of the chunk, or the word before
    them would have reached the overlap size. *)
Lemma seed_maximal c :
  chunk_overlap < len c →
  carried chunk_overlap c = split c ∨
  ∃ ws w, split c = ws ++ w :: carried chunk_overlap c ∧
          chunk_overlap ≤ len (join space (w :: carried chunk_overlap c)).
Proof.
  intros Hlong. unfold carried, carry.
  destruct (Z.gtb_spec (len c) chunk_overlap); [|lia].
  destruct (overlap_go_spec (rev (split c)) [] 0) as [(k & Hk & Hstop) _]; [by left|].
  rewrite app_nil_r in Hk. destruct Hstop as [Hall|(w & Hw & Hlen)].
  - left. rewrite Hk, take_ge by done. apply rev_involutive.
  - right. exists (rev (drop (S k) (rev (split c)))), w. split; [|done].
    rewrite Hk. rewrite <- (rev_involutive (split c)) at 1.
    rewrite <- (take_drop k (rev (split c))) at 1.
    rewrite (drop_S _ w k) by done. rewrite rev_app_distr. cbn [rev].
    now rewrite <- app_assoc.
Qed.

Lemma inv_step st sentence :
  chunking chunk_overlap st → chunking chunk_overlap (step chunk_size chunk_overlap st sentence).
Proof.
  intros [Hadj Hcur]. unfold step.
  destruct (Pii.nonempty (strip sentence)); cbn [negb]; [|done].
  destruct (_ && _); unfold chunking, close; cbn [chunks current_chunk].
  - split.
    + apply adjacent_snoc; [done|]. intros c [ss [Hss Hc]]%Hcur.
      exists ss. now rewrite Hc.
    + intros c. rewrite last_snoc. intros [= <-].
      exists [strip sentence]. split; done.
  - split; [done|]. intros c [ss [Hss Hc]]%Hcur.
    exists (ss ++ [strip sentence]). split; [by destruct ss|].
    now rewrite Hc, app_assoc.
Qed.

Lemma inv_run ss : chunking chunk_overlap (run chunk_size chunk_overlap ss).
Proof.
  unfold run.
  assert (chunking chunk_overlap
            {| chunks := []; current_chunk := []; current_length := 0 |}) as H0.
  { split; [intros i x y Hx; cbn in Hx; by rewrite lookup_nil in Hx|].
    by intros c [=]. }
  revert H0. generalize {| chunks := []; current_chunk := []; current_length := 0 |}.
  induction ss as [|x ss IH]; intros st Hst; [done|].
  cbn [foldl]. apply IH. now apply inv_step.
Qed.

Lemma chunks_follow t : adjacent (follows chunk_overlap) (_chunk_text chunk_size chunk_overlap t).
Proof.
  unfold _chunk_text, flush.
  destruct (inv_run (sentences t)) as [Hadj Hcur].
  destruct (Pii.nonempty _); [|done].
  apply adjacent_snoc; [done|]. intros c [ss [Hss Hc]]%Hcur.
  exists ss. now rewrite Hc.
Qed.

(** C8.  Of two consecutive chunks the second is the words carried over
    from the first, followed by at least one new sentence, so it begins
    with the carried words.  The carried
    words are a suffix of the words of the first chunk, collected from
    its end for as long as their joined length stays under the overlap
    size: they hold fewer characters than the overlap size, and the walk
    stops only at a word that would reach it.  Nothing is carried over
    from a chunk that is no longer than the overlap size. *)
Theorem overlap_between_chunks t (i : nat) c c' :
  let cs := _chunk_text chunk_size chunk_overlap t in
  cs !! i = Some c → cs !! S i = Some c' →
  let seed := carried chunk_overlap c in
  (∃ ss, ss ≠ [] ∧ c' = join space (seed ++ ss)) ∧
  join space seed `prefix_of` c' ∧
  seed `suffix_of` split c ∧
  (seed = [] ∨ len (join space seed) < chunk_overlap) ∧
  len (join space seed) ≤ Z.max 0 chunk_overlap ∧
  (0 ≤ chunk_overlap → len (join space seed) ≤ chunk_overlap) ∧
  (chunk_overlap < len c →
   seed = split c ∨
   ∃ ws w, split c = ws ++ w :: seed ∧
           chunk_overlap ≤ len (join space (w :: seed))) ∧
  (len c ≤ chunk_overlap → seed = [] ∧ ∃ ss, ss ≠ [] ∧ c' = join space ss).
Proof.
  intros cs Hc Hc' seed. subst seed.
  pose proof (chunks_follow t i c c' Hc Hc') as Hfol.
  split; [exact Hfol|].
  split; [destruct Hfol as (ss & _ & ->); apply join_prefix|].
  split; [apply seed_suffix|].
  split; [apply seed_bound|].
  assert (len (join space (carried chunk_overlap c)) ≤ Z.max 0 chunk_overlap) as Hmax.
  { destruct (seed_bound c) as [->|]; [|lia].
    change (len (join space [])) with 0. lia. }
  split; [done|]. split; [lia|].
  split; [apply seed_maximal|].
  intros Hshort. split; [now apply seed_short|].
  destruct Hfol as (ss & Hss & ->). exists ss. split; [done|].
  now rewrite seed_short.
Qed.

End Chunks.

Lemma overlap_between_chunks_witness :
  Chunker._chunk_text 40 12 two_sentences
  = [txt "Das ist ein Satz. Und noch einer!"; txt "noch einer! Wer ist da?"] ∧
  carried 12 (txt "Das ist ein Satz. Und noch einer!") = [txt "noch"; txt "einer!"] ∧
  (Chunker.len (Chunker.join space
                  (carried 12 (txt "Das ist ein Satz. Und noch einer!"))) ≤ 12)%Z.
Proof.
  assert (Chunker._chunk_text 40 12 two_sentences
          = [txt "Das ist ein Satz. Und noch einer!"; txt "noch einer! Wer ist da?"]) as Hcs
    by (vm_compute; reflexivity).
  split; [exact Hcs|]. split; [vm_compute; reflexivity|].
  assert (Chunker._chunk_text 40 12 two_sentences !! 0%nat
          = Some (txt "Das ist ein Satz. Und noch einer!")) as H0 by (now rewrite Hcs).
  assert (Chunker._chunk_text 40 12 two_sentences !! 1%nat
          = Some (txt "noch einer! Wer ist da?")) as H1 by (now rewrite Hcs).
  destruct (overlap_between_chunks 40 12 two_sentences 0 _ _ H0 H1)
    as (_ & _ & _ & _ & _ & H & _).
  apply H. lia.
Defined.

(** ** The embedding calls *)

Section Embedding.
Import Sys Llm.

Implicit Types (w : World) (env : Env) (l : list str).

Lemma for_each_cons {A B} (f : A → M B) (x : A) (xs : list A) w :
  for_each f (x :: xs) w =
    match f x w with
    | (Return y, w1) =>
        match for_each f xs w1 with
        | (Return ys, w2) => (Return (y :: ys), w2)
        | (Raise e, w2) => (Raise e, w2)
        end
    | (Raise e, w1) => (Raise e, w1)
    end.
Proof. reflexivity. Qed.

Lemma only_embeds_trans w1 w2 w3 :
  only_embeds w1 w2 → only_embeds w2 w3 → only_embeds w1 w3.
Proof. unfold only_embeds. intros (?&?&?&?) (?&?&?&?). repeat split; congruence. Qed.

Lemma for_each_sent {A B} (f : A → M B) (g : A → list str) (R : B → A → Prop)
    (xs : list A) w :
  (∀ a w0, ∃ k, sent w0 (f a w0).2 k ∧ only_embeds w0 (f a w0).2 ∧ k `prefix_of` g a ∧
                (returned (f a w0) → k = g a) ∧
                (∀ y, (f a w0).1 = Return y → R y a)) →
  ∃ k, sent w (for_each f xs w).2 k ∧ only_embeds w (for_each f xs w).2 ∧
       k `prefix_of` concat (g <$> xs) ∧
       (returned (for_each f xs w) → k = concat (g <$> xs)) ∧
       (∀ ys, (for_each f xs w).1 = Return ys → Forall2 R ys xs).
Proof.
  intros Hf. revert w. induction xs as [|x xs IH]; intros w.
  - exists []. cbn. unfold sent, only_embeds. rewrite app_nil_r.
    repeat split; try done. intros ys [= <-]. constructor.
  - rewrite for_each_cons, fmap_cons. cbn [concat].
    destruct (Hf x w) as (k1 & Hs1 & Ho1 & Hp1 & Hr1 & HR1).
    destruct (f x w) as [[y|e] w1]; cbn [fst snd] in *.
    + specialize (Hr1 I). subst k1.
      destruct (IH w1) as (k2 & Hs2 & Ho2 & Hp2 & Hr2 & Hl2).
      exists (g x ++ k2).
      destruct (for_each f xs w1) as [[ys|e] w2]; unfold sent, returned in *;
        cbn [fst snd] in *.
      * split; [rewrite Hs2, Hs1; by rewrite app_assoc|].
        split; [by eapply only_embeds_trans|].
        split; [by apply prefix_app|].
        split; [intros _; f_equal; by apply Hr2|].
        intros zs [= <-]. constructor; auto.
      * split; [rewrite Hs2, Hs1; by rewrite app_assoc|].
        split; [by eapply only_embeds_trans|].
        split; [by apply prefix_app|]. split; [done|]. intros zs [=].
    + exists k1. unfold returned. cbn [fst snd].
      split; [done|]. split; [done|]. split; [by apply prefix_app_r|].
      split; [done|]. intros zs [=].
Qed.

Lemma generate_embedding_sent env (t : str) w :
  ∃ k, sent w (generate_embedding env t w).2 k ∧
       only_embeds w (generate_embedding env t w).2 ∧ k `prefix_of` [t] ∧
       (returned (generate_embedding env t w) → k = [t]) ∧
       (∀ y, (generate_embedding env t w).1 = Return y → True).
Proof.
  exists [t]. unfold generate_embedding, sent, only_embeds.
  destruct (client_embeddings _ _ _); cbn; done.
Qed.

Lemma concat_singletons {A} (l : list A) : concat ((λ x, [x]) <$> l) = l.
Proof.
  induction l as [|x l IH]; [done|]. rewrite fmap_cons. cbn [concat app].
  by rewrite IH.
Qed.

(** The batches of [range(0, len(texts), batch_size)] cover the texts. *)
Lemma batches_cover {A} (l : list A) (b k : nat) :
  concat ((λ i, Text.slice i (i + b) l) <$> ((λ j, j * b) <$> seq 0 k)) = take (k * b) l.
Proof.
  induction k as [|k IH]; [done|].
  rewrite seq_S, !fmap_app, concat_app, IH. cbn [fmap list_fmap concat].
  rewrite app_nil_r. unfold Text.slice.
  replace (k * b + b - k * b) with b by lia.
  rewrite take_take_drop. f_equal. lia.
Qed.

Lemma range_step_cover {A} (l : list A) (b : nat) :
  0 < b →
  concat ((λ i, Text.slice i (i + b) l) <$> range_step (length l) b) = l.
Proof.
  intros Hb. unfold range_step.
  change (map (λ k, k * b)) with (fmap (M:=list) (λ k, k * b)).
  rewrite batches_cover. apply take_ge.
  pose proof (Nat.div_mod_eq (length l + b - 1) b) as Hdm.
  pose proof (Nat.mod_upper_bound (length l + b - 1) b ltac:(lia)). nia.
Qed.

Lemma length_concat_Forall2 {A B C} (f : C → list B) (xss : list (list A))
    (cs : list C) :
  Forall2 (λ xs c, length xs = length (f c)) xss cs →
  length (concat xss) = length (concat (f <$> cs)).
Proof.
  induction 1 as [|xs c xss cs Hl _ IH]; [done|].
  rewrite fmap_cons. cbn [concat]. rewrite !length_app. lia.
Qed.

(** The embedding calls of one batch run: a prefix of the texts, in their
    order; all of them, and one vector for each, when the run returns. *)
Lemma generate_embeddings_batch_sent env l (b : nat) w :
  ∃ k, sent w (generate_embeddings_batch env l b w).2 k ∧
       only_embeds w (generate_embeddings_batch env l b w).2 ∧
       k `prefix_of` l ∧
       (returned (generate_embeddings_batch env l b w) → k = l) ∧
       (∀ es, (generate_embeddings_batch env l b w).1 = Return es →
              length es = length l).
Proof.
  unfold generate_embeddings_batch. destruct b as [|b].
  { exists []. unfold raise, sent, only_embeds, returned. cbn.
    rewrite app_nil_r. repeat split; try done. apply prefix_nil. }
  set (batch := λ i, Text.slice i (i + S b) l).
  destruct (for_each_sent
              (λ i, for_each (generate_embedding env) (batch i)) batch
              (λ es i, length es = length (batch i))
              (range_step (length l) (S b)) w) as (k & Hs & Ho & Hp & Hr & Hl).
  { intros i w0.
    destruct (for_each_sent (generate_embedding env) (λ t, [t]) (λ _ _, True)
                (batch i) w0) as (k & Hs & Ho & Hp & Hr & Hl).
    - intros t w1. apply generate_embedding_sent.
    - rewrite concat_singletons in Hp, Hr. exists k.
      do 4 (split; [done|]). intros y Hy. eapply Forall2_length, Hl, Hy. }
  assert (concat (batch <$> range_step (length l) (S b)) = l) as Hcover
    by (apply range_step_cover; lia).
  rewrite Hcover in Hp, Hr.
  exists k. unfold mbind, M_bind, bind.
  destruct (for_each _ _ w) as [[bs|e] w1]; cbn [fst snd] in *;
    (do 4 (split; [done|])); [|by intros es [=]].
  intros es [= <-].
  trans (length (concat (batch <$> range_step (length l) (S b))));
    [|by rewrite Hcover].
  apply length_concat_Forall2. by apply Hl.
Qed.

Lemma masked_of_lookup svc (chunks : list str) (i : nat) :
  masked_of svc chunks !! i
  = (λ chunk, Pii.masked_text (Pii.detect_pii (Docs.pii_service svc) chunk true))
      <$> chunks !! i.
Proof. unfold masked_of. rewrite map_map. apply list_lookup_fmap. Qed.

Lemma masked_of_length svc (chunks : list str) :
  length (masked_of svc chunks) = length chunks.
Proof. unfold masked_of. by rewrite !length_map. Qed.

(** The two ways a call of [process_document] can end: nothing stored and
    an exception; or the chunks in the collection, the record in the
    dictionary, and an exception only from the audit database. *)
Lemma process_document_cases svc env (filename content file_type user_id : str) w :
  let r := Docs.process_document svc env filename content file_type user_id w in
  let chunks := chunks_of svc env content file_type in
  (∃ k, sent w r.2 k ∧ k `prefix_of` masked_of svc chunks ∧
        (returned r → k = masked_of svc chunks)) ∧
  ((¬ returned r ∧
    collection r.2 = collection w ∧
    documents_metadata r.2 = documents_metadata w ∧
    metadata_file r.2 = metadata_file w)
   ∨
   (collection_add_ok env = true ∧ chunks ≠ [] ∧
    (returned r ↔ audit_ok env = true) ∧
    ∃ es meta,
      length es = length chunks ∧
      collection r.2 = Store.insert_all (new_entries svc env filename content file_type es)
                                        (collection w) ∧
      documents_metadata r.2 = <[uuid4 env := meta]> (documents_metadata w) ∧
      chunk_count meta = length chunks ∧
      metadata_file r.2 = Docs.dumped env (documents_metadata r.2) (metadata_file w))).
Proof.
  unfold Docs.process_document, new_entries, chunks_of.
  destruct (Docs._extract_text env content file_type) as [[|c0 text]|] eqn:Hext.
  1,3: (cbn zeta; unfold raise, returned, sent; cbn [fst snd]; split;
        [exists []; rewrite app_nil_r; split; [done|split; [apply prefix_nil|tauto]]
        |left; tauto]).
  set (text0 := c0 :: text).
  set (chunks := Chunker._chunk_text _ _ text0).
  cbn zeta.
  unfold mbind, M_bind, bind.
  destruct (generate_embeddings_batch_sent env (masked_of svc chunks) 10 w)
    as (k & Hs & Ho & Hp & Hr & Hl).
  change (map Pii.masked_text
            (map (λ chunk, Pii.detect_pii (Docs.pii_service svc) chunk true) chunks))
    with (masked_of svc chunks) in *.
  destruct (generate_embeddings_batch env (masked_of svc chunks) 10 w)
    as [[es|e] w1]; cbn [fst snd] in *.
  2: { split; [exists k; by repeat split|]. left.
       destruct Ho as (?&?&?&?). unfold returned. cbn. tauto. }
  specialize (Hr I). subst k. specialize (Hl es eq_refl).
  unfold Store.add_documents, Store.collection_add.
  destruct (Pii.nonempty (map (Docs.chunk_id (uuid4 env))
                              (seq 0 (length (masked_of svc chunks))))) eqn:Hids;
    cbn [negb].
  2: { unfold mbind, M_bind, bind, raise, returned. cbn [fst snd].
       split; [exists (masked_of svc chunks); by repeat split|]. left.
       destruct Ho as (?&?&?&?). tauto. }
  assert (chunks ≠ []) as Hne.
  { intros Hnil. rewrite masked_of_length, Hnil in Hids. done. }
  destruct (collection_add_ok env).
  2: { unfold mbind, M_bind, bind, raise, returned. cbn [fst snd].
       split; [exists (masked_of svc chunks); by repeat split|]. left.
       destruct Ho as (?&?&?&?). tauto. }
  unfold mbind, M_bind, bind, modify, mret, M_ret, ret, Docs._save_metadata,
    Docs.audit_log, modify, raise, returned, sent in *.
  destruct Ho as (Hc & Hm & Hf & Ha).
  destruct (audit_ok env); cbn [fst snd] in *;
    unfold Store.set_collection, Docs.set_documents_metadata;
    cbn [collection documents_metadata metadata_file embed_calls audit_rows].
  all: (split; [exists (masked_of svc chunks); by repeat split|]).
  all: right; split; [done|]; split; [done|]; split; [by split|].
  all: eexists es, _; rewrite Hc, Hm, ?Hf.
  all: split; [by rewrite Hl, masked_of_length|].
  all: split; [by rewrite masked_of_length|]; split; [reflexivity|]; split; reflexivity.
Qed.

End Embedding.

(** ** Identifiers and the collection *)

Section Identifiers.
Import Sys Docs.

Lemma pretty_N_char_digit (x : N) : pretty_N_char x ≠ underscore.
Proof. unfold pretty_N_char. by repeat case_match. Qed.

Lemma pretty_N_go_plain (x : N) (acc : string) :
  underscore ∉ txt acc → underscore ∉ txt (pretty_N_go x acc).
Proof.
  revert acc. induction (N.lt_wf_0 x) as [x _ IH]; intros acc Hacc.
  assert (x = 0 ∨ 0 < x)%N as [->|Hpos] by lia; [by rewrite pretty_N_go_0|].
  rewrite pretty_N_go_step by done. apply IH; [by apply N.div_lt|].
  cbn. rewrite not_elem_of_cons. split; [|done].
  intros Heq. by apply (pretty_N_char_digit (x `mod` 10)%N).
Qed.

Lemma pretty_plain (i : nat) : underscore ∉ txt (pretty i).
Proof.
  unfold pretty, pretty_nat, pretty, pretty_N. case_decide.
  - cbn. rewrite !not_elem_of_cons. split; [done|]. apply not_elem_of_nil.
  - apply pretty_N_go_plain. cbn. apply not_elem_of_nil.
Qed.

(** Two texts that agree after their last underscore agree before it. *)
Lemma last_underscore (a b p q : str) :
  underscore ∉ p → underscore ∉ q →
  a ++ underscore :: p = b ++ underscore :: q → a = b ∧ p = q.
Proof.
  intros Hp Hq. revert b. induction a as [|x a IH]; intros [|y b] Heq; cbn in Heq.
  - by injection Heq.
  - injection Heq as <- ->. destruct Hp. apply elem_of_app. right. by left.
  - injection Heq as -> <-. destruct Hq. apply elem_of_app. right. by left.
  - injection Heq as <- Heq. destruct (IH b Heq) as [-> ->]. done.
Qed.

Lemma txt_inj (x y : string) : txt x = txt y → x = y.
Proof.
  intros H. rewrite <- (string_of_list_ascii_of_string x),
    <- (string_of_list_ascii_of_string y). unfold txt in H. by rewrite H.
Qed.

(** A chunk identifier names its document and its index. *)
Lemma chunk_id_inj (d d' : str) (i j : nat) :
  chunk_id d i = chunk_id d' j → d = d' ∧ i = j.
Proof.
  unfold chunk_id.
  change (txt "_chunk_") with (txt "_chunk" ++ [underscore]).
  rewrite <- !(app_assoc _ [underscore]), !(app_assoc d), !(app_assoc d').
  cbn [app]. intros Heq.
  apply last_underscore in Heq as [Hd Hi]; [|apply pretty_plain..].
  apply app_inv_tail in Hd. apply txt_inj in Hi.
  split; [done|]. by apply (inj pretty).
Qed.
End Identifiers.

Section Collection.
Import Sys Store.

Implicit Types (c : gmap str Entry) (es : list (str * Entry)) (k d : str) (e : Entry).

(** [insert_all] keeps what the collection holds and adds the records
    whose identifiers are new. *)
Lemma insert_all_lookup es c k :
  (∃ e, c !! k = None ∧ insert_all es c !! k = Some e ∧ (k, e) ∈ es) ∨
  ((is_Some (c !! k) ∨ k ∉ es.*1) ∧ insert_all es c !! k = c !! k).
Proof.
  unfold insert_all. revert c. induction es as [|[k0 e0] es IH]; intros c.
  - right. split; [right; apply not_elem_of_nil|done].
  - cbn [foldl fst snd].
    set (c1 := match c !! k0 with Some _ => c | None => <[k0:=e0]> c end).
    assert (∀ x, c !! k = Some x → c1 !! k = Some x) as Hkept.
    { intros x Hx. subst c1. destruct (c !! k0) eqn:Hk0; [done|].
      rewrite lookup_insert_ne; [done|]. intros ->. congruence. }
    destruct (IH c1) as [(e & Hnone & He & Hin)|[Hor He]].
    + left. exists e. split; [|split; [done|by right]].
      destruct (c !! k) as [x|] eqn:Hx; [|done]. rewrite (Hkept x eq_refl) in Hnone. done.
    + rewrite He. destruct (c !! k) as [x|] eqn:Hx.
      { right. split; [left; by eexists|]. by apply Hkept. }
      subst c1. destruct (c !! k0) as [x0|] eqn:Hk0.
      * right. split; [|done]. right. destruct Hor as [[? ?]|Hout]; [congruence|].
        rewrite fmap_cons, not_elem_of_cons. cbn. split; [congruence|done].
      * destruct (decide (k0 = k)) as [->|Hne].
        -- left. exists e0. rewrite lookup_insert_eq. split; [done|]. split; [done|by left].
        -- right. rewrite lookup_insert_ne by done. split; [|done]. right.
           destruct Hor as [Hs|Hout].
           { rewrite lookup_insert_ne, Hx in Hs by done. by destruct Hs. }
           rewrite fmap_cons, not_elem_of_cons. cbn. split; [congruence|done].
Qed.

Lemma entries_elem (documents : list str) (embeddings : list Embedding)
    (metadatas : list ChunkMeta) (ids : list str) k e :
  (k, e) ∈ entries documents embeddings metadatas ids → metadata e ∈ metadatas.
Proof.
  unfold entries. intros Hin. apply elem_of_zip_r in Hin.
  revert Hin. generalize (zip documents embeddings). intros des.
  revert metadatas. induction des as [|de des IH]; intros [|m ms]; cbn;
    try by intros ?%elem_of_nil.
  rewrite !elem_of_cons. intros [->|Hin]; [by left|right; eauto].
Qed.

Lemma entries_keys (documents : list str) (embeddings : list Embedding)
    (metadatas : list ChunkMeta) (ids : list str) :
  length documents = length ids → length embeddings = length ids →
  length metadatas = length ids →
  (entries documents embeddings metadatas ids).*1 = ids.
Proof.
  intros Hd He Hm. unfold entries. apply fst_zip.
  rewrite length_zip_with, length_zip. lia.
Qed.

Lemma delete_ids_lookup (ids : list str) c k :
  delete_ids ids c !! k = if decide (k ∈ ids) then None else c !! k.
Proof.
  unfold delete_ids. induction ids as [|i ids IH]; cbn [foldr].
  - by rewrite decide_False by apply not_elem_of_nil.
  - destruct (decide (i = k)) as [->|Hne].
    + rewrite lookup_delete_eq. by rewrite decide_True by (by left).
    + rewrite lookup_delete_ne, IH by done.
      destruct (decide (k ∈ ids)).
      * by rewrite decide_True by (by right).
      * rewrite decide_False; [done|]. rewrite not_elem_of_cons. split; congruence.
Qed.

Lemma ids_of_elem d c k :
  k ∈ ids_of d c ↔ ∃ e, c !! k = Some e ∧ document_id (metadata e) = d.
Proof.
  unfold ids_of. rewrite list_elem_of_fmap. split.
  - intros ([k' e] & -> & Hin). apply elem_of_map_to_list in Hin.
    apply map_lookup_filter_Some in Hin as [Hc Hd]. by exists e.
  - intros (e & Hc & Hd). exists (k, e). split; [done|].
    apply elem_of_map_to_list, map_lookup_filter_Some. done.
Qed.
End Collection.

(** ** The two stores *)

Section Stores.
Import Sys Docs.

Implicit Types (w : World) (env : Env) (d : str).

Lemma delete_document_spec env d w :
  delete_document env d w =
    if decide (d ∈ dom (documents_metadata w)) then
      let c := if collection_get_ok env && collection_delete_ok env
               then Store.delete_ids (Store.ids_of d (collection w)) (collection w)
               else collection w in
      let m := delete d (documents_metadata w) in
      (Return true,
       {| collection := c; documents_metadata := m;
          metadata_file := dumped env m (metadata_file w);
          embed_calls := embed_calls w; audit_rows := audit_rows w |})
    else (Return false, w).
Proof.
  unfold delete_document, mbind, M_bind, bind, get_world. cbn [fst snd].
  destruct (decide _); [|done].
  unfold Store.delete_by_document_id, try_except, Store.delete_chunks,
    mbind, M_bind, bind, get_world, modify, mret, M_ret, ret, raise, _save_metadata.
  destruct (collection_get_ok env); cbn [andb]; [|by destruct w].
  destruct (Store.ids_of d (collection w)) as [|k ks] eqn:Hids; cbn [Pii.nonempty].
  - destruct (collection_delete_ok env), w; done.
  - destruct (collection_delete_ok env), w; done.
Qed.

Lemma indexed_delete env d w : indexed w → indexed (delete_document env d w).2.
Proof.
  intros Hw. rewrite delete_document_spec. destruct (decide _); [|done].
  cbn zeta. cbn [snd]. intros d' meta i. cbn [documents_metadata collection].
  intros [Hne Hm]%lookup_delete_Some Hi.
  destruct (Hw d' meta i Hm Hi) as (x & Hx & Hd). exists x. split; [|done].
  destruct (_ && _); [|done].
  rewrite delete_ids_lookup, decide_False; [done|].
  intros (x' & Hx' & Hd')%ids_of_elem. congruence.
Qed.
Lemma new_entries_keys svc env (filename content file_type : str)
    (es : list Embedding) :
  length es = length (chunks_of svc env content file_type) →
  (new_entries svc env filename content file_type es).*1
  = chunk_id (uuid4 env) <$> seq 0 (length (chunks_of svc env content file_type)).
Proof.
  intros Hes. unfold new_entries. cbn zeta.
  rewrite entries_keys; rewrite ?length_map, ?length_seq, ?masked_of_length; done.
Qed.

Lemma new_entries_owner svc env (filename content file_type : str)
    (es : list Embedding) k x :
  (k, x) ∈ new_entries svc env filename content file_type es →
  document_id (metadata x) = uuid4 env.
Proof.
  intros Hin%entries_elem. apply list_elem_of_fmap in Hin as (i & -> & _). done.
Qed.

End Stores.

Section Scenarios.
Import Sys Docs.

(** C1, refuted as stated: the prompt sent for [twice] holds the address
    recorded as the value of the chunk's one match. *)
Lemma prompt_holds_recorded_value :
  let r := Pii.detect_pii Pii.regex_only twice true in
  returned (upload quiet twice empty_world) ∧
  embed_calls uploaded = [Pii.masked_text r] ∧
  Pii.value <$> Pii.matches r = [txt "max@firma.de"] ∧
  Text.contains (Pii.masked_text r) (txt "max@firma.de") = true.
Proof. vm_compute. repeat split. Qed.

(** C2: the collection rejects the deletion, the chunk stays in it, and
    [delete_document] still drops the record and answers [True]. *)
Lemma erase_succeeds_over_failed_index :
  let r := delete_document delete_fails (txt "d1") uploaded in
  (Store.delete_by_document_id delete_fails (txt "d1") uploaded).1 = Return false ∧
  r.1 = Return true ∧
  documents_metadata r.2 !! txt "d1" = None ∧
  Store.ids_of (txt "d1") (collection r.2) = [txt "d1_chunk_0"].
Proof. vm_compute. repeat split. Qed.

(** C6, refuted as stated: after an erasure during which the collection
    rejected the deletion, the index still holds the chunk of the document,
    and a further erasure answers [False]. *)
Lemma erase_false_with_chunks_indexed :
  let w := (delete_document delete_fails (txt "d1") uploaded).2 in
  Store.ids_of (txt "d1") (collection w) = [txt "d1_chunk_0"] ∧
  (delete_document quiet (txt "d1") w).1 = Return false.
Proof. vm_compute. repeat split. Qed.

End Scenarios.

Section Consistency.
Import Sys Docs.

Implicit Types (w : World) (env : Env) (d : str).

(** C6, amended.  An erasure answers [False] exactly when the metadata
    dictionary has no record under the identifier, and then changes
    nothing; otherwise it answers [True], whatever the index holds.  For
    a document whose ingestion returned, the first erasure answers [True]
    and a second one [False]. *)
Theorem erase_answers_by_metadata :
  (∀ env d w,
     let r := delete_document env d w in
     (r.1 = Return false ↔ documents_metadata w !! d = None) ∧
     (r.1 = Return true ↔ is_Some (documents_metadata w !! d)) ∧
     (r.1 = Return false → r.2 = w)) ∧
  (∀ svc env env1 env2 (filename content file_type user_id : str) w,
     let r0 := process_document svc env filename content file_type user_id w in
     returned r0 →
     let r1 := delete_document env1 (uuid4 env) r0.2 in
     let r2 := delete_document env2 (uuid4 env) r1.2 in
     r1.1 = Return true ∧ r2.1 = Return false).
Proof.
  assert (∀ env d w,
            let r := delete_document env d w in
            (r.1 = Return false ↔ documents_metadata w !! d = None) ∧
            (r.1 = Return true ↔ is_Some (documents_metadata w !! d)) ∧
            (r.1 = Return false → r.2 = w)) as Hone.
  { intros env d w r. subst r. rewrite delete_document_spec.
    destruct (decide _) as [Hin|Hout]; cbn zeta; cbn [fst snd].
    - apply elem_of_dom in Hin. split; [|split]; [split| |done].
      + done.
      + intros Hnone. rewrite Hnone in Hin. by destruct Hin.
      + done.
    - apply not_elem_of_dom in Hout. split; [done|]. split; [|done].
      split; [done|]. rewrite Hout. by intros [? ?]. }
  split; [exact Hone|].
  intros svc env env1 env2 filename content file_type user_id w r0 Hret r1 r2.
  destruct (process_document_cases svc env filename content file_type user_id w)
    as [_ [(Hr & _)|(_ & _ & _ & es & meta & _ & _ & Hm & _)]]; [done|].
  fold r0 in Hm.
  assert (r1.1 = Return true) as H1.
  { apply Hone. rewrite Hm, lookup_insert_eq. by eexists. }
  split; [done|]. apply Hone.
  subst r1. rewrite delete_document_spec in *.
  destruct (decide _); [|done]. cbn zeta. cbn [snd documents_metadata].
  apply lookup_delete_eq.
Qed.

Lemma erase_answers_by_metadata_witness :
  (delete_document quiet (txt "d1") uploaded).1 = Return true ∧
  (delete_document quiet (txt "d1")
     (delete_document quiet (txt "d1") uploaded).2).1 = Return false.
Proof.
  destruct erase_answers_by_metadata as [_ Htwice].
  apply (Htwice service quiet quiet quiet (txt "a.txt") twice (txt ".txt")
           (txt "system") empty_world).
  vm_compute. exact I.
Defined.

End Consistency.

(** * Further properties *)

(** ** Words and sentences *)

Section Words.
Import Text Chunker.

Implicit Types (c p : ascii) (t w x u : str) (ws l : list str).

Lemma code_inj (a b : ascii) : (code a =? code b) = true → a = b.
Proof.
  unfold code. intros H%Nat.eqb_eq.
  rewrite <- (ascii_nat_embedding a), <- (ascii_nat_embedding b). by rewrite H.
Qed.

(** A white-space character ends the word before it. *)
Lemma split_go_app_space w (a b : str) c :
  is_space c = true → split_go w (a ++ c :: b) = split_go w a ++ split b.
Proof.
  intros Hc. revert w. induction a as [|y a IH]; intros w; cbn [app split_go].
  - rewrite Hc. by destruct (Pii.nonempty w).
  - destruct (is_space y); [|apply IH].
    destruct (Pii.nonempty w); cbn [app]; by rewrite IH.
Qed.

Lemma split_go_spaces w (sp : str) :
  Forall (λ c, is_space c = true) sp → split_go w sp = split_go w [].
Proof.
  intros Hsp. revert w. induction Hsp as [|c sp Hc _ IH]; intros w; [done|].
  cbn [split_go]. rewrite Hc, (IH []). by destruct (Pii.nonempty w).
Qed.

Lemma split_go_trailing w (a sp : str) :
  Forall (λ c, is_space c = true) sp → split_go w (a ++ sp) = split_go w a.
Proof.
  intros Hsp. revert w. induction a as [|y a IH]; intros w; cbn [app].
  - by apply split_go_spaces.
  - cbn [split_go]. by rewrite !IH.
Qed.

Lemma nonempty_app_r {A} (a b : list A) : b ≠ [] → Pii.nonempty (a ++ b) = true.
Proof. destruct a, b; done. Qed.

Lemma split_go_word w x :
  Forall (λ c, is_space c = false) x →
  split_go w x = if Pii.nonempty (w ++ x) then [w ++ x] else [].
Proof.
  intros Hx. revert w. induction Hx as [|c x Hc _ IH]; intros w; cbn [split_go].
  - by rewrite app_nil_r.
  - rewrite Hc, IH, <- app_assoc. done.
Qed.

Lemma split_word x : word x → split x = [x].
Proof.
  intros [Hne Hx]. unfold split. rewrite split_go_word by done. by destruct x.
Qed.

Lemma split_go_words w t :
  Forall (λ c, is_space c = false) w → Forall word (split_go w t).
Proof.
  revert w. induction t as [|c t IH]; intros w Hw; cbn [split_go].
  - destruct w; cbn [Pii.nonempty]; [constructor|].
    constructor; [by split|constructor].
  - destruct (is_space c) eqn:Hc.
    + destruct w; cbn [Pii.nonempty]; [by apply IH|].
      constructor; [by split|by apply IH].
    + apply IH, Forall_app. split; [done|]. by constructor.
Qed.

Lemma split_words t : Forall word (split t).
Proof. by apply split_go_words. Qed.

(** [split] sees the fields of a text joined by a white-space character. *)
Lemma split_join_sep c l :
  is_space c = true → split (join [c] l) = concat (split <$> l).
Proof.
  intros Hc. induction l as [|x [|y l] IH]; [done| |].
  - cbn. by rewrite app_nil_r.
  - change (join [c] (x :: y :: l)) with (x ++ c :: join [c] (y :: l)).
    unfold split at 1. rewrite split_go_app_space by done.
    rewrite IH. by rewrite fmap_cons.
Qed.

(** [" ".join(t.split()).split() == t.split()] *)
Lemma split_join_words ws : Forall word ws → split (join space ws) = ws.
Proof.
  intros Hws. unfold space. change (txt " ") with [" "%char].
  rewrite split_join_sep by done.
  induction Hws as [|x ws Hx _ IH]; [done|].
  rewrite fmap_cons. cbn [concat]. by rewrite IH, split_word.
Qed.

(** Replacing the white space after a character by other white space
    leaves the words as they are. *)
Lemma replace_pair_words p (s1 s2 : ascii) w t :
  is_space s1 = true → is_space s2 = true →
  split_go w (replace [p; s1] [p; s2] t) = split_go w t.
Proof.
  intros H1 H2. unfold replace.
  assert (∀ n t w, length t ≤ n →
            split_go w (replace_go [p; s1] [p; s2] t 0) = split_go w t) as Hall;
    [|by apply (Hall (length t))].
  clear w t. induction n as [|n IH]; intros [|c t] w Hn; cbn [length] in Hn;
    [done|lia|done|].
  cbn [replace_go]. destruct (is_prefix [p; s1] (c :: t)) eqn:Hp.
  - destruct t as [|c2 t]; cbn [is_prefix] in Hp;
      [by rewrite andb_false_r in Hp|].
    rewrite andb_true_r in Hp. apply andb_true_iff in Hp as [<-%code_inj <-%code_inj].
    cbn [length pred app replace_go split_go]. rewrite H1, H2.
    rewrite !IH by (cbn [length] in Hn; lia). done.
  - cbn [split_go]. rewrite !IH by lia. done.
Qed.

Lemma split_on_go_cons (sep : ascii) (field : str) t :
  ∃ y l, split_on_go sep field t = y :: l.
Proof.
  revert field. induction t as [|c t IH]; intros field; cbn [split_on_go]; [by eexists _, _|].
  destruct (is_char sep c); [by eexists _, _|apply IH].
Qed.

(** [sep.join(t.split(sep)) == t] *)
Lemma split_on_go_join (sep : ascii) (field : str) t :
  join [sep] (split_on_go sep field t) = field ++ t.
Proof.
  revert field. induction t as [|c t IH]; intros field; cbn [split_on_go].
  - cbn. by rewrite app_nil_r.
  - destruct (is_char sep c) eqn:Hc.
    + destruct (split_on_go_cons sep [] t) as (y & l & Hyl).
      specialize (IH []). rewrite Hyl in *.
      change (join [sep] (field :: y :: l)) with (field ++ sep :: join [sep] (y :: l)).
      rewrite IH. unfold is_char in Hc. rewrite Nat.eqb_sym in Hc.
      by apply code_inj in Hc as ->.
    + rewrite IH, <- app_assoc. done.
Qed.

Lemma lstrip_words t : split (lstrip t) = split t.
Proof.
  unfold split. induction t as [|c t IH]; [done|]. cbn [lstrip split_go].
  destruct (is_space c) eqn:Hc; [done|]. cbn [split_go]. by rewrite Hc.
Qed.

Lemma lstrip_spaces t : ∃ sp, t = sp ++ lstrip t ∧ Forall (λ c, is_space c = true) sp.
Proof.
  induction t as [|c t (sp & Ht & Hsp)]; [by exists []|]. cbn [lstrip].
  destruct (is_space c) eqn:Hc; [|by exists []].
  exists (c :: sp). split; [cbn; by rewrite <- Ht|by constructor].
Qed.

Lemma strip_words t : split (strip t) = split t.
Proof.
  unfold strip. rewrite <- (lstrip_words t).
  destruct (lstrip_spaces (rev (lstrip t))) as (sp & Ht & Hsp).
  apply (f_equal (@rev ascii)) in Ht. rewrite rev_involutive, rev_app_distr in Ht.
  rewrite Ht at 2. unfold split. rewrite split_go_trailing; [done|].
  by apply Forall_rev.
Qed.

(** The sentences hold the words of the text, in their order. *)
Lemma sentences_words t : concat (split <$> sentences t) = split t.
Proof.
  unfold sentences. cbn zeta.
  rewrite <- (split_join_sep nl) by done.
  unfold split_on. rewrite split_on_go_join. cbn [app].
  unfold split at 1.
  change (txt "! ") with ["!"%char; " "%char].
  change (txt "? ") with ["?"%char; " "%char].
  change (txt ". ") with ["."%char; " "%char].
  change (txt "!" ++ [nl]) with ["!"%char; nl].
  change (txt "?" ++ [nl]) with ["?"%char; nl].
  change (txt "." ++ [nl]) with ["."%char; nl].
  rewrite !replace_pair_words by done.
  apply split_join_words, split_words.
Qed.

Lemma kept_of_words (ss : list str) : concat (split <$> kept_of ss) = concat (split <$> ss).
Proof.
  unfold kept_of. induction ss as [|s ss IH]; [done|].
  rewrite !fmap_cons, filter_cons. cbn [concat]. rewrite <- IH, <- (strip_words s).
  case_decide as Hs; [by rewrite fmap_cons|].
  by rewrite Hs.
Qed.

Lemma split_nil t : split t = [] ↔ Forall (λ c, is_space c = true) t.
Proof.
  split.
  - unfold split. induction t as [|c t IH]; [constructor|]. cbn [split_go].
    destruct (is_space c) eqn:Hc.
    + cbn [Pii.nonempty]. intros Ht. constructor; auto.
    + intros Ht. exfalso.
      assert (∀ w, w ≠ [] → split_go w t ≠ []) as Hne.
      { clear. induction t as [|c t IH]; intros w Hw; cbn [split_go].
        - by destruct w.
        - destruct (is_space c); [by destruct w|]. apply IH. by destruct w. }
      by apply (Hne [c]).
  - intros Ht. unfold split. by rewrite (split_go_spaces [] t Ht).
Qed.

End Words.

(** ** The chunker: groups of sentences *)

Section Groups.
Import Text Chunker.
Local Open Scope Z_scope.

Variables chunk_size chunk_overlap : Z.

Implicit Types (c s x : str) (ws ss ks g grp seed : list str)
  (groups : list (list str)) (st : state).

Lemma assemble_snoc seed groups g :
  assemble chunk_overlap seed (groups ++ [g])
  = assemble chunk_overlap seed groups
    ++ [join space (seed_after chunk_overlap seed (assemble chunk_overlap seed groups) ++ g)].
Proof.
  revert seed. induction groups as [|g0 groups IH]; intros seed; [done|].
  cbn [app assemble]. cbn zeta. rewrite IH. cbn [app]. do 3 f_equal.
  unfold seed_after. rewrite last_cons. by destruct (last _).
Qed.

Lemma assemble_length seed groups :
  length (assemble chunk_overlap seed groups) = length groups.
Proof.
  revert seed. induction groups as [|g0 groups IH]; intros seed; [done|].
  cbn. by rewrite IH.
Qed.

(** The chunk at an index is its group after the words carried over from
    the chunk before it. *)
Lemma assemble_lookup seed groups (i : nat) c' :
  assemble chunk_overlap seed groups !! S i = Some c' →
  ∃ c grp, assemble chunk_overlap seed groups !! i = Some c ∧
           groups !! S i = Some grp ∧
           c' = join space (carried chunk_overlap c ++ grp).
Proof.
  revert seed groups. induction i as [|i IH]; intros seed [|g0 [|g1 groups]]; try done.
  - cbn. intros [= <-]. by eexists _, _.
  - intros H. apply (IH _ (g1 :: groups)) in H as (c & grp & Hc & Hg & ->).
    by exists c, grp.
Qed.

Lemma len_join_snoc ws s :
  len (join space (ws ++ [s]))
  = if Pii.nonempty ws then len (join space ws) + 1 + len s else len s.
Proof.
  induction ws as [|w ws IH]; [done|]. cbn [app Pii.nonempty].
  rewrite !len_join_cons, IH, nonempty_app_r by done.
  destruct ws; cbn [Pii.nonempty]; lia.
Qed.

Lemma carry_length c :
  (carry chunk_overlap c).2
  = if Pii.nonempty (carry chunk_overlap c).1
    then len (join space (carry chunk_overlap c).1) + 1 else 0.
Proof.
  unfold carry. destruct (len c >? chunk_overlap); [|done].
  destruct (overlap_go_spec chunk_overlap (rev (split c)) [] 0)
    as [_ [[-> ->]|(Hne & -> & _)]]; [by left|done|].
  by destruct (overlap_go _ _ _ _).1.
Qed.

Lemma grouped_start :
  grouped chunk_size chunk_overlap []
          {| chunks := []; current_chunk := []; current_length := 0 |}.
Proof.
  exists [], []. split_and!; try done. right. cbn. lia.
Qed.

(** One round of the loop keeps the groups. *)
Lemma grouped_step ks st sentence :
  grouped chunk_size chunk_overlap ks st →
  grouped chunk_size chunk_overlap (ks ++ kept_of [sentence])
          (step chunk_size chunk_overlap st sentence).
Proof.
  intros (groups & g & Hcs & Hne & Hks & Hcur & Hg & Hlen & Hsz & Hopen & Hfull).
  unfold step, kept_of. rewrite fmap_cons, fmap_nil, filter_cons, filter_nil.
  destruct (strip sentence) as [|a s'] eqn:Hs; cbn [Pii.nonempty negb].
  { rewrite decide_False by (by intros []). rewrite app_nil_r.
    by exists groups, g. }
  rewrite decide_True by done. set (s := a :: s') in *.
  destruct (Z.gtb_spec (current_length st + len s) chunk_size) as [Hbig|Hfit];
    [destruct (current_chunk st) as [|w0 cur] eqn:Hcc|]; cbn [andb Pii.nonempty].
  - (* nothing to close: the first sentence of all *)
    assert (g = []) as ->
      by (symmetry in Hcur; by apply app_eq_nil in Hcur as [_ ->]).
    assert (groups = []) as -> by (destruct groups; [done|by destruct Hg]).
    exists [], [s]. cbn [chunks current_chunk current_length app concat].
    rewrite Hcs in *. cbn in Hks. subst ks. cbn [assemble seed_after last] in *.
    rewrite Hcc. cbn [Pii.nonempty app] in *.
    split_and!; try done; [cbn; lia|by right].
  - (* the open chunk is closed, the sentence opens the next one *)
    assert (g ≠ []) as Hgne.
    { destruct groups; [|by apply Hg]. rewrite Hcs in Hcur. cbn in Hcur.
      by rewrite <- Hcur. }
    exists (groups ++ [g]), [s].
    unfold close. cbn [chunks current_chunk current_length]. rewrite Hcc.
    set (c := join space (w0 :: cur)).
    assert (chunks st ++ [c] = assemble chunk_overlap [] (groups ++ [g])) as Hcs'.
    { rewrite assemble_snoc, <- Hcs, <- Hcur. done. }
    split; [done|]. split; [apply Forall_app; split; [done|by constructor]|].
    split; [rewrite concat_app; cbn [concat]; by rewrite app_nil_r, Hks|].
    split; [unfold seed_after; by rewrite last_snoc|].
    split; [done|].
    split.
    { rewrite nonempty_app_r by done. rewrite len_join_snoc, carry_length.
      destruct (Pii.nonempty (carry chunk_overlap _).1); lia. }
    split.
    { apply Forall2_app; [done|]. constructor; [|constructor].
      destruct Hopen as [Hle|Hle]; [by left|right].
      destruct g as [|? [|? ?]]; cbn in *; [done|done|lia]. }
    split; [by right|].
    intros i c0 grp s0 Hi Hgrp Hhead.
    destruct (decide (i < length (chunks st))%nat) as [Hlt|Hge].
    + rewrite lookup_app_l in Hi by done.
      apply (Hfull i c0 grp s0 Hi); [|done].
      assert (length groups = length (chunks st)) as Hl
        by (by rewrite Hcs, assemble_length).
      rewrite lookup_app_l in Hgrp; [done|rewrite length_app; cbn; lia].
    + assert (i = length (chunks st)) as ->.
      { apply lookup_lt_Some in Hi. rewrite length_app in Hi. cbn in Hi. lia. }
      rewrite lookup_app_r, Nat.sub_diag in Hi by done. injection Hi as <-.
      assert (length (groups ++ [g]) = S (length (chunks st))) as Hl
        by (rewrite length_app, Hcs, assemble_length; cbn; lia).
      rewrite lookup_app_r, Hl, Nat.sub_diag in Hgrp by lia.
      injection Hgrp as <-. injection Hhead as <-.
      rewrite Hlen in Hbig. cbn [Pii.nonempty] in Hbig.
      exact Hbig.
  - (* the sentence joins the open chunk *)
    exists groups, (g ++ [s]). cbn [chunks current_chunk current_length].
    split; [done|]. split; [done|].
    split; [by rewrite app_assoc, Hks|].
    split; [by rewrite Hcur, app_assoc|].
    split; [by destruct g|].
    split.
    { rewrite nonempty_app_r by done. rewrite len_join_snoc, Hlen.
      destruct (Pii.nonempty (current_chunk st)); lia. }
    split; [done|].
    split.
    { rewrite len_join_snoc. rewrite Hlen in Hfit.
      destruct (current_chunk st) as [|w0 cur] eqn:Hcc; cbn [Pii.nonempty] in *.
      - right. symmetry in Hcur. apply app_eq_nil in Hcur as [_ ->]. done.
      - left. lia. }
    intros i c0 grp s0 Hi Hgrp Hhead.
    assert (length groups = length (chunks st)) as Hl
      by (by rewrite Hcs, assemble_length).
    destruct (decide (S i < length groups)%nat) as [Hlt|Hge].
    + rewrite lookup_app_l in Hgrp by done.
      apply (Hfull i c0 grp s0 Hi); [by rewrite lookup_app_l|done].
    + assert (S i = length groups) as Hi'.
      { apply lookup_lt_Some in Hi. lia. }
      rewrite lookup_app_r, Hi', Nat.sub_diag in Hgrp by lia.
      injection Hgrp as <-.
      assert (g ≠ []) as Hgne by (apply Hg; by destruct groups).
      apply (Hfull i c0 g s0 Hi).
      * rewrite lookup_app_r, Hi', Nat.sub_diag by lia. done.
      * by destruct g.
Qed.

Lemma grouped_run ss ks st :
  grouped chunk_size chunk_overlap ks st →
  grouped chunk_size chunk_overlap (ks ++ kept_of ss)
          (foldl (step chunk_size chunk_overlap) st ss).
Proof.
  revert ks st. induction ss as [|s ss IH]; intros ks st Hst; cbn [foldl].
  - unfold kept_of. rewrite fmap_nil, filter_nil, app_nil_r. done.
  - replace (ks ++ kept_of (s :: ss)) with ((ks ++ kept_of [s]) ++ kept_of ss).
    + by apply IH, grouped_step.
    + rewrite <- app_assoc. f_equal. unfold kept_of.
      rewrite !fmap_cons, fmap_nil, !filter_cons, filter_nil.
      by case_decide.
Qed.

(** The chunks are the groups of a partition of the sentences, assembled. *)
Lemma chunk_text_groups t :
  ∃ groups,
    _chunk_text chunk_size chunk_overlap t = assemble chunk_overlap [] groups ∧
    Forall (λ grp, grp ≠ []) groups ∧
    concat groups = kept t ∧
    Forall2 (λ c grp, len c ≤ chunk_size ∨ length grp = 1%nat)
            (_chunk_text chunk_size chunk_overlap t) groups ∧
    ∀ (i : nat) c grp s,
      _chunk_text chunk_size chunk_overlap t !! i = Some c →
      groups !! S i = Some grp → head grp = Some s →
      chunk_size < len c + 1 + len s.
Proof.
  unfold _chunk_text, flush, run, kept.
  destruct (grouped_run (sentences t) [] _ grouped_start)
    as (groups & g & Hcs & Hne & Hks & Hcur & Hg & Hlen & Hsz & Hopen & Hfull).
  cbn [app] in Hks. set (st := foldl _ _ _) in *.
  destruct (current_chunk st) as [|w0 cur] eqn:Hcc; cbn [Pii.nonempty].
  - symmetry in Hcur. apply app_eq_nil in Hcur as [_ ->].
    assert (groups = []) as -> by (destruct groups; [done|by destruct Hg]).
    exists []. rewrite Hcs. cbn in *. split_and!; done.
  - assert (g ≠ []) as Hgne.
    { destruct groups; [|by apply Hg]. rewrite Hcs in Hcur. cbn in Hcur.
      by rewrite <- Hcur. }
    exists (groups ++ [g]).
    split; [rewrite assemble_snoc, <- Hcs, <- Hcur; done|].
    split; [apply Forall_app; split; [done|by constructor]|].
    split; [rewrite concat_app; cbn; by rewrite app_nil_r|].
    split.
    { apply Forall2_app; [done|]. constructor; [|constructor].
      destruct Hopen as [Hle|Hle]; [by left|right].
      destruct g as [|? [|? ?]]; cbn in *; [done|done|lia]. }
    intros i c grp s Hi Hgrp Hhead.
    assert (length groups = length (chunks st)) as Hl
      by (by rewrite Hcs, assemble_length).
    assert (i < length (chunks st))%nat as Hlt.
    { apply lookup_lt_Some in Hgrp. rewrite length_app in Hgrp. cbn in Hgrp. lia. }
    rewrite lookup_app_l in Hi by done. by apply (Hfull i c grp s Hi).
Qed.

Lemma join_holds x (l : list str) : x ∈ l → (length x ≤ length (join space l))%nat.
Proof.
  induction l as [|y [|z l] IH]; [by intros ?%elem_of_nil| |].
  - intros ->%list_elem_of_singleton. done.
  - change (join space (y :: z :: l)) with (y ++ space ++ join space (z :: l)).
    rewrite !length_app. intros [->|Hx]%elem_of_cons; [lia|].
    specialize (IH Hx). lia.
Qed.

Lemma kept_nonempty t : Forall (λ s, s ≠ []) (kept t).
Proof.
  unfold kept, kept_of. apply Forall_forall. by intros s [Hs _]%list_elem_of_filter.
Qed.

Lemma assemble_nonempty seed groups :
  Forall (λ grp, grp ≠ []) groups →
  Forall (λ s, s ≠ []) (concat groups) →
  Forall (λ c, c ≠ []) (assemble chunk_overlap seed groups).
Proof.
  intros Hne. revert seed. induction Hne as [|g groups Hg _ IH]; intros seed Hs;
    cbn [assemble]; [constructor|].
  cbn [concat] in Hs. apply Forall_app in Hs as [Hs1 Hs2].
  constructor; [|by apply IH].
  destruct g as [|s g]; [done|]. apply Forall_cons in Hs1 as [Hs _].
  intros Heq. pose proof (join_holds s (seed ++ s :: g)) as Hlen.
  rewrite Heq in Hlen. destruct s; [done|]. cbn in Hlen.
  specialize (Hlen ltac:(apply elem_of_app; right; by left)). lia.
Qed.

End Groups.

(** ** The chunker: what the chunks hold *)

Section Chunking.
Import Text Chunker.
Local Open Scope Z_scope.

Variables chunk_size chunk_overlap : Z.

Implicit Types (c s x : str) (ws ss ks g grp seed : list str)
  (groups : list (list str)).

Lemma elem_of_concat {A} (x : A) (ls : list (list A)) :
  x ∈ concat ls ↔ ∃ l, x ∈ l ∧ l ∈ ls.
Proof.
  rewrite list_elem_of_In, in_concat. split.
  - intros (l & Hl & Hx). exists l. by rewrite !list_elem_of_In.
  - intros (l & Hx & Hl). exists l. by rewrite <- !list_elem_of_In.
Qed.

Lemma join_infix (sep : str) x (l : list str) :
  x ∈ l → ∃ a b, join sep l = a ++ x ++ b.
Proof.
  induction l as [|y [|z l] IH]; [by intros ?%elem_of_nil| |].
  - intros ->%list_elem_of_singleton. exists [], []. cbn. by rewrite app_nil_r.
  - change (join sep (y :: z :: l)) with (y ++ sep ++ join sep (z :: l)).
    intros [->|Hx]%elem_of_cons; [by exists [], (sep ++ join sep (z :: l))|].
    destruct (IH Hx) as (a & b & ->). exists (y ++ sep ++ a), b.
    by rewrite <- !app_assoc.
Qed.

Lemma assemble_elem seed groups grp :
  grp ∈ groups →
  ∃ seed', join space (seed' ++ grp) ∈ assemble chunk_overlap seed groups.
Proof.
  revert seed. induction groups as [|g groups IH]; intros seed;
    [by intros ?%elem_of_nil|].
  cbn [assemble]. intros [->|Hin]%elem_of_cons.
  - exists seed. by left.
  - destruct (IH (carried chunk_overlap (join space (seed ++ g))) Hin) as [seed' H].
    exists seed'. by right.
Qed.

(** X1.  Every sentence the loop takes is put into one chunk, whole: the chunks
    are consecutive groups of the sentences, none of them empty, each
    written after the words carried over from the chunk before it. *)
Theorem chunks_group_sentences t :
  let cs := _chunk_text chunk_size chunk_overlap t in
  (∃ groups, Forall (λ grp, grp ≠ []) groups ∧ concat groups = kept t ∧
             cs = assemble chunk_overlap [] groups) ∧
  ∀ s, s ∈ kept t → ∃ c a b, c ∈ cs ∧ c = a ++ s ++ b.
Proof.
  intros cs. subst cs.
  destruct (chunk_text_groups chunk_size chunk_overlap t)
    as (groups & Hcs & Hne & Hks & _).
  split; [by exists groups|].
  intros s Hs. rewrite <- Hks in Hs. apply elem_of_concat in Hs as (grp & Hs & Hgrp).
  destruct (assemble_elem [] groups grp Hgrp) as [seed Hin].
  destruct (join_infix space s (seed ++ grp)) as (a & b & Hab);
    [apply elem_of_app; by right|].
  exists (join space (seed ++ grp)), a, b. by rewrite Hcs.
Qed.

(** X2.  Splitting into sentences loses no word and invents none: the words of
    the sentences the loop takes are the words of the text, in order. *)
Theorem sentences_keep_words t :
  concat (split <$> kept t) = split t ∧ Forall (λ s, s ≠ []) (kept t).
Proof.
  split; [|apply kept_nonempty].
  unfold kept. by rewrite kept_of_words, sentences_words.
Qed.

(** X3.  No chunk is empty, and there is no chunk at all exactly when the text
    holds nothing but white space. *)
Theorem chunk_text_empty t :
  let cs := _chunk_text chunk_size chunk_overlap t in
  (cs = [] ↔ Forall (λ a : ascii, is_space a = true) t) ∧ Forall (λ c, c ≠ []) cs.
Proof.
  intros cs. subst cs.
  destruct (chunk_text_groups chunk_size chunk_overlap t)
    as (groups & Hcs & Hne & Hks & _).
  split; [split|].
  - intros Hnil. rewrite Hnil in Hcs. apply (f_equal length) in Hcs.
    rewrite assemble_length in Hcs. destruct groups; [|done].
    apply split_nil. rewrite <- sentences_words, <- kept_of_words.
    fold (kept t). by rewrite <- Hks.
  - intros Hsp%split_nil. unfold _chunk_text, sentences. cbn zeta.
    by rewrite Hsp.
  - rewrite Hcs. apply assemble_nonempty; [done|].
    rewrite Hks. apply kept_nonempty.
Qed.

(** X4.  The chunk size is a soft target.  A chunk is closed only in front of a
    sentence that would not fit into it any more, and that sentence opens
    the next chunk, after the carried words; a chunk is longer than the
    chunk size only if that sentence is the only one it holds. *)
Theorem chunk_closed_when_full t (i : nat) c c' :
  let cs := _chunk_text chunk_size chunk_overlap t in
  cs !! i = Some c → cs !! S i = Some c' →
  ∃ s ss, s ∈ kept t ∧
          c' = join space (carried chunk_overlap c ++ s :: ss) ∧
          chunk_size < len c + 1 + len s ∧
          (len c' ≤ chunk_size ∨ ss = []).
Proof.
  intros cs Hc Hc'. subst cs.
  destruct (chunk_text_groups chunk_size chunk_overlap t)
    as (groups & Hcs & Hne & Hks & Hsz & Hfull).
  pose proof Hc' as Hlook. rewrite Hcs in Hlook.
  apply assemble_lookup in Hlook as (c0 & grp & Hc0 & Hgrp & Heq).
  rewrite <- Hcs, Hc in Hc0. injection Hc0 as <-.
  destruct grp as [|s ss].
  { rewrite Forall_forall in Hne. destruct (Hne []); [|done].
    by eapply list_elem_of_lookup_2. }
  exists s, ss. split; [|split; [done|split]].
  - rewrite <- Hks. apply elem_of_concat. exists (s :: ss).
    split; [by left|by eapply list_elem_of_lookup_2].
  - by apply (Hfull i c (s :: ss) s).
  - destruct (Forall2_lookup_lr _ _ _ _ _ _ Hsz Hc' Hgrp) as [Hle|Hone]; [by left|].
    right. destruct ss; [done|]. cbn in Hone. lia.
Qed.

End Chunking.

Lemma chunk_closed_when_full_witness :
  Chunker._chunk_text 10 8 long_line
  = [txt "Eins zwei drei vier."; txt "vier. Kurz."; txt "Kurz. Ende gut alles gut."] ∧
  ∃ s ss, s ∈ kept long_line ∧
          txt "vier. Kurz."
          = Chunker.join space (carried 8 (txt "Eins zwei drei vier.") ++ s :: ss) ∧
          (10 < Chunker.len (txt "Eins zwei drei vier.") + 1 + Chunker.len s)%Z ∧
          ((Chunker.len (txt "vier. Kurz.") ≤ 10)%Z ∨ ss = []).
Proof.
  assert (Chunker._chunk_text 10 8 long_line
          = [txt "Eins zwei drei vier."; txt "vier. Kurz.";
             txt "Kurz. Ende gut alles gut."]) as Hcs by (vm_compute; reflexivity).
  split; [exact Hcs|].
  apply (chunk_closed_when_full 10 8 long_line 0); by rewrite Hcs.
Defined.

(** ** Matches of one type *)

Section Spans.
Import Text Re Pii.

Implicit Types (r : regex) (t rest : str) (prev : option ascii) (m : PIIMatch)
  (ms : list PIIMatch) (pos skip n : nat).

Lemma match_here_length r prev rest n :
  match_here r prev rest = Some n → n ≤ length rest.
Proof.
  unfold match_here. destruct (rmatch _ _ _ _); cbn; [|done]. intros [= <-]. lia.
Qed.

(** [scan] reports its spans from left to right, each one starting where
    the one before it has ended or later, all of them within the text. *)
Lemma scan_apart r rest prev pos skip :
  StronglySorted apart (scan r prev rest pos skip) ∧
  Forall (λ ij, pos + skip ≤ ij.1 ∧ ij.1 ≤ ij.2 ∧ ij.2 ≤ pos + length rest)
         (scan r prev rest pos skip).
Proof.
  revert prev pos skip. induction rest as [|c rest IH]; intros prev pos skip;
    cbn [scan].
  - destruct skip; [|split; constructor].
    destruct (match_here r prev []); [|split; constructor].
    split; repeat constructor; cbn; lia.
  - assert (∀ skip', pos + skip ≤ S pos + skip' →
              Forall (λ ij, pos + skip ≤ ij.1 ∧ ij.1 ≤ ij.2 ∧
                            ij.2 ≤ pos + length (c :: rest))
                     (scan r (Some c) rest (S pos) skip')) as Hnext.
    { intros skip' Hle. destruct (IH (Some c) (S pos) skip') as [_ Hall].
      eapply Forall_impl; [exact Hall|]. cbn. intros [i j]. cbn. lia. }
    destruct skip as [|skip].
    + destruct (match_here r prev (c :: rest)) as [n|] eqn:Hm.
      * apply match_here_length in Hm. split.
        -- constructor; [apply IH|].
           destruct (IH (Some c) (S pos) (pred n)) as [_ Hall].
           eapply Forall_impl; [exact Hall|]. intros [i j]. unfold apart. cbn. lia.
        -- constructor; [cbn in *; lia|]. apply Hnext. lia.
      * split; [apply IH|]. apply Hnext. lia.
    + split; [apply IH|]. apply Hnext. lia.
Qed.

Lemma sorted_apart (l : list (nat * nat)) (x y : nat * nat) :
  StronglySorted apart l → x ∈ l → y ∈ l → x = y ∨ apart x y ∨ apart y x.
Proof.
  induction 1 as [|z l Hl IH Hz]; [by intros ?%elem_of_nil|].
  rewrite Forall_forall in Hz.
  intros [->|Hx]%elem_of_cons [->|Hy]%elem_of_cons; auto.
Qed.

Lemma assoc_unique {A B} (l : list (A * B)) (k : A) (a b : B) :
  NoDup l.*1 → (k, a) ∈ l → (k, b) ∈ l → a = b.
Proof.
  induction l as [|[k0 c] l IH]; [by intros _ ?%elem_of_nil|].
  rewrite fmap_cons, NoDup_cons. cbn. intros [Hk Hnd].
  intros [[= -> ->]|Ha]%elem_of_cons [[= ->]|Hb]%elem_of_cons; [done| | |by apply IH].
  - destruct Hk. apply list_elem_of_fmap. by exists (k0, b).
  - destruct Hk. apply list_elem_of_fmap. by exists (k0, a).
Qed.

Lemma PATTERNS_keys : NoDup PATTERNS.*1.
Proof. apply (bool_decide_unpack _); vm_compute; exact I. Qed.

Lemma regex_matches_elem t m :
  m ∈ regex_matches t ↔
  ∃ ty r i j, (ty, r) ∈ PATTERNS ∧ (i, j) ∈ finditer r t ∧
              m = {| type := ty; value := slice i j t; start := i; end_ := j;
                     masked_value := mask_for ty |}.
Proof.
  unfold regex_matches. rewrite list_elem_of_In, in_flat_map. split.
  - intros ([ty r] & Hty%list_elem_of_In & Hin%list_elem_of_In).
    apply list_elem_of_fmap in Hin as ([i j] & -> & Hij). by exists ty, r, i, j.
  - intros (ty & r & i & j & Hty & Hij & ->). exists (ty, r).
    rewrite <- !list_elem_of_In. split; [done|].
    apply list_elem_of_fmap. by exists (i, j).
Qed.

(** X5.  Two matches of the same type never overlap: of two different ones,
    one ends before the other starts.  Every match lies within the text. *)
Theorem same_type_matches_apart t m1 m2 :
  m1 ∈ regex_matches t → m2 ∈ regex_matches t → type m1 = type m2 →
  (m1 = m2 ∨ end_ m1 ≤ start m2 ∨ end_ m2 ≤ start m1) ∧
  start m1 ≤ end_ m1 ≤ length t.
Proof.
  intros (ty1 & r1 & i1 & j1 & Hty1 & Hij1 & ->)%regex_matches_elem
         (ty2 & r2 & i2 & j2 & Hty2 & Hij2 & ->)%regex_matches_elem.
  cbn [type start end_]. intros <-.
  pose proof (assoc_unique _ _ _ _ PATTERNS_keys Hty1 Hty2) as <-.
  destruct (scan_apart r1 t None 0 0) as [Hsorted Hbounds].
  rewrite Forall_forall in Hbounds.
  split; [|apply (Hbounds _ Hij1)].
  destruct (sorted_apart _ _ _ Hsorted Hij1 Hij2) as [[= <- <-]|[[H _]|[H _]]];
    [by left|cbn in H; auto..].
Qed.

Lemma same_type_matches_apart_witness :
  let m1 := {| type := txt "date_de"; value := txt "01.02.2020"; start := 4; end_ := 14;
               masked_value := txt "[DATUM]" |} in
  let m2 := {| type := txt "date_de"; value := txt "03.04.2021"; start := 19; end_ := 29;
               masked_value := txt "[DATUM]" |} in
  regex_matches two_dates = [m1; m2] ∧
  (m1 = m2 ∨ end_ m1 ≤ start m2 ∨ end_ m2 ≤ start m1) ∧
  start m1 ≤ end_ m1 ≤ length two_dates.
Proof.
  intros m1 m2.
  assert (regex_matches two_dates = [m1; m2]) as Hms by (vm_compute; reflexivity).
  split; [exact Hms|].
  apply (same_type_matches_apart two_dates m1 m2); rewrite ?Hms.
  - apply list_elem_of_here.
  - apply list_elem_of_further, list_elem_of_here.
  - reflexivity.
Defined.

End Spans.

(** ** Masking candidates that do not overlap *)

Section Render.
Import Text Pii.

Implicit Types (t w : str) (m : PIIMatch) (ms asc : list PIIMatch) (pos bound : nat).

Lemma firsts_id ms : NoDup (span <$> ms) → firsts ms = ms.
Proof.
  induction ms as [|m ms IH]; [done|].
  rewrite fmap_cons, NoDup_cons. intros [Hm Hnd]. cbn [firsts].
  rewrite IH by done. f_equal. apply filter_all, Forall_forall.
  intros x Hx Heq. apply Hm. rewrite <- Heq. apply list_elem_of_fmap. by exists x.
Qed.

Lemma separated_weaken pos pos' bound asc :
  pos' ≤ pos → separated pos bound asc → separated pos' bound asc.
Proof.
  destruct asc; [done|]. cbn [separated]. intros Hle (H1 & H2 & H3 & H4).
  split; [lia|done].
Qed.

Lemma separated_starts pos bound asc :
  separated pos bound asc → Forall (λ m, pos ≤ start m) asc.
Proof.
  revert pos. induction asc as [|m asc IH]; intros pos; [constructor|].
  cbn [separated]. intros (Hs & Hlt & _ & Hsep). constructor; [done|].
  apply IH. eapply separated_weaken; [|done]. lia.
Qed.

Lemma separated_spans pos bound asc : separated pos bound asc → NoDup (span <$> asc).
Proof.
  revert pos. induction asc as [|m asc IH]; intros pos; [constructor|].
  cbn [separated]. intros (Hs & Hlt & _ & Hsep). rewrite fmap_cons, NoDup_cons.
  split; [|by eapply IH].
  intros (x & Hx & Hin)%list_elem_of_fmap.
  apply separated_starts in Hsep. rewrite Forall_forall in Hsep.
  specialize (Hsep x Hin). unfold span in Hx. injection Hx as Hx _. lia.
Qed.

(** Walking the candidates from the last to the first leaves what the
    fresh copy holds. *)
Lemma foldl_put_render t pos asc :
  separated pos (length t) asc →
  foldl put t (rev asc) = take pos t ++ render t pos asc.
Proof.
  revert pos. induction asc as [|m asc IH]; intros pos; cbn [separated rev render].
  - intros _. cbn. by rewrite take_drop.
  - intros (Hs & Hlt & He & Hsep). rewrite foldl_snoc, (IH _ Hsep).
    unfold put, splice, slice.
    rewrite take_app_le by (rewrite length_take; lia).
    rewrite take_take, Nat.min_l by lia.
    rewrite drop_app_length' by (rewrite length_take; lia).
    rewrite (app_assoc (take pos t)), take_take_drop. do 2 f_equal. lia.
Qed.

Lemma render_length t pos asc :
  separated pos (length t) asc →
  length (render t pos asc) + removed asc = length t - pos + inserted asc.
Proof.
  unfold removed, inserted.
  revert pos. induction asc as [|m asc IH]; intros pos; cbn [separated render map sum_list].
  - intros _. rewrite length_drop. lia.
  - intros (Hs & Hlt & He & Hsep). specialize (IH _ Hsep).
    unfold slice, id in *. rewrite !length_app, length_take, length_drop. lia.
Qed.

(** The masked text of candidates that do not overlap. *)
Lemma masked_text_render (svc : PIIService) t :
  separated 0 (length t) (rev (sorted_desc (matches (detect_pii svc t true)))) →
  masked_text (detect_pii svc t true)
  = render t 0 (rev (sorted_desc (matches (detect_pii svc t true)))).
Proof.
  unfold detect_pii.
  destruct (enabled svc); cbn [negb matches masked_text]; [|reflexivity].
  destruct (regex_matches t ++ ner_matches svc t) as [|m0 found] eqn:Hfound;
    [reflexivity|].
  cbn [andb nonempty]. intros Hsep. unfold apply_masks.
  rewrite mask_loop_firsts. cbn [fst].
  rewrite firsts_id.
  - rewrite <- (rev_involutive (sorted_desc _)) at 1.
    by rewrite (foldl_put_render _ 0).
  - rewrite (Permutation_rev (sorted_desc _)). by eapply separated_spans.
Qed.

(** X6.  Where the candidates do not overlap, masking replaces exactly their
    spans: the masked text is the text between the candidates, copied, with
    the replacement of each candidate in the place of its span. *)
Theorem masking_rewrites_spans (svc : PIIService) t :
  let r := detect_pii svc t true in
  let candidates := rev (sorted_desc (matches r)) in
  separated 0 (length t) candidates →
  masked_text r = render t 0 candidates ∧
  length (masked_text r) + removed candidates = length t + inserted candidates.
Proof.
  intros r candidates Hsep.
  assert (masked_text r = render t 0 candidates) as Heq
    by (by apply masked_text_render).
  split; [done|]. rewrite Heq.
  rewrite (render_length t 0 candidates Hsep). lia.
Qed.

Lemma masking_rewrites_spans_witness :
  masked_text (detect_pii regex_only contact true)
  = txt "Kontakt: " ++ txt "[EMAIL]" ++ txt ", Tel: " ++ txt "[TELEFON]" ∧
  length (masked_text (detect_pii regex_only contact true)) + 24 = length contact + 16.
Proof.
  assert (separated 0 (length contact)
            (rev (sorted_desc (matches (detect_pii regex_only contact true))))) as Hsep.
  { vm_compute. repeat split; lia. }
  destruct (masking_rewrites_spans regex_only contact Hsep) as [Heq Hlen].
  split; [rewrite Heq; vm_compute; reflexivity|].
  rewrite Heq in *. vm_compute in Hlen |- *. exact Hlen.
Defined.

End Render.

(** ** Types and replacement tokens *)

Section Tokens.
Import Text Pii.

Implicit Types (svc : PIIService) (t : str) (m : PIIMatch).

Lemma ner_matches_elem svc t m :
  m ∈ ner_matches svc t → type m ∈ ner_labels ∧ masked_value m = mask_for (type m).
Proof.
  unfold ner_matches. destruct (nlp svc); [|by intros ?%elem_of_nil].
  intros (ent & -> & [Hl _]%list_elem_of_filter)%list_elem_of_fmap. done.
Qed.

(** X7.  Every candidate comes from the pattern table, with one of its ten
    types and that type's own token, or from the recogniser, with one of
    the five labels and the token of the label.  The label PER has no entry
    in the table of tokens: it is the one that is replaced by [REDACTED]. *)
Theorem candidates_types_and_tokens svc t (mask : bool) m :
  m ∈ matches (detect_pii svc t mask) →
  masked_value m = mask_for (type m) ∧
  ((m ∈ regex_matches t ∧ type m ∈ PATTERNS.*1 ∧ masked_value m ∈ pattern_tokens) ∨
   (m ∈ ner_matches svc t ∧ type m ∈ ner_labels ∧ (type m ∉ PATTERNS.*1) ∧
    masked_value m ∈ entity_tokens ∧
    (masked_value m = txt "[REDACTED]" ↔ type m = txt "PER"))).
Proof.
  unfold detect_pii. destruct (enabled svc); cbn [negb matches];
    [|by intros ?%elem_of_nil].
  intros [Hm|Hm]%elem_of_app.
  - apply regex_matches_elem in Hm as Hm'.
    destruct Hm' as (ty & r & i & j & Hty & Hij & ->). cbn [type masked_value].
    split; [done|]. left. split; [done|].
    split; [apply list_elem_of_fmap; by exists (ty, r)|].
    unfold pattern_tokens. apply list_elem_of_fmap. by exists (ty, r).
  - destruct (ner_matches_elem svc t m Hm) as [Hl Hv].
    split; [done|]. right. split; [done|]. split; [done|]. rewrite Hv.
    unfold ner_labels in Hl. rewrite !elem_of_cons in Hl.
    destruct Hl as [->|[->|[->|[->|[->|Hl]]]]]; [..|by apply elem_of_nil in Hl].
    all: split; [apply (bool_decide_unpack _); vm_compute; exact I|].
    all: split; [apply (bool_decide_unpack _); vm_compute; exact I|].
    all: apply (bool_decide_unpack _); vm_compute; exact I.
Qed.

Lemma candidates_types_and_tokens_witness :
  let m := {| type := txt "email"; value := txt "max@firma.de"; start := 9; end_ := 21;
              masked_value := txt "[EMAIL]" |} in
  masked_value m = mask_for (type m) ∧
  ((m ∈ regex_matches contact ∧ type m ∈ PATTERNS.*1 ∧ masked_value m ∈ pattern_tokens) ∨
   (m ∈ ner_matches regex_only contact ∧ type m ∈ ner_labels ∧ (type m ∉ PATTERNS.*1) ∧
    masked_value m ∈ entity_tokens ∧
    (masked_value m = txt "[REDACTED]" ↔ type m = txt "PER"))).
Proof.
  intros m. apply (candidates_types_and_tokens regex_only contact true m).
  vm_compute. apply list_elem_of_here.
Defined.

End Tokens.

(** ** Counting the matches *)

Section Reports.
Import Text Pii Report.

Implicit Types (d : list (str * nat)) (ty k : str) (m : PIIMatch)
  (ms : list PIIMatch) (r : PIIResult) (results : list PIIResult) (st : PIIStats).

Lemma tally_cons k k0 (n : nat) d :
  tally k ((k0, n) :: d) = (if decide (k0 = k) then n else 0) + tally k d.
Proof. unfold tally. rewrite filter_cons. cbn [fst]. by case_decide. Qed.

Lemma tally_count_type k ty d :
  tally k (Docs.count_type ty d) = tally k d + (if decide (k = ty) then 1 else 0).
Proof.
  induction d as [|[k0 n] d IH]; cbn [Docs.count_type].
  - rewrite tally_cons. unfold tally. cbn. repeat case_decide; first [congruence|lia].
  - destruct (decide (k0 = ty)) as [->|Hne]; rewrite !tally_cons.
    + repeat case_decide; first [congruence|lia].
    + rewrite IH. lia.
Qed.

Lemma count_type_keys ty d :
  (Docs.count_type ty d).*1 = if decide (ty ∈ d.*1) then d.*1 else d.*1 ++ [ty].
Proof.
  induction d as [|[k0 n] d IH]; cbn [Docs.count_type]; [done|].
  rewrite !fmap_cons. cbn [fst].
  destruct (decide (k0 = ty)) as [->|Hne].
  - by rewrite decide_True by (by left).
  - rewrite fmap_cons, IH. cbn [fst].
    destruct (decide (ty ∈ d.*1)).
    + by rewrite decide_True by (by right).
    + rewrite decide_False; [done|]. rewrite not_elem_of_cons. split; congruence.
Qed.

Lemma count_type_NoDup ty d : NoDup d.*1 → NoDup (Docs.count_type ty d).*1.
Proof.
  intros Hd. rewrite count_type_keys. case_decide; [done|].
  apply NoDup_app. split; [done|]. split; [|apply NoDup_singleton].
  intros x Hx ->%list_elem_of_singleton. done.
Qed.

Lemma count_type_positive ty d :
  Forall (λ kv, 0 < kv.2) d → Forall (λ kv, 0 < kv.2) (Docs.count_type ty d).
Proof.
  induction 1 as [|[k0 n] d Hn Hd IH]; cbn [Docs.count_type].
  - repeat constructor.
  - case_decide; constructor; cbn in *; first [done|lia].
Qed.

Lemma sum_list_cons (x : nat) (l : list nat) : sum_list (x :: l) = x + sum_list l.
Proof. done. Qed.

Lemma count_type_sum ty d : sum_list (Docs.count_type ty d).*2 = S (sum_list d.*2).
Proof.
  induction d as [|[k0 n] d IH]; cbn [Docs.count_type]; [done|].
  case_decide; rewrite !fmap_cons, !sum_list_cons; cbn [snd]; [done|].
  rewrite IH. lia.
Qed.

Lemma tally_absent k d : k ∉ d.*1 → tally k d = 0.
Proof.
  induction d as [|[k0 n] d IH]; [done|].
  rewrite fmap_cons, not_elem_of_cons, tally_cons. cbn [fst]. intros [Hne Hk].
  rewrite decide_False by congruence. by rewrite IH.
Qed.

Lemma tally_elem k (n : nat) d : NoDup d.*1 → (k, n) ∈ d → tally k d = n.
Proof.
  induction d as [|[k0 n0] d IH]; [by intros _ ?%elem_of_nil|].
  rewrite fmap_cons, NoDup_cons, tally_cons. cbn [fst]. intros [Hk0 Hnd].
  intros [[= -> ->]|Hin]%elem_of_cons.
  - rewrite decide_True by done. rewrite tally_absent by done. lia.
  - rewrite decide_False, IH; [done..|].
    intros ->. apply Hk0, list_elem_of_fmap. by exists (k, n).
Qed.

Lemma tally_present k d : 0 < tally k d → ∃ n, (k, n) ∈ d.
Proof.
  induction d as [|[k0 n0] d IH]; [unfold tally; cbn; lia|].
  rewrite tally_cons. case_decide as Hk.
  - subst k0. intros _. exists n0. by left.
  - intros [n Hn]%IH. exists n. by right.
Qed.

Lemma occurrences_snoc k ms m :
  occurrences k (ms ++ [m]) = occurrences k ms + (if decide (k = type m) then 1 else 0).
Proof.
  unfold occurrences. rewrite filter_app, length_app, filter_cons, filter_nil.
  repeat case_decide; cbn; first [congruence|lia].
Qed.

(** What the counting loop has built after the matches [ms], if it
    started with the dictionary [d]. *)
Lemma counting_loop d ms :
  NoDup d.*1 → Forall (λ kv, 0 < kv.2) d →
  let d' := foldl (λ d m, Docs.count_type (type m) d) d ms in
  NoDup d'.*1 ∧ Forall (λ kv, 0 < kv.2) d' ∧
  (∀ k, tally k d' = tally k d + occurrences k ms) ∧
  sum_list d'.*2 = sum_list d.*2 + length ms.
Proof.
  intros Hd Hpos. induction ms as [|m ms IH] using rev_ind; cbn zeta.
  - cbn [foldl]. split; [done|]. split; [done|]. split; [|cbn [length]; lia].
    intros k. unfold occurrences. rewrite filter_nil. cbn [length]. lia.
  - rewrite foldl_snoc. destruct IH as (Hnd & Hp & Ht & Hs).
    split; [by apply count_type_NoDup|]. split; [by apply count_type_positive|].
    split.
    + intros k. rewrite tally_count_type, Ht, occurrences_snoc. lia.
    + rewrite count_type_sum, Hs, length_app. cbn. lia.
Qed.

Lemma counts_elem d ms :
  NoDup d.*1 → Forall (λ kv, 0 < kv.2) d → (∀ k, tally k d = occurrences k ms) →
  ∀ ty (n : nat), (ty, n) ∈ d ↔ 0 < n ∧ n = occurrences ty ms.
Proof.
  intros Hnd Hpos Ht ty n. split.
  - intros Hin. rewrite Forall_forall in Hpos. split; [apply (Hpos _ Hin)|].
    rewrite <- (tally_elem ty n _ Hnd Hin). apply Ht.
  - intros [Hn ->]. rewrite <- Ht in Hn |- *.
    destruct (tally_present _ _ Hn) as [n Hin].
    by rewrite (tally_elem ty n _ Hnd Hin).
Qed.

Lemma type_counts_spec ms :
  NoDup (type_counts ms).*1 ∧
  sum_list (type_counts ms).*2 = length ms ∧
  ∀ ty (n : nat), (ty, n) ∈ type_counts ms ↔ 0 < n ∧ n = occurrences ty ms.
Proof.
  destruct (counting_loop [] ms) as (Hnd & Hpos & Ht & Hs); [constructor..|].
  cbn zeta in *. fold (type_counts ms) in *.
  split; [done|]. split; [exact Hs|]. by apply counts_elem.
Qed.

Lemma foldl_count_match st ms :
  foldl count_match st ms =
    {| total_matches := total_matches st + length ms;
       documents_with_pii := documents_with_pii st;
       type_distribution :=
         foldl (λ d m, Docs.count_type (type m) d) (type_distribution st) ms |}.
Proof.
  revert st. induction ms as [|m ms IH]; intros st; cbn [foldl length].
  - destruct st. cbn. f_equal. lia.
  - rewrite IH. unfold count_match. cbn. f_equal. lia.
Qed.

Lemma foldl_count_result st results :
  foldl count_result st results =
    {| total_matches := total_matches st + length (flat_map matches results);
       documents_with_pii :=
         documents_with_pii st + length (filter (λ r, pii_detected r = true) results);
       type_distribution :=
         foldl (λ d m, Docs.count_type (type m) d) (type_distribution st)
               (flat_map matches results) |}.
Proof.
  revert st. induction results as [|r results IH]; intros st; cbn [foldl flat_map].
  - destruct st. cbn. f_equal; lia.
  - rewrite IH. unfold count_result. rewrite foldl_count_match, filter_cons.
    rewrite length_app, foldl_app.
    destruct (pii_detected r); cbn; [rewrite decide_True by done|
                                     rewrite decide_False by done]; cbn; f_equal; lia.
Qed.

Lemma detect_pii_flag (svc : PIIService) (t : str) (mask : bool) :
  pii_detected (detect_pii svc t mask) = nonempty (matches (detect_pii svc t mask)).
Proof.
  unfold detect_pii. destruct (enabled svc); cbn [negb pii_detected matches]; [|done].
  by destruct (regex_matches t ++ ner_matches svc t).
Qed.

(** X8.  The three counters of [get_pii_stats] agree with one another:
    [total_matches] is the number of matches of all results and the sum of
    the counts of the distribution; the distribution has one entry for
    every type that occurs, with the number of its matches; over the
    results of [detect_in_chunks] the number of chunks with PII is at most
    the number of chunks and at most the number of matches, and one is zero
    exactly when the other is. *)
Theorem get_pii_stats_totals results :
  let st := get_pii_stats results in
  let ms := flat_map matches results in
  (total_matches st = length ms ∧
   documents_with_pii st = length (filter (λ r, pii_detected r = true) results) ∧
   type_distribution st = Docs.type_distribution results) ∧
  (NoDup (type_distribution st).*1 ∧
   sum_list (type_distribution st).*2 = total_matches st ∧
   ∀ ty (n : nat), (ty, n) ∈ type_distribution st ↔ 0 < n ∧ n = occurrences ty ms) ∧
  ∀ (svc : PIIService) (chunks : list str) (mask : bool),
    results = detect_in_chunks svc chunks mask →
    documents_with_pii st ≤ length chunks ∧
    documents_with_pii st ≤ total_matches st ∧
    (documents_with_pii st = 0 ↔ total_matches st = 0).
Proof.
  intros st ms. subst st ms. unfold get_pii_stats. rewrite foldl_count_result.
  cbn [total_matches documents_with_pii type_distribution Nat.add].
  fold (type_counts (flat_map matches results)).
  destruct (type_counts_spec (flat_map matches results)) as (Hnd & Hs & Hd).
  split; [done|]. split; [done|].
  intros svc chunks mask ->. clear Hnd Hs Hd. unfold detect_in_chunks.
  induction chunks as [|c chunks (IH1 & IH2 & IH3)]; [cbn; lia|].
  cbn [map flat_map]. rewrite filter_cons, length_app, detect_pii_flag.
  destruct (matches (detect_pii svc c mask)); cbn [nonempty length].
  - rewrite decide_False by done. cbn. lia.
  - rewrite decide_True by done. cbn. lia.
Qed.

Lemma pretty_N_char_is_digit (x : N) : is_digit (pretty_N_char x) = true.
Proof. unfold pretty_N_char. by repeat case_match. Qed.

Lemma pretty_N_go_digits (x : N) (acc : string) :
  Forall (λ c, is_digit c = true) (txt acc) →
  Forall (λ c, is_digit c = true) (txt (pretty_N_go x acc)).
Proof.
  revert acc. induction (N.lt_wf_0 x) as [x _ IH]; intros acc Hacc.
  assert (x = 0 ∨ 0 < x)%N as [->|Hpos] by lia; [by rewrite pretty_N_go_0|].
  rewrite pretty_N_go_step by done. apply IH; [by apply N.div_lt|].
  cbn. constructor; [apply pretty_N_char_is_digit|done].
Qed.

Lemma pretty_digits (i : nat) : Forall (λ c, is_digit c = true) (txt (pretty i)).
Proof.
  unfold pretty, pretty_nat, pretty, pretty_N. case_decide.
  - by repeat constructor.
  - apply pretty_N_go_digits. constructor.
Qed.

(** X9.  The summary says that nothing was found exactly when there is no
    match; otherwise it names every type that occurs once, with the number
    of its matches, and these numbers add up to the number of matches.  The
    counts are those [get_pii_stats] gives for the same result. *)
Theorem summary_counts r :
  (summary r = txt "Keine PII erkannt" ↔ matches r = []) ∧
  type_counts (matches r) = type_distribution (get_pii_stats [r]) ∧
  NoDup (type_counts (matches r)).*1 ∧
  sum_list (type_counts (matches r)).*2 = length (matches r) ∧
  ∀ ty (n : nat), (ty, n) ∈ type_counts (matches r)
                  ↔ 0 < n ∧ n = occurrences ty (matches r).
Proof.
  assert (type_counts (matches r) = type_distribution (get_pii_stats [r])) as Heq.
  { unfold get_pii_stats. rewrite foldl_count_result. cbn. by rewrite app_nil_r. }
  destruct (type_counts_spec (matches r)) as (Hnd & Hs & Hd).
  split; [|done].
  unfold summary. split; [|by intros ->].
  destruct (matches r) as [|m ms] eqn:Hms; [done|]. cbn [nonempty negb].
  destruct (type_counts (m :: ms)) as [|[ty n] d] eqn:Hd'.
  { done. }
  cbn [map fst snd].
  destruct (join_prefix (txt ", ") [txt (pretty n) ++ txt "x " ++ ty]
              (map (λ kv, txt (pretty kv.2) ++ txt "x " ++ kv.1) d)) as [u Hu].
  cbn [app] in Hu. rewrite Hu. cbn [Chunker.join].
  pose proof (pretty_digits n) as Hdig.
  destruct (txt (pretty n)) as [|c p]; [done|].
  apply Forall_cons in Hdig as [Hc _]. intros [= -> _]. done.
Qed.

End Reports.

(** ** Batches of embedding calls *)

Section Batches.
Import Sys Llm.

Implicit Types (w : World) (env : Env) (l texts : list str) (es : list Embedding)
  (base i j b : nat).

Lemma for_each_app {A B} (f : A → M B) (l1 l2 : list A) w :
  for_each f (l1 ++ l2) w =
    match for_each f l1 w with
    | (Return ys, w1) =>
        match for_each f l2 w1 with
        | (Return zs, w2) => (Return (ys ++ zs), w2)
        | (Raise e, w2) => (Raise e, w2)
        end
    | (Raise e, w1) => (Raise e, w1)
    end.
Proof.
  revert w. induction l1 as [|x l1 IH]; intros w.
  - cbn [app for_each]. unfold ret.
    by destruct (for_each f l2 w) as [[zs|e] w2].
  - cbn [app]. rewrite !for_each_cons. destruct (f x w) as [[y|e] w1]; [|done].
    rewrite IH. destruct (for_each f l1 w1) as [[ys|e] w2]; [|done].
    by destruct (for_each f l2 w2) as [[zs|e] w3].
Qed.

(** A loop over batches with a loop over each batch is one loop over all
    the elements. *)
Lemma for_each_concat {A B C} (f : A → M B) (g : C → list A) (cs : list C) w :
  bind (for_each (λ c, for_each f (g c)) cs) (λ bs, ret (concat bs)) w
  = for_each f (concat (g <$> cs)) w.
Proof.
  unfold bind. revert w. induction cs as [|c cs IH]; intros w; [done|].
  rewrite fmap_cons. cbn [concat]. rewrite for_each_app, for_each_cons.
  destruct (for_each f (g c) w) as [[ys|e] w1]; [|done].
  specialize (IH w1).
  destruct (for_each (λ c, for_each f (g c)) cs w1) as [[bs|e] w2];
    rewrite <- IH; done.
Qed.

Lemma answers_lookup env base l i :
  answers env base l !! i = client_embeddings env (base + i) <$> l !! i.
Proof.
  revert base i. induction l as [|t l IH]; intros base [|i]; cbn; try done.
  - by rewrite Nat.add_0_r.
  - rewrite IH. by rewrite Nat.add_succ_r.
Qed.

Lemma answers_cases env base l :
  (∃ es, answers env base l = Some <$> es) ∨ (∃ i, fails_first env base l i).
Proof.
  revert base. induction l as [|t l IH]; intros base; [left; by exists []|].
  cbn [answers]. destruct (client_embeddings env base t) as [e|] eqn:He.
  - destruct (IH (S base)) as [[es Hes]|[i [Hi Hlt]]].
    + left. exists (e :: es). by rewrite Hes.
    + right. exists (S i). split; [cbn [answers]; by rewrite He|].
      intros [|j] Hj; cbn [answers]; rewrite He; [by exists e|].
      apply Hlt. lia.
  - right. exists 0. split; [cbn [answers]; by rewrite He|]. intros j Hj. lia.
Qed.

(** The loop over the texts asks the client once for each text, in order,
    until an answer fails. *)
Lemma for_each_embedding env l w :
  (∀ es, answers env (length (embed_calls w)) l = Some <$> es →
         for_each (generate_embedding env) l w = (Return es, add_calls l w)) ∧
  (∀ i, fails_first env (length (embed_calls w)) l i →
        for_each (generate_embedding env) l w
        = (Raise RuntimeError, add_calls (take (S i) l) w)).
Proof.
  revert w. induction l as [|t l IH]; intros w.
  - split.
    + intros [|e es] Hes; [|done]. unfold add_calls. rewrite app_nil_r. by destruct w.
    + intros i [Hi _]. cbn [answers] in Hi. by rewrite lookup_nil in Hi.
  - rewrite for_each_cons. unfold generate_embedding at 1 3.
    set (w1 := {| collection := collection w;
                  documents_metadata := documents_metadata w;
                  metadata_file := metadata_file w;
                  embed_calls := embed_calls w ++ [t];
                  audit_rows := audit_rows w |}).
    assert (length (embed_calls w1) = S (length (embed_calls w))) as Hbase
      by (cbn; rewrite length_app; cbn; lia).
    assert (∀ k, add_calls k w1 = add_calls (t :: k) w) as Hadd.
    { intros k. unfold add_calls. cbn. by rewrite <- app_assoc. }
    destruct (IH w1) as [IHok IHfail]. rewrite Hbase in IHok, IHfail.
    cbn [answers]. split.
    + intros [|e es] Hes; [done|]. rewrite fmap_cons in Hes.
      injection Hes as He Hes. rewrite He, (IHok es Hes), Hadd. done.
    + intros [|i] [Hi Hlt]; cbn [lookup list_lookup] in Hi.
      * injection Hi as ->. unfold add_calls. done.
      * destruct (Hlt 0) as [e He]; [lia|]. cbn in He. injection He as ->.
        rewrite (IHfail i), Hadd; [done|]. split; [done|].
        intros j Hj. apply (Hlt (S j)). lia.
Qed.

Lemma batch_is_loop env texts b w :
  0 < b →
  generate_embeddings_batch env texts b w = for_each (generate_embedding env) texts w.
Proof.
  intros Hb. unfold generate_embeddings_batch. destruct b as [|b]; [lia|].
  unfold mbind, M_bind, mret, M_ret.
  rewrite (for_each_concat (generate_embedding env)
             (λ i, Text.slice i (i + S b) texts)).
  rewrite range_step_cover by lia. done.
Qed.

(** X10.  Batching is not observable: for every positive batch size the batch
    run is one embedding call per text, in the order of the texts, with
    the same result and the same calls; a batch size of zero raises an
    error before any call. *)
Theorem batch_size_is_transparent env texts w :
  generate_embeddings_batch env texts 0 w = (Raise ValueError, w) ∧
  ∀ b, 0 < b →
       generate_embeddings_batch env texts b w
       = for_each (generate_embedding env) texts w.
Proof. split; [done|]. intros b Hb. by apply batch_is_loop. Qed.

Lemma batch_size_is_transparent_witness :
  generate_embeddings_batch quiet three_texts 2 Docs.empty_world
  = for_each (generate_embedding quiet) three_texts Docs.empty_world.
Proof.
  apply (proj2 (batch_size_is_transparent quiet three_texts Docs.empty_world) 2). lia.
Defined.

(** X11.  A batch run returns the vectors the client answers, one for each text
    in the order of the texts, when every call is answered; it stops at the
    first call that fails, with the error of [generate_embedding], after
    exactly the calls up to that one.  Nothing but the record of the calls
    changes. *)
Theorem batch_run_outcome env texts b w :
  0 < b →
  let r := generate_embeddings_batch env texts b w in
  let base := length (embed_calls w) in
  (∀ es, answers env base texts = Some <$> es → r = (Return es, add_calls texts w)) ∧
  (∀ i, fails_first env base texts i →
        r = (Raise RuntimeError, add_calls (take (S i) texts) w)) ∧
  ((∃ es, answers env base texts = Some <$> es) ∨ (∃ i, fails_first env base texts i)).
Proof.
  intros Hb r base. subst r base. rewrite batch_is_loop by done.
  destruct (for_each_embedding env texts w) as [Hok Hfail].
  split; [done|]. split; [done|]. apply answers_cases.
Qed.

Lemma batch_run_outcome_witness :
  generate_embeddings_batch second_fails three_texts 10 Docs.empty_world
  = (Raise RuntimeError, add_calls [txt "a"; txt "b"] Docs.empty_world).
Proof.
  destruct (batch_run_outcome second_fails three_texts 10 Docs.empty_world)
    as (_ & Hfail & _); [lia|].
  apply (Hfail 1). split; [reflexivity|].
  intros j Hj. exists [1%Z]. destruct j; [reflexivity|lia].
Defined.

End Batches.

(** ** Erasure from the collection *)

Section Erasure.
Import Sys Store Docs.

Implicit Types (w : World) (env : Env) (d k : str) (e : Entry) (c : gmap str Entry).

Lemma without_lookup d c k e :
  without d c !! k = Some e ↔ c !! k = Some e ∧ document_id (metadata e) ≠ d.
Proof. unfold without. by rewrite map_lookup_filter_Some. Qed.

(** Deleting the identifiers found for a document removes the records of
    that document and no other. *)
Lemma delete_ids_without d c : delete_ids (ids_of d c) c = without d c.
Proof.
  apply map_eq. intros k. apply option_eq. intros e.
  rewrite without_lookup, delete_ids_lookup. case_decide as Hk.
  - apply ids_of_elem in Hk as (e' & He' & Hd). split; [done|].
    intros [He Hne]. congruence.
  - split; [|by intros [He _]].
    intros He. split; [done|]. intros Hd. apply Hk, ids_of_elem. by exists e.
Qed.

Lemma ids_of_nonempty d c :
  Pii.nonempty (ids_of d c) = true ↔
  ∃ k e, c !! k = Some e ∧ document_id (metadata e) = d.
Proof.
  split.
  - destruct (ids_of d c) as [|k ks] eqn:Hids; [done|]. intros _.
    assert (k ∈ ids_of d c) as Hk by (rewrite Hids; by left).
    apply ids_of_elem in Hk as (e & ? & ?). by exists k, e.
  - intros (k & e & He & Hd).
    assert (k ∈ ids_of d c) as Hk by (apply ids_of_elem; by exists e).
    destruct (ids_of d c); [by apply elem_of_nil in Hk|done].
Qed.

Lemma delete_by_document_id_eq env d w :
  delete_by_document_id env d w =
    if collection_get_ok env && Pii.nonempty (ids_of d (collection w))
       && collection_delete_ok env
    then (Return true, set_collection (without d (collection w)) w)
    else (Return false, w).
Proof.
  unfold delete_by_document_id, try_except, delete_chunks, mbind, M_bind, bind,
    get_world, modify, mret, M_ret, ret, raise.
  destruct (collection_get_ok env); cbn [andb]; [|done].
  destruct (Pii.nonempty (ids_of d (collection w))); cbn [andb]; [|done].
  destruct (collection_delete_ok env); [|done].
  by rewrite delete_ids_without.
Qed.

(** X12.  [delete_by_document_id] never raises.  It answers [True] exactly when
    the collection answers the lookup, holds a record of the document and
    carries out the deletion; then the records of the document are gone and
    every other record is as before.  When it answers [False] nothing has
    changed. *)
Theorem delete_by_document_id_outcome env d w :
  let r := delete_by_document_id env d w in
  ∃ b : bool,
    r.1 = Return b ∧
    (b = true ↔ collection_get_ok env = true ∧ collection_delete_ok env = true ∧
                ∃ k e, collection w !! k = Some e ∧ document_id (metadata e) = d) ∧
    (b = false → r.2 = w) ∧
    (b = true →
       r.2 = set_collection (without d (collection w)) w ∧
       ∀ k e, collection r.2 !! k = Some e
              ↔ collection w !! k = Some e ∧ document_id (metadata e) ≠ d).
Proof.
  intros r. subst r. rewrite delete_by_document_id_eq.
  pose proof (ids_of_nonempty d (collection w)) as Hids.
  destruct (collection_get_ok env), (Pii.nonempty (ids_of d (collection w))),
    (collection_delete_ok env); cbn [andb fst snd].
  1: { exists true. split; [done|]. split; [by rewrite <- Hids|]. split; [done|].
       intros _. split; [done|]. intros k e. cbn [set_collection collection].
       apply without_lookup. }
  all: exists false; split; [done|]; split; [|done].
  all: split; [done|]; intros (? & ? & Hex); try done.
  all: apply Hids in Hex; done.
Qed.

(** The queries of the collection. *)
Lemma get_document_chunks_elem env d w (ch : Query.Chunk) :
  ch ∈ Query.get_document_chunks env d w ↔
  collection_get_ok env = true ∧
  ∃ e, collection w !! Query.chunk_key ch = Some e ∧ document_id (metadata e) = d ∧
       Query.content ch = document e ∧ Query.chunk_metadata ch = metadata e.
Proof.
  unfold Query.get_document_chunks. destruct (collection_get_ok env).
  - rewrite list_elem_of_fmap. split.
    + intros ([k e] & -> & Hin). apply elem_of_map_to_list in Hin.
      apply map_lookup_filter_Some in Hin as [He Hd]. split; [done|]. by exists e.
    + intros (_ & e & He & Hd & Hc & Hm). exists (Query.chunk_key ch, e).
      split; [destruct ch; cbn in *; by subst|].
      apply elem_of_map_to_list, map_lookup_filter_Some. done.
  - split; [by intros ?%elem_of_nil|by intros [? _]].
Qed.

Lemma collected_ids {A} (f : A → str) (l : list A) (s : gset str) (x : str) :
  x ∈ foldl (λ doc_ids m, doc_ids ∪ {[f m]}) s l ↔ x ∈ s ∨ ∃ m, m ∈ l ∧ f m = x.
Proof.
  revert s. induction l as [|m l IH]; intros s; cbn [foldl].
  - split; [by left|]. intros [?|(m & Hm%elem_of_nil & _)]; done.
  - rewrite IH, elem_of_union, elem_of_singleton. split.
    + intros [[?| ->]|(m' & Hm' & <-)]; [by left|right..].
      * exists m. split; [by left|done].
      * exists m'. split; [by right|done].
    + intros [?|(m' & [->|Hm']%elem_of_cons & <-)]; [by left; left|by left; right|].
      right. by exists m'.
Qed.

Lemma collected_size {A} (f : A → str) (l : list A) (s : gset str) :
  size (foldl (λ doc_ids m, doc_ids ∪ {[f m]}) s l) ≤ size s + length l.
Proof.
  revert s. induction l as [|m l IH]; intros s; cbn [foldl length]; [lia|].
  etrans; [apply IH|].
  destruct (decide (f m ∈ s)) as [Hin|Hout].
  - replace (s ∪ {[f m]}) with s; [lia|].
    apply set_eq. intros y. rewrite elem_of_union, elem_of_singleton.
    split; [by left|]. by intros [?| ->].
  - rewrite size_union, size_singleton; [lia|].
    intros y Hy ->%elem_of_singleton. done.
Qed.

Lemma get_all_document_ids_elem env w d :
  d ∈ Query.get_all_document_ids env w ↔
  collection_get_ok env = true ∧
  ∃ k e, collection w !! k = Some e ∧ document_id (metadata e) = d.
Proof.
  unfold Query.get_all_document_ids. destruct (collection_get_ok env);
    [|split; [by intros ?%elem_of_nil|by intros [? _]]].
  cbn zeta. destruct (map _ (map_to_list (collection w))) as [|m0 ms] eqn:Hl;
    cbn [Pii.nonempty negb].
  - split; [by intros ?%elem_of_nil|]. intros (_ & k & e & He & _).
    apply elem_of_map_to_list in He.
    apply (list_elem_of_fmap_2 (λ kv : str * Entry, metadata kv.2)) in He.
    change (fmap (M:=list) ?f) with (map f) in He. rewrite Hl in He.
    by apply elem_of_nil in He.
  - rewrite <- Hl. rewrite elem_of_elements, collected_ids. split.
    + intros [?%elem_of_empty|(m & Hm & <-)]; [done|]. split; [done|].
      apply list_elem_of_fmap in Hm as ([k e] & -> & Hin%elem_of_map_to_list).
      by exists k, e.
    + intros (_ & k & e & He & <-). right. exists (metadata e). split; [|done].
      apply list_elem_of_fmap. exists (k, e). split; [done|].
      by apply elem_of_map_to_list.
Qed.

(** X13.  The queries of the collection agree with one another:
    [get_all_document_ids] lists each document that has a chunk once,
    these are the documents for which [get_document_chunks] finds
    something, every chunk found for a document is a record of the
    collection that carries the document's identifier, and [get_stats]
    never counts more documents than chunks. *)
Theorem store_queries_agree env w :
  NoDup (Query.get_all_document_ids env w) ∧
  (∀ d, d ∈ Query.get_all_document_ids env w ↔ Query.get_document_chunks env d w ≠ []) ∧
  (∀ d (ch : Query.Chunk), ch ∈ Query.get_document_chunks env d w →
     document_id (Query.chunk_metadata ch) = d ∧
     ∃ e, collection w !! Query.chunk_key ch = Some e ∧
          Query.content ch = document e ∧ Query.chunk_metadata ch = metadata e) ∧
  ∀ count_ok : bool,
    Query.total_documents (Query.get_stats env count_ok w)
    ≤ Query.total_chunks (Query.get_stats env count_ok w).
Proof.
  split; [|split; [|split]].
  - unfold Query.get_all_document_ids. destruct (collection_get_ok env);
      [|constructor]. cbn zeta. destruct (negb _); [constructor|apply NoDup_elements].
  - intros d. rewrite get_all_document_ids_elem. split.
    + intros (Hok & k & e & He & Hd) Hnil.
      assert ({| Query.chunk_key := k; Query.content := document e;
                 Query.chunk_metadata := metadata e |}
              ∈ Query.get_document_chunks env d w) as Hin.
      { apply get_document_chunks_elem. split; [done|]. by exists e. }
      rewrite Hnil in Hin. by apply elem_of_nil in Hin.
    + destruct (Query.get_document_chunks env d w) as [|ch chs] eqn:Hchs; [done|].
      intros _. assert (ch ∈ Query.get_document_chunks env d w) as Hin
        by (rewrite Hchs; by left).
      apply get_document_chunks_elem in Hin as (Hok & e & He & Hd & _).
      split; [done|]. by exists (Query.chunk_key ch), e.
  - intros d ch (Hok & e & He & Hd & Hc & Hm)%get_document_chunks_elem.
    split; [by rewrite Hm|]. by exists e.
  - intros [|]; [|done]. unfold Query.get_stats, Query.get_all_document_ids.
    cbn [Query.total_documents Query.total_chunks].
    destruct (collection_get_ok env); [|cbn; lia]. cbn zeta.
    destruct (negb _); [cbn; lia|].
    change (length (elements ?X)) with (size X).
    etrans; [apply collected_size|].
    rewrite size_empty, length_map, length_map_to_list. lia.
Qed.

(** X14.  With a collection that answers, erasing a document the dictionary
    knows removes it from both stores: no record of the collection carries
    its identifier any more, the queries find nothing for it, and every
    other document keeps its record and its chunks. *)
Theorem erase_with_working_index env d w :
  collection_get_ok env = true → collection_delete_ok env = true →
  is_Some (documents_metadata w !! d) →
  let r := delete_document env d w in
  r.1 = Return true ∧
  (∀ k e, collection r.2 !! k = Some e
          ↔ collection w !! k = Some e ∧ document_id (metadata e) ≠ d) ∧
  get_document r.2 d = None ∧
  Query.get_document_chunks env d r.2 = [] ∧
  (d ∉ Query.get_all_document_ids env r.2) ∧
  ∀ d', d' ≠ d →
        get_document r.2 d' = get_document w d' ∧
        Query.get_document_chunks env d' r.2 = Query.get_document_chunks env d' w.
Proof.
  intros Hget Hdel Hd r. subst r. rewrite delete_document_spec.
  rewrite decide_True by (by apply elem_of_dom). cbn zeta.
  rewrite Hget, Hdel. cbn [andb fst snd]. rewrite delete_ids_without.
  assert (∀ d', filter (λ kv : str * Entry, document_id (metadata kv.2) = d')
                       (without d (collection w))
                = if decide (d' = d) then ∅
                  else filter (λ kv : str * Entry, document_id (metadata kv.2) = d')
                              (collection w)) as Hfilter.
  { intros d'. apply map_eq. intros k. apply option_eq. intros e.
    rewrite map_lookup_filter_Some, without_lookup. cbn [snd]. case_decide as Hdd.
    - subst d'. rewrite lookup_empty. split; [by intros [[_ ?] ?]|done].
    - rewrite map_lookup_filter_Some. cbn [snd]. split; [by intros [[? _] ?]|].
      intros [? <-]. done. }
  split; [done|]. split; [intros k e; apply without_lookup|].
  unfold get_document. cbn [documents_metadata collection].
  split; [apply lookup_delete_eq|].
  split.
  { unfold Query.get_document_chunks. rewrite Hget. cbn [collection].
    rewrite Hfilter, decide_True by done. by rewrite map_to_list_empty. }
  split.
  { intros (_ & k & e & He & Hde)%get_all_document_ids_elem. cbn [collection] in He.
    apply without_lookup in He as [_ Hne]. done. }
  intros d' Hne. split; [by apply lookup_delete_ne|].
  unfold Query.get_document_chunks. rewrite Hget. cbn [collection].
  by rewrite Hfilter, decide_False.
Qed.

Lemma erase_with_working_index_witness :
  let r := delete_document quiet (txt "d1") uploaded in
  r.1 = Return true ∧ collection r.2 = ∅ ∧
  Query.get_document_chunks quiet (txt "d1") r.2 = [].
Proof.
  intros r.
  assert (is_Some (documents_metadata uploaded !! txt "d1")) as Hd
    by (vm_compute; by eexists).
  destruct (erase_with_working_index quiet (txt "d1") uploaded eq_refl eq_refl Hd)
    as (Hr & _ & _ & Hch & _).
  split; [exact Hr|]. split; [vm_compute; reflexivity|exact Hch].
Defined.

End Erasure.

(** ** Ingestion, step by step *)

Section Ingestion.
Import Sys Llm Store Docs.

Implicit Types (w : World) (env : Env) (svc : DocumentService) (d : str)
  (es : list Embedding) (i : nat).

(** [process_document] as one case distinction. *)
Lemma process_document_eq svc env (filename content file_type user_id : str) w :
  process_document svc env filename content file_type user_id w =
    match _extract_text env content file_type with
    | None | Some [] => (Raise ValueError, w)
    | Some _ =>
        match for_each (generate_embedding env)
                (masked_of svc (chunks_of svc env content file_type)) w with
        | (Raise e, w1) => (Raise e, w1)
        | (Return es, w1) =>
            if decide (chunks_of svc env content file_type = []) then
              (Raise ValueError, w1)
            else if collection_add_ok env then
              (if audit_ok env
               then Return (result_of svc env filename content file_type)
               else Raise AuditError,
               stored svc env filename content file_type user_id es w1)
            else (Raise (if collection_add_value_error env then ValueError
                         else ChromaError), w1)
        end
    end.
Proof.
  unfold process_document, stored, record_of, result_of, summary_of, flag_of,
    results_of, text_of, new_entries, chunks_of.
  destruct (_extract_text env content file_type) as [[|c0 text]|] eqn:Hext;
    [done| |done].
  cbn zeta. cbn [default].
  set (chunks := Chunker._chunk_text _ _ (c0 :: text)).
  change (map Pii.masked_text
            (map (λ chunk, Pii.detect_pii (pii_service svc) chunk true) chunks))
    with (masked_of svc chunks).
  unfold mbind, M_bind. unfold bind at 1. rewrite batch_is_loop by lia.
  destruct (for_each _ _ w) as [[es|e] w1]; [|done].
  unfold add_documents, collection_add.
  destruct (decide (chunks = [])) as [Hnil|Hne].
  { by rewrite Hnil. }
  assert (Pii.nonempty (map (chunk_id (uuid4 env))
                            (seq 0 (length (masked_of svc chunks)))) = true) as ->.
  { rewrite masked_of_length. destruct chunks; [done|reflexivity]. }
  cbn [negb]. destruct (collection_add_ok env); [|done].
  unfold mbind, M_bind, bind, modify, mret, M_ret, ret, _save_metadata, audit_log, raise,
    modify, set_collection, set_documents_metadata.
  destruct (audit_ok env); reflexivity.
Qed.

Lemma lower_char_idem (c : ascii) : lower_char (lower_char c) = lower_char c.
Proof. destruct c as [[] [] [] [] [] [] [] []]; reflexivity. Qed.

Lemma lower_idem (t : str) : lower (lower t) = lower t.
Proof.
  unfold lower. rewrite map_map. apply map_ext. intros c. apply lower_char_idem.
Qed.

(** X15.  The file type decides how the text is extracted, whatever the case of
    its letters.  A type that is none of the five known ones gives no text,
    and the ingestion ends with [ValueError] before anything is called or
    stored; so does a text file that decodes to the empty text. *)
Theorem extraction_by_type env (content file_type : str) :
  _extract_text env content file_type = _extract_text env content (lower file_type) ∧
  ((lower file_type ∉ supported) →
   _extract_text env content file_type = None ∧
   ∀ svc (filename user_id : str) w,
     process_document svc env filename content file_type user_id w
     = (Raise ValueError, w)) ∧
  (lower file_type ∈ [txt ".txt"; txt ".md"] →
   _extract_text env content file_type = Some (utf8_decode env content) ∧
   (utf8_decode env content = [] →
    ∀ svc (filename user_id : str) w,
      process_document svc env filename content file_type user_id w
      = (Raise ValueError, w))).
Proof.
  split; [unfold _extract_text; cbn zeta; by rewrite lower_idem|]. split.
  - intros Hout. unfold supported in Hout. rewrite !not_elem_of_cons in Hout.
    destruct Hout as (H1 & H2 & H3 & H4 & H5 & _).
    assert (_extract_text env content file_type = None) as Hnone.
    { unfold _extract_text. cbn zeta. rewrite decide_False by done.
      rewrite decide_False
        by (rewrite !elem_of_cons; intros [?|[?|?%elem_of_nil]]; done).
      rewrite decide_False
        by (rewrite !elem_of_cons; intros [?|[?|?%elem_of_nil]]; done).
      done. }
    split; [done|]. intros svc filename user_id w.
    by rewrite process_document_eq, Hnone.
  - intros Hin.
    assert (_extract_text env content file_type = Some (utf8_decode env content))
      as Hsome.
    { unfold _extract_text. cbn zeta.
      rewrite !elem_of_cons in Hin.
      destruct Hin as [->|[->|Hin%elem_of_nil]]; [reflexivity|reflexivity|done]. }
    split; [done|]. intros Hempty svc filename user_id w.
    by rewrite process_document_eq, Hsome, Hempty.
Qed.

Lemma extraction_by_type_witness :
  _extract_text quiet twice (txt ".TXT") = Some twice ∧
  upload quiet [] Docs.empty_world = (Raise ValueError, Docs.empty_world) ∧
  process_document service quiet (txt "a.exe") twice (txt ".exe") (txt "system")
                   Docs.empty_world
  = (Raise ValueError, Docs.empty_world).
Proof.
  split; [|split].
  - destruct (extraction_by_type quiet twice (txt ".TXT")) as (_ & _ & Htxt).
    apply Htxt. vm_compute. apply list_elem_of_here.
  - destruct (extraction_by_type quiet [] (txt ".txt")) as (_ & _ & Htxt).
    apply Htxt; [vm_compute; apply list_elem_of_here|reflexivity].
  - destruct (extraction_by_type quiet twice (txt ".exe")) as (_ & Hno & _).
    apply Hno. apply (bool_decide_unpack _). vm_compute. exact I.
Defined.

Lemma add_calls_nil w : add_calls [] w = w.
Proof. unfold add_calls. rewrite app_nil_r. by destruct w. Qed.

(** The ends of [process_document], one by one. *)
Lemma process_document_ends svc env (filename content file_type user_id : str) w :
  let r := process_document svc env filename content file_type user_id w in
  let chunks := chunks_of svc env content file_type in
  let prompts := masked_of svc chunks in
  let base := length (embed_calls w) in
  let extracted := _extract_text env content file_type in
  ((extracted = None ∨ extracted = Some []) ∧ r = (Raise ValueError, w)) ∨
  (extracted ≠ None ∧ extracted ≠ Some [] ∧
   ((∃ i, fails_first env base prompts i ∧
          r = (Raise RuntimeError, add_calls (take (S i) prompts) w)) ∨
    (∃ es, answers env base prompts = Some <$> es ∧
       let w' := stored svc env filename content file_type user_id es
                        (add_calls prompts w) in
       ((chunks = [] ∧ r = (Raise ValueError, w)) ∨
        (chunks ≠ [] ∧ collection_add_ok env = false ∧
         r = (Raise (if collection_add_value_error env then ValueError
                     else ChromaError), add_calls prompts w)) ∨
        (chunks ≠ [] ∧ collection_add_ok env = true ∧ audit_ok env = false ∧
         r = (Raise AuditError, w')) ∨
        (chunks ≠ [] ∧ collection_add_ok env = true ∧ audit_ok env = true ∧
         r = (Return (result_of svc env filename content file_type), w')))))).
Proof.
  intros r chunks prompts base extracted. subst r extracted.
  rewrite process_document_eq.
  destruct (_extract_text env content file_type) as [[|c0 text]|];
    [left; split; [by right|done]| |left; split; [by left|done]].
  right. split; [done|]. split; [done|].
  destruct (for_each_embedding env prompts w) as [Hok Hfail].
  destruct (answers_cases env base prompts) as [[es Hes]|[i Hi]].
  - right. exists es. split; [done|]. cbn zeta. fold chunks prompts.
    rewrite (Hok es Hes).
    destruct (decide (chunks = [])) as [Hnil|Hne].
    { left. split; [done|]. subst prompts. rewrite Hnil. cbn [masked_of map].
      by rewrite add_calls_nil. }
    right. destruct (collection_add_ok env); [|by left]. right.
    destruct (audit_ok env); [right|left]; done.
  - left. exists i. split; [done|]. fold chunks prompts. by rewrite (Hfail i Hi).
Qed.


Lemma answers_length env base (l : list str) : length (answers env base l) = length l.
Proof.
  revert base. induction l as [|t l IH]; intros base; [done|]. cbn. by rewrite IH.
Qed.

Lemma answered_length env base (l : list str) es :
  answers env base l = Some <$> es → length es = length l.
Proof.
  intros H%(f_equal length). by rewrite length_fmap, answers_length in H.
Qed.

Lemma answered_lookup env base (l : list str) es i (t : str) :
  answers env base l = Some <$> es → l !! i = Some t →
  ∃ e, es !! i = Some e ∧ client_embeddings env (base + i) t = Some e.
Proof.
  intros Hes Ht. pose proof (answers_lookup env base l i) as Hi.
  rewrite Hes, Ht, list_lookup_fmap in Hi. cbn in Hi.
  destruct (es !! i) as [e|]; [|done]. exists e. split; [done|]. by injection Hi.
Qed.

Lemma insert_all_distinct (es' : list (str * Entry)) (c : gmap str Entry) (k : str)
    (e : Entry) :
  NoDup es'.*1 → (k, e) ∈ es' → c !! k = None → insert_all es' c !! k = Some e.
Proof.
  intros Hnd Hin Hnone.
  destruct (insert_all_lookup es' c k) as [(e' & _ & He' & Hin')|[[Hs|Hout] _]].
  - by rewrite (assoc_unique es' k e e' Hnd Hin Hin').
  - rewrite Hnone in Hs. by destruct Hs.
  - destruct Hout. apply list_elem_of_fmap. by exists (k, e).
Qed.

Lemma insert_all_kept (es' : list (str * Entry)) (c : gmap str Entry) (k : str)
    (x : Entry) :
  c !! k = Some x → insert_all es' c !! k = Some x.
Proof.
  intros Hx.
  destruct (insert_all_lookup es' c k) as [(e' & Hnone & _)|[_ ->]]; [congruence|done].
Qed.

Lemma new_entries_NoDup svc env (filename content file_type : str) es :
  length es = length (chunks_of svc env content file_type) →
  NoDup (new_entries svc env filename content file_type es).*1.
Proof.
  intros Hes. rewrite new_entries_keys by done.
  apply NoDup_fmap_2; [|apply NoDup_seq].
  intros i j Hij. by apply chunk_id_inj in Hij as [_ ->].
Qed.

Lemma map_fmap {A B} (f : A → B) (l : list A) : map f l = f <$> l.
Proof. done. Qed.

(** The record handed to the collection for the chunk at index [i]. *)
Lemma new_entries_lookup svc env (filename content file_type : str) es i (chunk : str) :
  length es = length (chunks_of svc env content file_type) →
  chunks_of svc env content file_type !! i = Some chunk →
  ∃ e, es !! i = Some e ∧
       new_entries svc env filename content file_type es !! i
       = Some (chunk_id (uuid4 env) i,
               {| document :=
                    Pii.masked_text (Pii.detect_pii (pii_service svc) chunk true);
                  embedding := e;
                  metadata :=
                    {| document_id := uuid4 env; chunk_filename := filename;
                       chunk_index := i;
                       total_chunks := length (chunks_of svc env content file_type);
                       pii_masked := flag_of svc env content file_type;
                       chunk_uploaded_at := utcnow env i |} |}).
Proof.
  intros Hes Hchunk. pose proof (lookup_lt_Some _ _ _ Hchunk) as Hi.
  destruct (lookup_lt_is_Some_2 es i) as [e He]; [lia|]. exists e. split; [done|].
  unfold new_entries, entries. cbn zeta. rewrite !map_fmap.
  rewrite !lookup_zip_with, !list_lookup_fmap.
  rewrite (proj2 (lookup_seq 0 _ i i)) by (rewrite masked_of_length; split; [done|lia]).
  rewrite masked_of_lookup, Hchunk, He. cbn. by rewrite masked_of_length.
Qed.

Lemma stored_lookup svc env (filename content file_type user_id : str) es w i
    (chunk : str) :
  length es = length (chunks_of svc env content file_type) →
  chunks_of svc env content file_type !! i = Some chunk →
  collection w !! chunk_id (uuid4 env) i = None →
  ∃ e, es !! i = Some e ∧
       collection (stored svc env filename content file_type user_id es w)
         !! chunk_id (uuid4 env) i
       = Some {| document :=
                   Pii.masked_text (Pii.detect_pii (pii_service svc) chunk true);
                 embedding := e;
                 metadata :=
                   {| document_id := uuid4 env; chunk_filename := filename;
                      chunk_index := i;
                      total_chunks := length (chunks_of svc env content file_type);
                      pii_masked := flag_of svc env content file_type;
                      chunk_uploaded_at := utcnow env i |} |}.
Proof.
  intros Hes Hchunk Hfresh.
  destruct (new_entries_lookup svc env filename content file_type es i chunk Hes Hchunk)
    as (e & He & Hnew).
  exists e. split; [done|]. unfold stored. cbn [collection].
  apply insert_all_distinct; [by apply new_entries_NoDup| |done].
  by eapply list_elem_of_lookup_2.
Qed.

Lemma stored_kept svc env (filename content file_type user_id : str) es w (k : str)
    (x : Entry) :
  collection w !! k = Some x →
  collection (stored svc env filename content file_type user_id es w) !! k = Some x.
Proof. unfold stored. cbn [collection]. apply insert_all_kept. Qed.

(** X17.  An ingestion is all or nothing, but for the audit trail: an error
    other than that of the audit database leaves the collection, the
    dictionary and the file untouched; the error of the audit database
    comes after the document was stored, and the record and the chunks stay
    although the caller gets an exception.  Under each chunk identifier of
    the document the collection then holds a record of the document, or
    the record that stood under that identifier before, which an [add]
    does not replace; where every record of the collection stands under
    the identifier derived from its own document, that one too is a
    record of the document. *)
Theorem ingestion_is_atomic_but_for_audit svc env
    (filename content file_type user_id : str) w (e : exc) :
  let r := process_document svc env filename content file_type user_id w in
  r.1 = Raise e →
  (e ≠ AuditError →
   collection r.2 = collection w ∧ documents_metadata r.2 = documents_metadata w ∧
   metadata_file r.2 = metadata_file w ∧ audit_rows r.2 = audit_rows w) ∧
  (e = AuditError →
   get_document r.2 (uuid4 env)
   = Some (record_of svc env filename content file_type user_id) ∧
   audit_rows r.2 = audit_rows w ∧
   ∀ i, i < length (chunks_of svc env content file_type) →
        ∃ x, collection r.2 !! chunk_id (uuid4 env) i = Some x ∧
             (document_id (metadata x) = uuid4 env ∨
              collection w !! chunk_id (uuid4 env) i = Some x) ∧
             (owned w → document_id (metadata x) = uuid4 env)).
Proof.
  intros r Hr.
  destruct (process_document_ends svc env filename content file_type user_id w)
    as [[_ Heq]|(_ & _ & [(i & _ & Heq)
                          |(es & Hes & [[_ Heq]|[(_ & _ & Heq)
                                                |[(_ & _ & Haud & Heq)|(_ & _ & _ & Heq)]]])])];
    fold r in Heq; rewrite Heq in Hr |- *; cbn [fst snd] in *;
    [injection Hr as <-..|discriminate Hr].
  1-3: split; [done|done].
  { split; [done|]. by destruct (collection_add_value_error env). }
  split; [done|]. intros _. unfold get_document.
  split; [unfold stored; cbn [documents_metadata]; apply lookup_insert_eq|].
  split; [unfold stored; cbn [audit_rows add_calls]; by rewrite Haud|].
  intros i Hi. apply answered_length in Hes. rewrite masked_of_length in Hes.
  destruct (lookup_lt_is_Some_2 (chunks_of svc env content file_type) i Hi)
    as [chunk Hchunk].
  set (w1 := add_calls (masked_of svc (chunks_of svc env content file_type)) w).
  destruct (collection w !! chunk_id (uuid4 env) i) as [x|] eqn:Hold.
  - exists x. split; [apply stored_kept; subst w1; by cbn [add_calls collection]|].
    split; [by right|]. intros Hown. destruct (Hown _ _ Hold) as [j Hj].
    by apply chunk_id_inj in Hj as [-> _].
  - destruct (stored_lookup svc env filename content file_type user_id es w1
                i chunk Hes Hchunk) as (x & _ & Hx).
    { subst w1. by cbn [add_calls collection]. }
    eexists. split; [exact Hx|]. split; [by left|done].
Qed.

Lemma ingestion_is_atomic_but_for_audit_witness :
  let r := upload audit_fails twice Docs.empty_world in
  r.1 = Raise AuditError ∧
  (∃ meta, get_document r.2 (txt "d5") = Some meta) ∧
  ∃ x, collection r.2 !! chunk_id (txt "d5") 0 = Some x.
Proof.
  intros r.
  assert (r.1 = Raise AuditError) as Hr by (vm_compute; reflexivity).
  destruct (ingestion_is_atomic_but_for_audit service audit_fails (txt "a.txt") twice
              (txt ".txt") (txt "system") Docs.empty_world AuditError Hr)
    as [_ Haudit].
  destruct (Haudit eq_refl) as (Hdoc & _ & Hchunks).
  split; [exact Hr|]. split; [by eexists|].
  destruct (Hchunks 0) as (x & Hx & _); [vm_compute; lia|]. by exists x.
Defined.

End Ingestion.

(** ** What an ingestion leaves in the stores *)

Section Stored.
Import Sys Llm Store Docs.

Implicit Types (w : World) (env : Env) (svc : DocumentService) (d : str)
  (es : list Embedding) (i : nat) (p : Processed).

(** An ingestion that returns has reached the last of its six ends. *)
Lemma process_document_returned svc env (filename content file_type user_id : str) w :
  let r := process_document svc env filename content file_type user_id w in
  let prompts := masked_of svc (chunks_of svc env content file_type) in
  returned r →
  ∃ es, answers env (length (embed_calls w)) prompts = Some <$> es ∧
        (∃ c0 text, _extract_text env content file_type = Some (c0 :: text)) ∧
        r = (Return (result_of svc env filename content file_type),
             stored svc env filename content file_type user_id es (add_calls prompts w)).
Proof.
  intros r prompts Hr.
  destruct (process_document_ends svc env filename content file_type user_id w)
    as [[_ Heq]|(Hn & Hne & [(i & _ & Heq)
                             |(es & Hes & [[_ Heq]|[(_ & _ & Heq)
                                                   |[(_ & _ & _ & Heq)|(_ & _ & _ & Heq)]]])])];
    fold r in Heq; rewrite Heq in Hr; try done.
  exists es. split; [done|]. split; [|done].
  destruct (_extract_text env content file_type) as [[|c0 text]|]; [done| |done].
  by exists c0, text.
Qed.

(** X18.  What the collection holds for a document after its ingestion.  The
    prompt sent for the chunk at index [i] is the masked text of that
    chunk.  Where the collection held nothing under the identifier of the
    chunk, it now holds there that masked text, the vector the client
    answered for that very text, and the metadata of the chunk.  Where it
    held a record under that identifier, it still holds that record: [add]
    does not replace it. *)
Theorem stored_chunks_hold_masked_text svc env
    (filename content file_type user_id : str) w i (chunk : str) :
  let r := process_document svc env filename content file_type user_id w in
  let masked := Pii.masked_text (Pii.detect_pii (pii_service svc) chunk true) in
  returned r → chunks_of svc env content file_type !! i = Some chunk →
  embed_calls r.2 !! (length (embed_calls w) + i) = Some masked ∧
  (∀ old, collection w !! chunk_id (uuid4 env) i = Some old →
          collection r.2 !! chunk_id (uuid4 env) i = Some old) ∧
  (collection w !! chunk_id (uuid4 env) i = None →
   ∃ x, collection r.2 !! chunk_id (uuid4 env) i = Some x ∧
        document x = masked ∧
        client_embeddings env (length (embed_calls w) + i) masked = Some (embedding x) ∧
        metadata x =
          {| document_id := uuid4 env; chunk_filename := filename; chunk_index := i;
             total_chunks := length (chunks_of svc env content file_type);
             pii_masked := flag_of svc env content file_type;
             chunk_uploaded_at := utcnow env i |}).
Proof.
  intros r masked Hr Hchunk.
  destruct (process_document_returned svc env filename content file_type user_id w Hr)
    as (es & Hes & _ & Heq). fold r in Heq. rewrite Heq. cbn [snd].
  pose proof (answered_length _ _ _ _ Hes) as Hlen. rewrite masked_of_length in Hlen.
  set (w1 := add_calls (masked_of svc (chunks_of svc env content file_type)) w).
  assert (masked_of svc (chunks_of svc env content file_type) !! i = Some masked)
    as Hprompt by (by rewrite masked_of_lookup, Hchunk).
  split; [|split].
  - unfold stored, w1, add_calls. cbn [embed_calls].
    rewrite lookup_app_r by lia.
    replace (length (embed_calls w) + i - length (embed_calls w)) with i by lia.
    done.
  - intros old Hold. apply stored_kept. subst w1. by cbn [add_calls collection].
  - intros Hfresh.
    destruct (stored_lookup svc env filename content file_type user_id es w1
                i chunk Hlen Hchunk) as (e & He & Hx).
    { subst w1. by cbn [add_calls collection]. }
    eexists. split; [exact Hx|]. cbn [document embedding metadata].
    split; [done|]. split; [|done].
    destruct (answered_lookup _ _ _ _ i _ Hes Hprompt) as (e' & He' & Hans).
    congruence.
Qed.

Lemma stored_chunks_hold_masked_text_witness :
  ∃ x, collection uploaded !! chunk_id (txt "d1") 0 = Some x ∧
       document x = txt "[EMAIL] max@firma.de_1".
Proof.
  assert (returned (upload quiet twice empty_world)) as Hr by (vm_compute; exact I).
  assert (chunks_of service quiet twice (txt ".txt") !! 0 = Some twice) as Hc
    by (vm_compute; reflexivity).
  destruct (stored_chunks_hold_masked_text service quiet (txt "a.txt") twice
              (txt ".txt") (txt "system") empty_world 0 twice Hr Hc)
    as (_ & _ & Hnew).
  destruct (Hnew eq_refl) as (x & Hx & Hdoc & _).
  exists x. split; [exact Hx|]. rewrite Hdoc. vm_compute. reflexivity.
Defined.

Lemma flag_of_spec svc env (content file_type : str) :
  flag_of svc env content file_type = true ↔
  ∃ chunk, chunk ∈ chunks_of svc env content file_type ∧
           Pii.matches (Pii.detect_pii (pii_service svc) chunk true) ≠ [].
Proof.
  unfold flag_of, results_of. rewrite existsb_exists. split.
  - intros (res & Hin & Hflag). apply in_map_iff in Hin as (chunk & <- & Hin).
    exists chunk. split; [by apply list_elem_of_In|].
    rewrite detect_pii_flag in Hflag. by destruct (Pii.matches _).
  - intros (chunk & Hin & Hne). exists (Pii.detect_pii (pii_service svc) chunk true).
    split; [|rewrite detect_pii_flag; by destruct (Pii.matches _)].
    apply (in_map (λ chunk, Pii.detect_pii (pii_service svc) chunk true)).
    by apply list_elem_of_In.
Qed.

(** X19.  The dictionary an ingestion returns and the record it leaves agree:
    the identifier is the one drawn, the chunk count is the number of
    chunks, the flag says whether some chunk holds a match, a summary is
    given exactly when the flag is set; the record is found under the
    identifier returned, is listed, and carries the same numbers together
    with the file type as it was passed and the length of the extracted
    text.  The audit trail ends with the row of this ingestion. *)
Theorem result_matches_record svc env (filename content file_type user_id : str) w p :
  let r := process_document svc env filename content file_type user_id w in
  r.1 = Return p →
  (r_id p = uuid4 env ∧ r_filename p = filename ∧
   r_chunk_count p = length (chunks_of svc env content file_type) ∧
   (r_pii_detected p = true ↔
    ∃ chunk, chunk ∈ chunks_of svc env content file_type ∧
             Pii.matches (Pii.detect_pii (pii_service svc) chunk true) ≠ []) ∧
   (r_pii_summary p = None ↔ r_pii_detected p = false)) ∧
  (∃ meta, get_document r.2 (r_id p) = Some meta ∧
           (r_id p, meta) ∈ list_documents r.2 ∧
           id meta = r_id p ∧ Sys.filename meta = filename ∧
           Sys.file_type meta = file_type ∧ Sys.user_id meta = user_id ∧
           chunk_count meta = r_chunk_count p ∧
           character_count meta = length (text_of env content file_type) ∧
           Sys.pii_detected meta = r_pii_detected p ∧
           pii_summary meta = r_pii_summary p) ∧
  last (audit_rows r.2)
  = Some {| audit_user := user_id; action := txt "document_processed";
            audit_document_id := r_id p |}.
Proof.
  intros r Hp.
  assert (returned r) as Hr by (unfold returned; by rewrite Hp).
  destruct (process_document_returned svc env filename content file_type user_id w Hr)
    as (es & Hes & (c0 & text & Hext) & Heq). fold r in Heq.
  rewrite Heq in Hp |- *. cbn [fst snd] in *. injection Hp as <-.
  unfold result_of. cbn [r_id r_filename r_chunk_count r_pii_detected r_pii_summary].
  split; [|split].
  - split; [done|]. split; [done|]. split; [done|]. split; [apply flag_of_spec|].
    unfold summary_of. by destruct (flag_of _ _ _ _).
  - exists (record_of svc env filename content file_type user_id).
    assert (get_document
              (stored svc env filename content file_type user_id es
                 (add_calls (masked_of svc (chunks_of svc env content file_type)) w))
              (uuid4 env)
            = Some (record_of svc env filename content file_type user_id)) as Hget.
    { unfold get_document, stored. cbn [documents_metadata]. apply lookup_insert_eq. }
    split; [done|]. split; [unfold list_documents; by apply elem_of_map_to_list|].
    unfold record_of, text_of. cbn [id Sys.filename Sys.file_type Sys.user_id
      chunk_count character_count Sys.pii_detected pii_summary]. rewrite Hext.
    done.
  - unfold stored. cbn [audit_rows].
    destruct (process_document_ends svc env filename content file_type user_id w)
      as [[_ Heq']|(_ & _ & [(i & _ & Heq')
                             |(es' & _ & [[_ Heq']|[(_ & _ & Heq')
                                                   |[(_ & _ & _ & Heq')|(_ & _ & Haud & _)]]])])];
      try (fold r in Heq'; rewrite Heq in Heq'; discriminate Heq').
    rewrite Haud. apply last_snoc.
Qed.

Lemma result_matches_record_witness :
  ∃ p meta, (upload quiet twice empty_world).1 = Return p ∧
            get_document uploaded (r_id p) = Some meta ∧
            chunk_count meta = 1 ∧ character_count meta = 27 ∧
            Sys.pii_detected meta = true.
Proof.
  assert ((upload quiet twice empty_world).1
          = Return (result_of service quiet (txt "a.txt") twice (txt ".txt"))) as Hp
    by (vm_compute; reflexivity).
  destruct (result_matches_record service quiet (txt "a.txt") twice (txt ".txt")
              (txt "system") empty_world _ Hp)
    as ((_ & _ & Hn & _) & (meta & Hget & _ & _ & _ & _ & _ & Hc & Hl & Hf & _) & _).
  exists (result_of service quiet (txt "a.txt") twice (txt ".txt")), meta.
  split; [exact Hp|]. split; [exact Hget|].
  rewrite Hc, Hl, Hf. vm_compute. repeat split.
Defined.

End Stored.

(** ** Ingestion followed by erasure *)

Section Cycle.
Import Sys Llm Store Docs.

Implicit Types (w : World) (env : Env) (svc : DocumentService) (d : str)
  (es : list Embedding) (i : nat) (p : Processed) (m : gmap str DocMeta).

Lemma process_document_keeps svc env (filename content file_type user_id : str) w
    (k : str) (x : Entry) :
  collection w !! k = Some x →
  collection (process_document svc env filename content file_type user_id w).2 !! k
  = Some x.
Proof.
  intros Hx.
  destruct (process_document_cases svc env filename content file_type user_id w)
    as [_ [(_ & Hc & _)|(_ & _ & _ & es & meta & Hes & Hc & _)]]; rewrite Hc; [done|].
  by apply insert_all_kept.
Qed.

Lemma owned_process svc env (filename content file_type user_id : str) w :
  owned w → owned (process_document svc env filename content file_type user_id w).2.
Proof.
  intros Hw.
  destruct (process_document_cases svc env filename content file_type user_id w)
    as [_ [(_ & Hc & _)|(_ & _ & _ & es & meta & Hes & Hc & _)]];
    intros k e; rewrite Hc; [apply Hw|].
  destruct (insert_all_lookup (new_entries svc env filename content file_type es)
              (collection w) k) as [(e' & _ & He' & Hin)|[_ He']]; rewrite He';
    [|apply Hw].
  intros [= <-]. rewrite (new_entries_owner _ _ _ _ _ _ _ _ Hin).
  assert (k ∈ (new_entries svc env filename content file_type es).*1) as Hk
    by (apply list_elem_of_fmap; by exists (k, e')).
  rewrite new_entries_keys in Hk by done.
  apply list_elem_of_fmap in Hk as (i & -> & _). by exists i.
Qed.

Lemma owned_delete env d w : owned w → owned (delete_document env d w).2.
Proof.
  intros Hw. rewrite delete_document_spec. destruct (decide _) as [Hin|Hout]; [|done].
  cbn zeta. cbn [snd]. intros k e. cbn [collection].
  destruct (_ && _); [|apply Hw].
  rewrite delete_ids_lookup. case_decide; [done|apply Hw].
Qed.

Lemma reachable_owned w : reachable w → owned w.
Proof.
  unfold reachable. intros Hr.
  eapply (rtc_ind_r (λ w, owned w) empty_world); [| |exact Hr].
  - intros k e He. cbn in He. by rewrite lookup_empty in He.
  - intros w1 w2 _ Hcall Hw1.
    destruct Hcall; [by apply owned_process|by apply owned_delete].
Qed.

(** The records of the dictionary stay backed by the collection: an
    ingestion adds the chunks it counts, or finds them there, and an
    erasure takes away only the chunks of the record it drops. *)
Lemma backed_process svc env (filename content file_type user_id : str) w m :
  backed m w → backed m (process_document svc env filename content file_type user_id w).2.
Proof.
  intros Hm d meta i Hd Hi. destruct (Hm d meta i Hd Hi) as (x & Hx & Hown).
  exists x. split; [by apply process_document_keeps|done].
Qed.

Lemma indexed_process svc env (filename content file_type user_id : str) w :
  owned w → indexed w →
  indexed (process_document svc env filename content file_type user_id w).2.
Proof.
  intros Hown Hw.
  destruct (process_document_cases svc env filename content file_type user_id w)
    as [_ [(_ & Hc & Hm & _)|(_ & _ & _ & es & meta & Hes & Hc & Hm & Hn & _)]].
  { intros d m i. rewrite Hc, Hm. apply Hw. }
  intros d m i. rewrite Hc, Hm. intros Hd Hi.
  pose proof (new_entries_keys svc env filename content file_type es Hes) as Hkeys.
  destruct (insert_all_lookup (new_entries svc env filename content file_type es)
              (collection w) (chunk_id d i)) as [(x & _ & Hx & Hin)|[Hor Hx]].
  - exists x. split; [done|].
    assert (chunk_id d i ∈ (new_entries svc env filename content file_type es).*1)
      as Hk by (apply list_elem_of_fmap; by exists (chunk_id d i, x)).
    rewrite Hkeys in Hk. apply list_elem_of_fmap in Hk as (j & Hj & _).
    apply chunk_id_inj in Hj as [-> _]. by eapply new_entries_owner.
  - rewrite Hx. destruct (decide (d = uuid4 env)) as [->|Hne].
    + rewrite lookup_insert_eq in Hd. injection Hd as <-.
      destruct Hor as [[x Hsome]|Hout].
      * exists x. split; [done|]. destruct (Hown _ _ Hsome) as [j Hj].
        by apply chunk_id_inj in Hj as [<- _].
      * destruct Hout. rewrite Hkeys. apply list_elem_of_fmap. exists i.
        split; [done|]. apply elem_of_seq. lia.
    + rewrite lookup_insert_ne in Hd by done. by apply (Hw d m i).
Qed.

Lemma reachable_indexed w : reachable w → indexed w.
Proof.
  unfold reachable. intros Hr.
  enough (owned w ∧ indexed w) as [_ H] by done.
  eapply (rtc_ind_r (λ w, owned w ∧ indexed w) empty_world); [| |exact Hr].
  - split.
    + intros k e He. cbn in He. by rewrite lookup_empty in He.
    + intros d meta i Hd. cbn in Hd. by rewrite lookup_empty in Hd.
  - intros w1 w2 _ Hcall [Hown Hw1]. destruct Hcall.
    + split; [by apply owned_process|by apply indexed_process].
    + split; [by apply owned_delete|by apply indexed_delete].
Qed.

(** X20.  Ingesting a document and erasing it again, with a collection that
    answers, leaves the collection and the dictionary as they were before
    the ingestion, provided the identifier drawn was not in use: the
    erasure removes what the ingestion has added and nothing else. *)
Theorem ingest_then_erase_restores svc env env'
    (filename content file_type user_id : str) w :
  reachable w → unused (uuid4 env) w →
  collection_get_ok env' = true → collection_delete_ok env' = true →
  let r := process_document svc env filename content file_type user_id w in
  returned r →
  let r' := delete_document env' (uuid4 env) r.2 in
  r'.1 = Return true ∧
  collection r'.2 = collection w ∧
  documents_metadata r'.2 = documents_metadata w.
Proof.
  intros Hreach [Hfresh Hnone] Hget Hdel r Hr r'.
  pose proof (reachable_owned w Hreach) as Hown.
  destruct (process_document_cases svc env filename content file_type user_id w)
    as [_ [(Hnr & _)|(_ & _ & _ & es & meta & Hes & Hc & Hm & _)]]; [done|].
  fold r in Hc, Hm. subst r'. rewrite delete_document_spec.
  rewrite decide_True by (rewrite Hm; apply elem_of_dom; rewrite lookup_insert_eq; by eexists).
  cbn zeta. rewrite Hget, Hdel. cbn [andb fst snd collection documents_metadata].
  split; [done|]. split.
  - rewrite delete_ids_without, Hc. apply map_eq. intros k. apply option_eq. intros e.
    rewrite without_lookup.
    destruct (insert_all_lookup (new_entries svc env filename content file_type es)
                (collection w) k) as [(e' & Hold & He' & Hin)|[_ He']]; rewrite He'.
    + pose proof (new_entries_owner _ _ _ _ _ _ _ _ Hin) as Hd. split.
      * intros [[= <-] Hne]. done.
      * intros He. congruence.
    + split; [by intros [? _]|]. intros He. split; [done|]. by apply (Hnone k).
  - rewrite Hm. by apply delete_insert_id.
Qed.

Lemma ingest_then_erase_restores_witness :
  let r' := delete_document quiet (txt "d1") uploaded in
  r'.1 = Return true ∧ collection r'.2 = ∅ ∧ documents_metadata r'.2 = ∅.
Proof.
  assert (reachable empty_world) as Hreach by apply rtc_refl.
  assert (unused (uuid4 quiet) empty_world) as Hun.
  { split; [apply lookup_empty|]. intros k e He. cbn in He.
    by rewrite lookup_empty in He. }
  assert (returned (upload quiet twice empty_world)) as Hr by (vm_compute; exact I).
  exact (ingest_then_erase_restores service quiet quiet (txt "a.txt") twice (txt ".txt")
           (txt "system") empty_world Hreach Hun eq_refl eq_refl Hr).
Defined.

(** ** The statistics of the dictionary *)

Lemma sum_list_perm (l k : list nat) : l ≡ₚ k → sum_list l = sum_list k.
Proof.
  induction 1 as [|x l k _ IH|x y l|l k k' _ IH1 _ IH2]; rewrite ?sum_list_cons;
    [done|by rewrite IH|lia|congruence].
Qed.

Lemma get_stats_insert m d (meta : DocMeta) w w' :
  documents_metadata w = m → documents_metadata w' = <[d := meta]> m →
  m !! d = None →
  Catalog.get_stats w' =
    {| Catalog.total_documents := S (Catalog.total_documents (Catalog.get_stats w));
       Catalog.total_chunks :=
         Catalog.total_chunks (Catalog.get_stats w) + chunk_count meta;
       Catalog.pii_documents :=
         Catalog.pii_documents (Catalog.get_stats w)
         + (if Sys.pii_detected meta then 1 else 0) |}.
Proof.
  intros Hw Hw' Hnone. unfold Catalog.get_stats. rewrite Hw, Hw'. cbn zeta.
  cbn [Catalog.total_documents Catalog.total_chunks Catalog.pii_documents].
  pose proof (map_to_list_insert m d meta Hnone) as Hperm.
  apply (fmap_Permutation snd) in Hperm. rewrite fmap_cons in Hperm. cbn [snd] in Hperm.
  f_equal.
  - by apply map_size_insert_None.
  - rewrite (sum_list_perm _ (map chunk_count (meta :: (map_to_list m).*2)))
      by (by apply Permutation_map).
    cbn [map]. rewrite sum_list_cons. lia.
  - rewrite (Permutation_length
               (filter_Permutation (λ meta, Sys.pii_detected meta = true) _ _ Hperm)).
    rewrite filter_cons. destruct (Sys.pii_detected meta).
    + rewrite decide_True by done. cbn [length]. lia.
    + rewrite decide_False by done. lia.
Qed.

(** X21.  [get_stats] never counts more documents with PII than documents.  An
    ingestion that returns, under an identifier that was not in use, adds
    one document, the chunks it reports and, if it reports PII, one
    document with PII; an erasure takes away what the record of the
    document had added. *)
Theorem stats_follow_the_dictionary :
  (∀ w, Catalog.pii_documents (Catalog.get_stats w)
        ≤ Catalog.total_documents (Catalog.get_stats w)) ∧
  (∀ svc env (filename content file_type user_id : str) w p,
     let r := process_document svc env filename content file_type user_id w in
     r.1 = Return p → documents_metadata w !! uuid4 env = None →
     Catalog.get_stats r.2 =
       {| Catalog.total_documents := S (Catalog.total_documents (Catalog.get_stats w));
          Catalog.total_chunks :=
            Catalog.total_chunks (Catalog.get_stats w) + r_chunk_count p;
          Catalog.pii_documents :=
            Catalog.pii_documents (Catalog.get_stats w)
            + (if r_pii_detected p then 1 else 0) |}) ∧
  (∀ env d w (meta : DocMeta),
     documents_metadata w !! d = Some meta →
     let r := delete_document env d w in
     Catalog.get_stats w =
       {| Catalog.total_documents := S (Catalog.total_documents (Catalog.get_stats r.2));
          Catalog.total_chunks :=
            Catalog.total_chunks (Catalog.get_stats r.2) + chunk_count meta;
          Catalog.pii_documents :=
            Catalog.pii_documents (Catalog.get_stats r.2)
            + (if Sys.pii_detected meta then 1 else 0) |}).
Proof.
  split; [|split].
  - intros w. unfold Catalog.get_stats. cbn.
    rewrite <- length_map_to_list, <- (length_fmap snd).
    apply length_filter.
  - intros svc env filename content file_type user_id w p r Hp Hnone.
    assert (returned r) as Hr by (unfold returned; by rewrite Hp).
    destruct (process_document_returned svc env filename content file_type user_id w Hr)
      as (es & _ & _ & Heq). fold r in Heq. rewrite Heq in Hp |- *.
    cbn [fst snd] in *. injection Hp as <-.
    by rewrite (get_stats_insert (documents_metadata w) (uuid4 env)
                  (record_of svc env filename content file_type user_id) w).
  - intros env d w meta Hd r. subst r. rewrite delete_document_spec.
    rewrite decide_True by (apply elem_of_dom; by eexists). cbn zeta. cbn [snd].
    apply (get_stats_insert (delete d (documents_metadata w)) d meta);
      [done| |apply lookup_delete_eq].
    by rewrite insert_delete_id.
Qed.

Lemma stats_follow_the_dictionary_witness :
  Catalog.get_stats uploaded =
    {| Catalog.total_documents := 1; Catalog.total_chunks := 1;
       Catalog.pii_documents := 1 |}.
Proof.
  destruct stats_follow_the_dictionary as (_ & Hin & _).
  assert ((upload quiet twice empty_world).1
          = Return (result_of service quiet (txt "a.txt") twice (txt ".txt"))) as Hp
    by (vm_compute; reflexivity).
  unfold uploaded, upload.
  rewrite (Hin service quiet (txt "a.txt") twice (txt ".txt") (txt "system") empty_world
             _ Hp); [vm_compute; reflexivity|apply lookup_empty].
Defined.

(** ** The file and the dictionary *)

(** X22.  As long as [documents.json] is written it holds what the
    dictionary holds, after an ingestion and after an erasure, so that a
    process that starts on the file finds the same documents.  A save that
    fails is not reported: the ingestion returns and the record is in the
    dictionary.  If the file could not be opened it is as it was, and a
    process that starts on it finds for the document what the file held
    before; if it was opened, it was truncated, the dump has left nothing
    that can be parsed, and a process that starts on it finds no document
    at all. *)
Theorem metadata_file_follows_dictionary :
  (∀ svc env (filename content file_type user_id : str) w,
     metadata_open_ok env = true → json_dump_ok env = true → synced w →
     synced (process_document svc env filename content file_type user_id w).2) ∧
  (∀ env d w,
     metadata_open_ok env = true → json_dump_ok env = true → synced w →
     synced (delete_document env d w).2) ∧
  (∀ w, synced w → Catalog.init true w = w) ∧
  (∀ svc env (filename content file_type user_id : str) w,
     let r := process_document svc env filename content file_type user_id w in
     returned r →
     is_Some (get_document r.2 (uuid4 env)) ∧
     (metadata_open_ok env = false →
      metadata_file r.2 = metadata_file w ∧
      get_document (Catalog.init true r.2) (uuid4 env) = metadata_file w !! uuid4 env) ∧
     (metadata_open_ok env = true → json_dump_ok env = false →
      metadata_file r.2 = ∅ ∧ documents_metadata (Catalog.init true r.2) = ∅)).
Proof.
  split; [|split; [|split]].
  - intros svc env filename content file_type user_id w Hopen Hdump Hw.
    destruct (process_document_cases svc env filename content file_type user_id w)
      as [_ [(_ & _ & Hm & Hf)|(_ & _ & _ & es & meta & _ & _ & Hm & _ & Hf)]];
      unfold synced; rewrite Hf; [by rewrite Hm|].
    unfold dumped. by rewrite Hopen, Hdump.
  - intros env d w Hopen Hdump Hw. rewrite delete_document_spec.
    destruct (decide _) as [Hin|Hout]; [|done]. unfold synced, dumped. cbn.
    by rewrite Hopen, Hdump.
  - intros w Hw. unfold Catalog.init, Catalog._load_metadata, set_documents_metadata,
      synced in *. destruct w. cbn in *. by subst.
  - intros svc env filename content file_type user_id w r Hr.
    destruct (process_document_returned svc env filename content file_type user_id w Hr)
      as (es & _ & _ & Heq). fold r in Heq. rewrite Heq. cbn [snd].
    unfold Catalog.init, Catalog._load_metadata, get_document, set_documents_metadata,
      stored, dumped. cbn zeta. cbn [metadata_file documents_metadata add_calls].
    split; [rewrite lookup_insert_eq; by eexists|]. split.
    + intros ->. done.
    + intros -> ->. done.
Qed.

Lemma metadata_file_follows_dictionary_witness :
  let r := upload dump_fails twice empty_world in
  let r' := upload open_fails twice uploaded in
  (returned r ∧ is_Some (get_document r.2 (txt "d6")) ∧
   documents_metadata (Catalog.init true r.2) = ∅) ∧
  (returned r' ∧ is_Some (get_document r'.2 (txt "d7")) ∧
   get_document (Catalog.init true r'.2) (txt "d7") = None).
Proof.
  intros r r'.
  assert (returned r) as Hr by (vm_compute; exact I).
  assert (returned r') as Hr' by (vm_compute; exact I).
  destruct metadata_file_follows_dictionary as (_ & _ & _ & Hfail).
  destruct (Hfail service dump_fails (txt "a.txt") twice (txt ".txt") (txt "system")
              empty_world Hr) as (Hdoc & _ & Hcut).
  destruct (Hfail service open_fails (txt "a.txt") twice (txt ".txt") (txt "system")
              uploaded Hr') as (Hdoc' & Hkeep & _).
  split.
  - split; [exact Hr|]. split; [exact Hdoc|]. apply Hcut; reflexivity.
  - split; [exact Hr'|]. split; [exact Hdoc'|].
    destruct (Hkeep eq_refl) as [_ Hget].
    etrans; [exact Hget|vm_compute; reflexivity].
Defined.

End Cycle.

(** ** The two counts of chunks *)

Section Counting.
Import Sys Store Docs.

Implicit Types (w : World) (env : Env) (d : str) (l : list (str * DocMeta)).

Lemma counted_length l :
  length (flat_map (λ kv, chunk_id kv.1 <$> seq 0 (chunk_count kv.2)) l)
  = sum_list (map chunk_count l.*2).
Proof.
  induction l as [|[d meta] l IH]; [done|].
  cbn [flat_map fmap list_fmap map fst snd]. rewrite length_app, length_fmap, length_seq, IH.
  by rewrite sum_list_cons.
Qed.

Lemma counted_elem l (k : str) :
  k ∈ flat_map (λ kv, chunk_id kv.1 <$> seq 0 (chunk_count kv.2)) l ↔
  ∃ d meta (i : nat), (d, meta) ∈ l ∧ i < chunk_count meta ∧ k = chunk_id d i.
Proof.
  rewrite list_elem_of_In, in_flat_map. split.
  - intros ([d meta] & Hin%list_elem_of_In & Hk%list_elem_of_In). cbn [fst snd] in Hk.
    apply list_elem_of_fmap in Hk as (i & -> & Hi%elem_of_seq).
    exists d, meta, i. split; [done|]. split; [lia|done].
  - intros (d & meta & i & Hin & Hi & ->). exists (d, meta).
    rewrite <- !list_elem_of_In. split; [done|]. cbn [fst snd].
    apply list_elem_of_fmap. exists i. split; [done|]. apply elem_of_seq. lia.
Qed.

Lemma counted_NoDup l :
  NoDup l.*1 → NoDup (flat_map (λ kv, chunk_id kv.1 <$> seq 0 (chunk_count kv.2)) l).
Proof.
  induction l as [|[d meta] l IH]; [constructor|].
  rewrite fmap_cons, NoDup_cons. cbn [fst flat_map snd]. intros [Hd Hnd].
  apply NoDup_app. split; [|split; [|by apply IH]].
  - apply NoDup_fmap_2; [|apply NoDup_seq].
    intros i j Hij. by apply chunk_id_inj in Hij as [_ ->].
  - intros k (i & -> & _)%list_elem_of_fmap (d' & meta' & j & Hin & _ & Heq)%counted_elem.
    apply chunk_id_inj in Heq as [-> _].
    apply Hd, list_elem_of_fmap. by exists (d', meta').
Qed.

(** X23.  In every world reached by ingestions and erasures the dictionary never
    counts more chunks than the collection holds: the chunks counted by
    [DocumentService.get_stats] are records of the collection, under
    identifiers that differ from one another. *)
Theorem counted_chunks_are_in_the_index w env :
  reachable w →
  Catalog.total_chunks (Catalog.get_stats w)
  ≤ Query.total_chunks (Query.get_stats env true w).
Proof.
  intros Hw%reachable_indexed.
  unfold Catalog.get_stats, Query.get_stats.
  cbn [Catalog.total_chunks Query.total_chunks].
  rewrite <- counted_length, <- length_map_to_list, <- (length_fmap fst).
  apply submseteq_length, NoDup_submseteq.
  - apply counted_NoDup, NoDup_fst_map_to_list.
  - intros k (d & meta & i & Hin%elem_of_map_to_list & Hi & ->)%counted_elem.
    destruct (Hw d meta i Hin Hi) as (x & Hx & _).
    apply list_elem_of_fmap. exists (chunk_id d i, x). split; [done|].
    by apply elem_of_map_to_list.
Qed.

Lemma counted_chunks_are_in_the_index_witness :
  Catalog.total_chunks (Catalog.get_stats uploaded)
  ≤ Query.total_chunks (Query.get_stats quiet true uploaded).
Proof.
  apply (counted_chunks_are_in_the_index uploaded quiet).
  eapply rtc_l; [|apply rtc_refl].
  apply (call_process service quiet (txt "a.txt") twice (txt ".txt") (txt "system")).
Defined.

(** X24.  The identifier of a chunk names its document and its index:
    two chunk identifiers are equal only for the same document and the same
    index, whatever characters the document identifiers hold; so the
    identifiers of the chunks of one document differ from one another. *)
Theorem chunk_identifiers_are_unique d (d' : str) (i j n : nat) :
  (chunk_id d i = chunk_id d' j ↔ d = d' ∧ i = j) ∧
  NoDup (map (chunk_id d) (seq 0 n)).
Proof.
  split.
  - split; [apply chunk_id_inj|]. by intros [-> ->].
  - rewrite map_fmap. apply NoDup_fmap_2; [|apply NoDup_seq].
    intros a b Hab. by apply chunk_id_inj in Hab as [_ ->].
Qed.

End Counting.

(** ** The document endpoints *)

Section Endpoints.
Import Sys Docs.

Implicit Types (w : World) (env : Env) (svc : DocumentService) (c x : ascii)
  (p stem e filename : str) (pos : nat) (found : option nat).

Lemma rfind_go_app c (a b : str) pos found :
  Api.rfind_go c (a ++ b) pos found
  = Api.rfind_go c b (pos + length a) (Api.rfind_go c a pos found).
Proof.
  revert pos found. induction a as [|y a IH]; intros pos found; cbn [app Api.rfind_go length].
  - by rewrite Nat.add_0_r.
  - rewrite IH. f_equal. lia.
Qed.

Lemma rfind_go_absent c p pos found :
  c ∉ p → Api.rfind_go c p pos found = found.
Proof.
  revert pos found. induction p as [|y p IH]; intros pos found; [done|].
  rewrite not_elem_of_cons. intros [Hne Hp]. cbn [Api.rfind_go].
  destruct (Text.is_char c y) eqn:Hc; [|by apply IH].
  unfold Text.is_char in Hc. by apply code_inj in Hc.
Qed.

Lemma lower_char_keeps (c x : ascii) :
  c = "."%char ∨ c = "/"%char →
  Text.is_char c (lower_char x) = Text.is_char c x.
Proof.
  intros [->| ->]; destruct x as [[] [] [] [] [] [] [] []]; reflexivity.
Qed.

Lemma rfind_go_lower c p pos found :
  c = "."%char ∨ c = "/"%char →
  Api.rfind_go c (lower p) pos found = Api.rfind_go c p pos found.
Proof.
  intros Hc. revert pos found. induction p as [|y p IH]; intros pos found; [done|].
  cbn [lower map Api.rfind_go]. rewrite lower_char_keeps by done. apply IH.
Qed.

Lemma past_leading_dots_plain stem :
  stem ≠ [] → "."%char ∉ stem → Api.past_leading_dots stem = true.
Proof.
  destruct stem as [|y stem]; [done|]. rewrite not_elem_of_cons. intros _ [Hne _].
  cbn [Api.past_leading_dots]. destruct (Text.is_char "." y) eqn:Hc; [|done].
  unfold Text.is_char in Hc. by apply code_inj in Hc.
Qed.

Lemma splitext_join p : (Api.splitext p).1 ++ (Api.splitext p).2 = p.
Proof.
  unfold Api.splitext. cbn zeta. destruct (Api.rfind "." p) as [dot|]; cbn [fst snd].
  - destruct (_ && _); cbn [fst snd]; [apply firstn_skipn|apply app_nil_r].
  - apply app_nil_r.
Qed.

(** X25.  The file names the upload endpoint accepts.  The extension it
    derives is a suffix of the name, put in lower case, and when it is
    accepted it is one of the types [_extract_text] knows.  A name that
    ends in one of the five extensions, in any letter case, after a stem
    that is not empty and holds neither a dot nor a slash, is accepted
    with that extension. *)
Theorem accepted_file_names filename :
  let ext := Api.file_ext_of filename in
  (∃ s, s `suffix_of` filename ∧ ext = lower s) ∧
  (ext ∈ Api.allowed_types → lower ext ∈ supported) ∧
  ∀ stem e,
    filename = stem ++ e → lower e ∈ Api.allowed_types →
    stem ≠ [] → ("."%char ∉ stem) → ("/"%char ∉ stem) →
    Api.splitext filename = (stem, e) ∧ ext = lower e.
Proof.
  intros ext. subst ext. split; [|split].
  - unfold Api.file_ext_of. cbn zeta. destruct (_ && _); [by exists filename|].
    exists (Api.splitext filename).2. split; [|done].
    exists (Api.splitext filename).1. by rewrite splitext_join.
  - intros Hin. unfold Api.allowed_types in Hin. rewrite !elem_of_cons in Hin.
    destruct Hin as [->|[->|[->|[->|[->|Hin%elem_of_nil]]]]]; [..|done];
      apply (bool_decide_unpack _); vm_compute; exact I.
  - intros stem e -> He Hstem Hdot Hsep.
    assert (Api.rfind_go "." e (length stem) None = Some (length stem) ∧
            Api.rfind_go "/" e (length stem) None = None ∧ lower e ≠ []) as (Hd & Hs & Hne).
    { rewrite <- (rfind_go_lower "." e) by (by left).
      rewrite <- (rfind_go_lower "/" e) by (by right).
      unfold Api.allowed_types in He. rewrite !elem_of_cons in He.
      destruct He as [->|[->|[->|[->|[->|He%elem_of_nil]]]]]; [..|done];
        cbn; rewrite ?Nat.add_0_r; done. }
    assert (Api.splitext (stem ++ e) = (stem, e)) as Hsplit.
    { unfold Api.splitext, Api.rfind. cbn zeta.
      rewrite !rfind_go_app. cbn [Nat.add].
      rewrite (rfind_go_absent "." stem), (rfind_go_absent "/" stem) by done.
      rewrite Hd, Hs.
      cbn [Nat.leb andb]. unfold Text.slice. rewrite drop_0, Nat.sub_0_r.
      rewrite !take_app_length, past_leading_dots_plain by done.
      by rewrite drop_app_length. }
    split; [done|]. unfold Api.file_ext_of. rewrite Hsplit. cbn zeta. cbn [snd].
    destruct (lower e); [done|]. done.
Qed.

Lemma accepted_file_names_witness :
  Api.splitext (txt "Bericht.TXT") = (txt "Bericht", txt ".TXT") ∧
  Api.file_ext_of (txt "Bericht.TXT") = txt ".txt".
Proof.
  destruct (accepted_file_names (txt "Bericht.TXT")) as (_ & _ & Hname).
  apply (Hname (txt "Bericht") (txt ".TXT")).
  - reflexivity.
  - vm_compute. apply list_elem_of_further, list_elem_of_further, list_elem_of_further,
      list_elem_of_here.
  - done.
  - apply (bool_decide_unpack _). vm_compute. exact I.
  - apply (bool_decide_unpack _). vm_compute. exact I.
Defined.

(** X26.  What the upload endpoint answers.  Status 400 is the answer to a
    file type that is not accepted and to every [ValueError] of the
    ingestion: no text, no chunk (a text of white space only, which the
    collection refuses as an empty batch), or a [ValueError] of the
    collection; in each case nothing is stored.  Status 500 is the answer
    to every other error of the ingestion, and after the error of the
    audit database the document is in the stores all the same.  When the
    ingestion has returned the document is stored; the response repeats
    the numbers of the result if the audit database takes the row of the
    upload, and the upload ends with the error of the audit database if it
    does not. *)
Theorem upload_answers svc env (log_ok : bool) (filename content : str) w :
  let r := Api.upload_document (Some svc) env log_ok filename content w in
  let ext := Api.file_ext_of filename in
  let r0 := process_document svc env filename content ext (txt "system") w in
  Api.upload_document None env log_ok filename content w
  = (Return (Api.HTTPException 503), w) ∧
  ((ext ∉ Api.allowed_types) → r = (Return (Api.HTTPException 400), w)) ∧
  (ext ∈ Api.allowed_types → r0.1 = Raise ValueError →
   r = (Return (Api.HTTPException 400), r0.2) ∧
   collection r.2 = collection w ∧ documents_metadata r.2 = documents_metadata w ∧
   metadata_file r.2 = metadata_file w ∧ audit_rows r.2 = audit_rows w) ∧
  (ext ∈ Api.allowed_types → chunks_of svc env content ext = [] →
   r = (Return (Api.HTTPException 400), w)) ∧
  (∀ err : exc, ext ∈ Api.allowed_types → r0.1 = Raise err → err ≠ ValueError →
        r = (Return (Api.HTTPException 500), r0.2) ∧
        (err = AuditError → is_Some (get_document r.2 (uuid4 env)))) ∧
  (∀ result, ext ∈ Api.allowed_types → r0.1 = Return result →
        is_Some (get_document r.2 (uuid4 env)) ∧
        (log_ok = false → r = (Raise AuditError, r0.2)) ∧
        (log_ok = true →
         ∃ resp, r.1 = Return (Api.Ok resp) ∧
                 Api.resp_id resp = uuid4 env ∧ Api.resp_filename resp = filename ∧
                 Api.resp_chunk_count resp = r_chunk_count result ∧
                 Api.resp_pii_detected resp = r_pii_detected result ∧
                 Api.resp_pii_summary resp = r_pii_summary result ∧
                 last (audit_rows r.2)
                 = Some {| audit_user := txt "system"; action := txt "document_upload";
                           audit_document_id := [] |})).
Proof.
  intros r ext r0. subst r. unfold Api.upload_document. fold ext.
  split; [done|]. split; [intros Hout; by rewrite decide_False|].
  pose proof (process_document_ends svc env filename content ext (txt "system") w)
    as Hcases. cbn zeta in Hcases. fold r0 in Hcases.
  split; [|split; [|split]].
  - intros Hin Hv. rewrite decide_True by done. fold r0.
    destruct Hcases
      as [[_ Heq]|(_ & _ & [(i & _ & Heq)
                            |(es & _ & [[_ Heq]|[(_ & _ & Heq)
                                                |[(_ & _ & _ & Heq)|(_ & _ & _ & Heq)]]])])];
      rewrite Heq in Hv |- *; cbn [fst snd] in *; try discriminate Hv.
    1-2: by repeat split.
    destruct (collection_add_value_error env); [by repeat split|discriminate Hv].
  - intros Hin Hnil. rewrite decide_True by done. fold r0.
    destruct Hcases
      as [[_ Heq]|(_ & _ & [(i & Hi & Heq)
                            |(es & _ & [[_ Heq]|[(Hne & _)
                                                |[(Hne & _)|(Hne & _)]]])])];
      try done; try (by rewrite Heq).
    rewrite Hnil in Hi. destruct Hi as [Hi _]. cbn in Hi. by rewrite lookup_nil in Hi.
  - intros err Hin He Hne. rewrite decide_True by done. fold r0.
    destruct Hcases
      as [[_ Heq]|(_ & _ & [(i & _ & Heq)
                            |(es & _ & [[_ Heq]|[(_ & _ & Heq)
                                                |[(_ & _ & _ & Heq)|(_ & _ & _ & Heq)]]])])];
      rewrite Heq in He |- *; cbn [fst snd] in *; try discriminate He;
      injection He as <-; try done.
    + destruct (collection_add_value_error env); [done|].
      split; [done|]. by intros [=].
    + split; [done|]. intros _. unfold get_document, stored.
      cbn [snd documents_metadata]. rewrite lookup_insert_eq. by eexists.
  - intros result Hin Hres. rewrite decide_True by done. fold r0.
    destruct Hcases
      as [[_ Heq]|(_ & _ & [(i & _ & Heq)
                            |(es & _ & [[_ Heq]|[(_ & _ & Heq)
                                                |[(_ & _ & _ & Heq)|(_ & _ & Haud & Heq)]]])])];
      rewrite Heq in Hres |- *; cbn [fst snd] in *; try discriminate Hres.
    injection Hres as <-.
    unfold mbind, M_bind, bind, Api.log, mret, M_ret, ret, modify, raise.
    destruct log_ok; cbn [fst snd documents_metadata].
    + split; [|split; [intros [=]|intros _]].
      * unfold get_document, stored. cbn [documents_metadata].
        rewrite lookup_insert_eq. by eexists.
      * eexists. split; [reflexivity|].
        cbn [Api.resp_id Api.resp_filename Api.resp_chunk_count
             Api.resp_pii_detected Api.resp_pii_summary audit_rows].
        unfold result_of. cbn [r_id r_chunk_count r_pii_detected r_pii_summary].
        do 5 (split; [done|]). apply last_snoc.
    + split; [|split; [done|intros [=]]].
      unfold get_document, stored. cbn [documents_metadata].
      rewrite lookup_insert_eq. by eexists.
Qed.

Lemma upload_answers_witness :
  let r := Api.upload_document (Some service) audit_fails true (txt "a.txt") twice
             Docs.empty_world in
  r.1 = Return (Api.HTTPException 500) ∧ is_Some (get_document r.2 (txt "d5")).
Proof.
  intros r.
  destruct (upload_answers service audit_fails true (txt "a.txt") twice Docs.empty_world)
    as (_ & _ & _ & _ & H500 & _).
  destruct (H500 AuditError) as [Heq Hdoc].
  - vm_compute. apply list_elem_of_further, list_elem_of_further, list_elem_of_further,
      list_elem_of_here.
  - vm_compute. reflexivity.
  - discriminate.
  - fold r in Heq, Hdoc. split; [by rewrite Heq|by apply Hdoc].
Defined.

(** X27.  What the delete endpoint answers.  Status 404 is the answer exactly
    when the dictionary has no record of the document, and then nothing
    has changed.  Otherwise the record is gone from the dictionary; the
    endpoint confirms the deletion if the audit database takes the row, and
    ends with the error of the audit database if it does not, the record
    being gone all the same. *)
Theorem delete_answers svc env (log_ok : bool) (d : str) w :
  let r := Api.delete_document (Some svc) env log_ok d w in
  (r.1 = Return (Api.HTTPException 404) ↔ documents_metadata w !! d = None) ∧
  (documents_metadata w !! d = None → r.2 = w) ∧
  (is_Some (documents_metadata w !! d) →
   documents_metadata r.2 !! d = None ∧
   r.1 = (if log_ok then Return (Api.Ok d) else Raise AuditError) ∧
   (log_ok = true →
    last (audit_rows r.2)
    = Some {| audit_user := txt "system"; action := txt "document_delete";
              audit_document_id := [] |})).
Proof.
  intros r. subst r. unfold Api.delete_document, mbind, M_bind, bind.
  rewrite delete_document_spec.
  destruct (decide (d ∈ dom (documents_metadata w))) as [Hin|Hout].
  - apply elem_of_dom in Hin as Hsome. cbn zeta. cbn [negb].
    unfold Api.log, modify, mret, M_ret, ret, raise.
    split; [|split].
    + split; [by destruct log_ok|]. intros Hnone. rewrite Hnone in Hsome.
      by destruct Hsome.
    + intros Hnone. rewrite Hnone in Hsome. by destruct Hsome.
    + intros _. destruct log_ok; cbn [fst snd documents_metadata audit_rows].
      * split; [apply lookup_delete_eq|]. split; [done|]. intros _. apply last_snoc.
      * split; [apply lookup_delete_eq|]. split; [done|]. intros [=].
  - apply not_elem_of_dom in Hout. cbn [negb]. unfold mret, M_ret, ret. cbn [fst snd].
    split; [done|]. split; [done|]. rewrite Hout. by intros [? ?].
Qed.

Lemma delete_answers_witness :
  let r := Api.delete_document (Some service) quiet false (txt "d1") uploaded in
  r.1 = Raise AuditError ∧ documents_metadata r.2 !! txt "d1" = None.
Proof.
  intros r.
  destruct (delete_answers service quiet false (txt "d1") uploaded) as (_ & _ & Hdel).
  destruct Hdel as (Hgone & Hans & _); [vm_compute; by eexists|].
  split; [exact Hans|exact Hgone].
Defined.

End Endpoints.

(** ** Scanning a masked text *)

Section Rescan.
Import Text Re Pii.

Implicit Types (r : regex) (t rest mid a b : str) (prev p q : option ascii) (k : cont)
  (m : PIIMatch) (ms : list PIIMatch) (pos n : nat).

Lemma before_cons prev (c : ascii) a : before prev (c :: a) = before (Some c) a.
Proof. unfold before. rewrite last_cons. by destruct (last a). Qed.

Lemma before_app prev a b : before prev (a ++ b) = before (before prev a) b.
Proof. unfold before. rewrite last_app. by destruct (last b). Qed.

Lemma before_take_S prev (c : ascii) rest (i : nat) :
  before prev (take (S i) (c :: rest)) = before (Some c) (take i rest).
Proof. cbn [take]. apply before_cons. Qed.

(** A successful match has read a piece of the text and handed what
    follows it to its continuation, together with the character before. *)
Lemma rep_loop_trace (body : matcher) :
  (∀ prev rest k out, body prev rest k = Some out →
     ∃ mid rest', rest = mid ++ rest' ∧ k (before prev mid) rest' = Some out) →
  ∀ (fuel lo : nat) hi prev rest k out,
    rep_loop body fuel lo hi prev rest k = Some out →
    ∃ mid rest', rest = mid ++ rest' ∧ k (before prev mid) rest' = Some out.
Proof.
  intros Hbody. induction fuel as [|fuel IH]; intros lo hi prev rest k out; [done|].
  cbn [rep_loop].
  assert ((if can_stop lo then k prev rest else None) = Some out →
          ∃ mid rest', rest = mid ++ rest' ∧ k (before prev mid) rest' = Some out)
    as Hstop.
  { destruct lo; [|done]. intros Hk. by exists [], rest. }
  destruct (exhausted hi); [done|].
  destruct (body prev rest _) as [left|] eqn:Hb; [|done].
  intros [= ->]. apply Hbody in Hb as (m1 & r1 & -> & Hk1).
  apply IH in Hk1 as (m2 & r2 & -> & Hk2).
  exists (m1 ++ m2), r2. by rewrite <- app_assoc, before_app.
Qed.

Lemma rmatch_trace r prev rest k out :
  rmatch r prev rest k = Some out →
  ∃ mid rest', rest = mid ++ rest' ∧ k (before prev mid) rest' = Some out.
Proof.
  revert prev rest k out.
  induction r as [|p0| |r1 IH1 r2 IH2|r1 IH1 r2 IH2|r IH lo hi];
    intros prev rest k out; cbn [rmatch].
  - intros Hk. by exists [], rest.
  - destruct rest as [|c rest]; [done|]. destruct (p0 c); [|done].
    intros Hk. by exists [c], rest.
  - destruct (xorb _ _); [|done]. intros Hk. by exists [], rest.
  - intros (m1 & r1' & -> & Hk1)%IH1. apply IH2 in Hk1 as (m2 & r2' & -> & Hk2).
    exists (m1 ++ m2), r2'. by rewrite <- app_assoc, before_app.
  - destruct (rmatch r1 prev rest k) as [left|] eqn:H1.
    + intros [= ->]. by apply IH1.
    + apply IH2.
  - apply rep_loop_trace. intros ????. apply IH.
Qed.

(** A pattern that ends with [\b] stops at a word boundary. *)
Lemma rmatch_closes r :
  closes r = true →
  ∀ prev rest k out, rmatch r prev rest k = Some out →
    ∃ mid rest', rest = mid ++ rest' ∧ k (before prev mid) rest' = Some out ∧
                 xorb (word_before (before prev mid)) (word_after rest') = true.
Proof.
  induction r as [|p0| |r1 IH1 r2 IH2|r1 IH1 r2 IH2|r IH lo hi]; cbn [closes]; try done.
  - intros _ prev rest k out. cbn [rmatch]. destruct (xorb _ _) eqn:Hx; [|done].
    intros Hk. by exists [], rest.
  - intros Hc prev rest k out. cbn [rmatch].
    intros (m1 & r1' & -> & Hk1)%rmatch_trace.
    apply (IH2 Hc) in Hk1 as (m2 & r2' & -> & Hk2 & Hx).
    exists (m1 ++ m2), r2'. by rewrite <- app_assoc, before_app.
Qed.

Lemma match_here_opens r prev rest n :
  opens r = true → match_here r prev rest = Some n →
  xorb (word_before prev) (word_after rest) = true.
Proof.
  destruct r as [|p0| |r1 r2|r1 r2|r lo hi]; try done.
  destruct r1; try done. intros _. unfold match_here. cbn [rmatch].
  by destruct (xorb _ _).
Qed.

Lemma match_here_closes r prev rest n :
  closes r = true → match_here r prev rest = Some n →
  xorb (word_before (before prev (take n rest))) (word_after (drop n rest)) = true.
Proof.
  intros Hc. unfold match_here.
  destruct (rmatch r prev rest _) as [left|] eqn:Hm; [|done]. cbn. intros [= <-].
  apply (rmatch_closes r Hc) in Hm as (mid & rest' & -> & [= ->] & Hx).
  rewrite length_app.
  replace (length mid + length left - length left) with (length mid) by lia.
  by rewrite take_app_length, drop_app_length.
Qed.

(** ** One text read in place of another *)

Lemma sim_head p' rest' p rest :
  sim p' rest' p rest →
  xorb (word_before p') (word_after rest') = true →
  xorb (word_before p) (word_after rest) = true.
Proof. destruct rest'; cbn [sim]; tauto. Qed.

Lemma sim_tail p' (c : ascii) rest' p rest :
  sim p' (c :: rest') p rest → plain c = true →
  ∃ rest1, rest = c :: rest1 ∧ sim (Some c) rest' (Some c) rest1.
Proof.
  cbn [sim]. intros [_ Ht] Hc. specialize (Ht Hc).
  destruct rest as [|c0 rest1]; [done|]. destruct Ht as [-> Hs]. by exists rest1.
Qed.

(** Only the first condition of [sim] looks at the characters before. *)
Lemma sim_start p' p q' q rest' rest :
  (xorb (word_before p') (word_after rest') = true →
   xorb (word_before p) (word_after rest) = true) →
  sim q' rest' q rest → sim p' rest' p rest.
Proof. destruct rest'; cbn [sim]; tauto. Qed.

(** The same characters, read up to a character that is no plain one and
    no word character; what follows it does not matter. *)
Lemma sim_same p (x tail' tail : str) :
  match tail' with c :: _ => plain c = false | [] => True end →
  word_after tail' = false →
  (word_before (before p x) = true → word_after tail = false) →
  sim p (x ++ tail') p (x ++ tail).
Proof.
  intros Hplain Hw. revert p. induction x as [|c x IH]; intros p Hend.
  - cbn [app]. apply (sim_start _ _ None None).
    + rewrite Hw. destruct (word_before p) eqn:Hp; [|done]. intros _.
      by rewrite (Hend Hp).
    + destruct tail' as [|c tail']; cbn [sim]; [done|]. split; [by rewrite Hw|].
      intros Hc. congruence.
  - cbn [app sim]. split; [done|]. intros _. split; [done|].
    apply IH. intros Hb. apply Hend. by rewrite before_cons.
Qed.

Lemma sim_rep_loop (body : matcher) (n : nat) :
  1 ≤ n →
  (∀ p' rest' p rest k' k,
     sim p' rest' p rest →
     (∀ q' s' q (s : str), sim q' s' q s → length s + n ≤ length rest →
                           is_Some (k' q' s') → is_Some (k q s)) →
     is_Some (body p' rest' k') → is_Some (body p rest k)) →
  ∀ (fuel' fuel lo : nat) hi p' rest' p rest k' k,
    length rest < fuel → sim p' rest' p rest →
    (∀ q' s' q (s : str), sim q' s' q s → length s + lo * n ≤ length rest →
                          is_Some (k' q' s') → is_Some (k q s)) →
    is_Some (rep_loop body fuel' lo hi p' rest' k') →
    is_Some (rep_loop body fuel lo hi p rest k).
Proof.
  intros Hn Hbody. induction fuel' as [|fuel' IH];
    intros fuel lo hi p' rest' p rest k' k Hfuel Hsim Hk; [by intros [? [=]]|].
  destruct fuel as [|fuel]; [lia|]. cbn [rep_loop].
  assert (is_Some (if can_stop lo then k' p' rest' else None) →
          is_Some (if can_stop lo then k p rest else None)) as Hstop.
  { destruct lo; cbn [can_stop]; [|done]. apply Hk; [done|lia]. }
  destruct (exhausted hi); [done|].
  destruct (body p' rest' _) as [out'|] eqn:Hb'.
  - intros _.
    assert (is_Some (body p rest
                       (λ p1 (s1 : str), rep_loop body fuel (pred lo) (pred <$> hi) p1 s1 k)))
      as [out Hb].
    { eapply Hbody; [exact Hsim| |by rewrite Hb'].
      intros q' s' q s Hs Hlen. apply IH; [lia|done|].
      intros q2' s2' q2 s2 Hs2 Hlen2. apply Hk; [done|].
      destruct lo; cbn [pred Nat.mul] in *; lia. }
    by rewrite Hb.
  - intros Hs'. destruct (body p rest _); [done|]. by apply Hstop.
Qed.

(** Whatever a pattern of plain characters matches at a position, it
    matches at every position that stands for it. *)
Lemma sim_rmatch r :
  classes plain r → guarded r = true →
  ∀ p' rest' p rest k' k,
    sim p' rest' p rest →
    (∀ q' s' q (s : str), sim q' s' q s → length s + min_len r ≤ length rest →
                          is_Some (k' q' s') → is_Some (k q s)) →
    is_Some (rmatch r p' rest' k') → is_Some (rmatch r p rest k).
Proof.
  induction r as [|p0| |r1 IH1 r2 IH2|r1 IH1 r2 IH2|r IH lo hi];
    cbn [classes guarded min_len]; intros Hc Hg p' rest' p rest k' k Hsim Hk;
    cbn [rmatch].
  - apply Hk; [done|lia].
  - destruct rest' as [|c rest1']; [by intros [? [=]]|].
    destruct (p0 c) eqn:Hp; [|by intros [? [=]]].
    destruct (sim_tail _ _ _ _ _ Hsim (Hc c Hp)) as (rest1 & -> & Hs).
    rewrite Hp. apply Hk; [done|cbn; lia].
  - destruct (xorb (word_before p') _) eqn:Hx'; [|by intros [? [=]]].
    rewrite (sim_head _ _ _ _ Hsim Hx'). apply Hk; [done|lia].
  - destruct Hc as [Hc1 Hc2]. apply andb_true_iff in Hg as [Hg1 Hg2].
    apply IH1; [done..|]. intros q' s' q s Hs Hlen.
    apply IH2; [done..|]. intros q2' s2' q2 s2 Hs2 Hlen2. apply Hk; [done|lia].
  - destruct Hc as [Hc1 Hc2]. apply andb_true_iff in Hg as [Hg1 Hg2].
    destruct (rmatch r1 p' rest' k') as [out'|] eqn:H1'.
    + intros _.
      assert (is_Some (rmatch r1 p rest k)) as [out H1].
      { eapply IH1; [done..| |by rewrite H1'].
        intros q' s' q s Hs Hlen. apply Hk; [done|lia]. }
      by rewrite H1.
    + intros H2'. destruct (rmatch r1 p rest k); [done|].
      eapply IH2; [done..| |done]. intros q' s' q s Hs Hlen. apply Hk; [done|lia].
  - apply andb_true_iff in Hg as [Hn%Nat.leb_le Hg].
    apply (sim_rep_loop _ (min_len r)); [done| |lia|done|done].
    intros q' s' q s k1' k1 Hs Hk1. by apply IH.
Qed.

Lemma sim_match_here r p' rest' p rest :
  classes plain r → guarded r = true → sim p' rest' p rest →
  is_Some (match_here r p' rest') → is_Some (match_here r p rest).
Proof.
  intros Hc Hg Hsim. unfold match_here. rewrite !fmap_is_Some.
  apply sim_rmatch; [done..|]. intros q' s' q s _ _ _. by eexists.
Qed.

(** ** What [finditer] reports and what it leaves out *)

Lemma table_framed : forallb (λ kv, opens kv.2 && closes kv.2) PATTERNS = true.
Proof. vm_compute. reflexivity. Qed.

Lemma table_pattern (ty : str) r :
  (ty, r) ∈ PATTERNS →
  classes plain r ∧ sober r = true ∧ guarded r = true ∧ opens r = true ∧ closes r = true.
Proof.
  intros Hin%list_elem_of_In.
  pose proof table_sober as Hs. pose proof table_guarded as Hg.
  pose proof table_framed as Hf. rewrite forallb_forall in Hs, Hg, Hf.
  specialize (Hs _ Hin). specialize (Hg _ Hin). specialize (Hf _ Hin). cbn [snd] in *.
  apply andb_true_iff in Hf as [Ho Hc]. split; [|done].
  apply andb_true_iff in Hs as [Hs' _]. by apply classes_ok_sound.
Qed.

Lemma match_here_sober r prev rest n :
  sober r = true → match_here r prev rest = Some n →
  1 ≤ n ∧ n ≤ length rest ∧ Forall (λ c, plain c = true) (take n rest).
Proof.
  intros [Hc%classes_ok_sound Hn%Nat.leb_le]%andb_true_iff Hm.
  apply (match_here_sound plain) in Hm as (mid & rest' & -> & -> & HP & Hlen); [|done].
  rewrite length_app, take_app_length. split; [lia|]. split; [lia|done].
Qed.

(** A position at which an attempt succeeds lies within a reported span. *)
Lemma scan_complete r :
  sober r = true →
  ∀ rest prev (pos skip off n : nat),
    skip ≤ off → off ≤ length rest →
    match_here r (before prev (take off rest)) (drop off rest) = Some n →
    ∃ i j, (i, j) ∈ scan r prev rest pos skip ∧ i ≤ pos + off < j.
Proof.
  intros Hs. induction rest as [|c rest IH]; intros prev pos skip off n Hskip Hoff Hm.
  - apply (match_here_sober r _ _ _ Hs) in Hm as (H1 & H2 & _).
    rewrite length_drop in H2. cbn in *. lia.
  - cbn [scan length] in *. destruct skip as [|skip].
    + destruct off as [|off].
      * cbn [take drop] in Hm. change (before prev []) with prev in Hm. rewrite Hm.
        apply (match_here_sober r _ _ _ Hs) in Hm as (H1 & _).
        exists pos, (pos + n). split; [by left|lia].
      * rewrite before_take_S in Hm. cbn [drop] in Hm.
        destruct (match_here r prev (c :: rest)) as [n0|] eqn:H0.
        -- destruct (decide (S off < n0)) as [Hlt|Hge].
           { exists pos, (pos + n0). split; [by left|lia]. }
           destruct (IH (Some c) (S pos) (pred n0) off n) as (i & j & Hin & Hij);
             [lia|lia|done|].
           exists i, j. split; [by right|lia].
        -- destruct (IH (Some c) (S pos) 0 off n) as (i & j & Hin & Hij);
             [lia|lia|done|].
           exists i, j. split; [done|lia].
    + destruct off as [|off]; [lia|]. rewrite before_take_S in Hm. cbn [drop] in Hm.
      destruct (IH (Some c) (S pos) skip off n) as (i & j & Hin & Hij); [lia|lia|done|].
      exists i, j. split; [done|lia].
Qed.

(** Every reported span is an attempt that has succeeded. *)
Lemma scan_exact r rest prev (pos skip i j : nat) :
  (i, j) ∈ scan r prev rest pos skip →
  ∃ off, i = pos + off ∧ off ≤ length rest ∧ i ≤ j ∧
         match_here r (before prev (take off rest)) (drop off rest) = Some (j - i).
Proof.
  revert prev pos skip. induction rest as [|c rest IH]; intros prev pos skip; cbn [scan].
  - destruct skip; [|by intros ?%elem_of_nil].
    destruct (match_here r prev []) as [n|] eqn:Hm; [|by intros ?%elem_of_nil].
    intros [= -> ->]%list_elem_of_singleton. exists 0.
    apply match_here_length in Hm as Hn. cbn in Hn.
    assert (n = 0) as -> by lia. rewrite Nat.sub_diag. cbn. repeat split; [lia..|done].
  - assert (∀ skip', (i, j) ∈ scan r (Some c) rest (S pos) skip' →
              ∃ off, i = pos + off ∧ off ≤ length (c :: rest) ∧ i ≤ j ∧
                     match_here r (before prev (take off (c :: rest)))
                                (drop off (c :: rest)) = Some (j - i)) as Hnext.
    { intros skip' (off & -> & Hoff & Hij & Hm)%IH. exists (S off).
      rewrite before_take_S. cbn [drop length]. repeat split; [lia..|done]. }
    destruct skip as [|skip]; [|by apply Hnext].
    destruct (match_here r prev (c :: rest)) as [n|] eqn:Hm; [|by apply Hnext].
    intros [[= -> ->]|Hin]%elem_of_cons; [|by eapply Hnext].
    exists 0. cbn [take drop]. change (before prev []) with prev.
    replace (pos + n - pos) with n by lia. repeat split; [lia..|done].
Qed.

(** The matches of the table begin and end at word boundaries. *)
Lemma regex_matches_delimited t m : m ∈ regex_matches t → delimited t m.
Proof.
  intros (ty & r & i & j & Hty & Hij & ->)%regex_matches_elem.
  destruct (table_pattern ty r Hty) as (_ & _ & _ & Ho & Hc).
  apply scan_exact in Hij as (off & -> & Hoff & Hle & Hm). cbn [Nat.add] in *.
  unfold delimited, bounded_at. cbn [start end_]. split.
  - by eapply match_here_opens.
  - apply (match_here_closes r _ _ _ Hc) in Hm.
    rewrite <- before_app, take_take_drop, drop_drop in Hm.
    by replace (off + (j - off)) with j in Hm by lia.
Qed.

(** ** A masked text holds no match *)

Lemma silent_scan r prev (text : str) pos :
  silent r prev text → scan r prev text pos 0 = [].
Proof.
  revert prev pos. induction text as [|c text IH]; intros prev pos Hs; cbn [scan].
  - pose proof (Hs [] [] eq_refl) as H0. change (before prev []) with prev in H0.
    by rewrite H0.
  - pose proof (Hs [] (c :: text) eq_refl) as H0.
    change (before prev []) with prev in H0. rewrite H0. apply IH.
    intros a b ->. rewrite <- (before_cons prev). by apply Hs.
Qed.

Lemma silent_app r prev (x y : str) :
  (∀ a b, x = a ++ b → b ≠ [] → match_here r (before prev a) (b ++ y) = None) →
  silent r (before prev x) y →
  silent r prev (x ++ y).
Proof.
  intros Hx Hy a b Hab. apply app_eq_app in Hab as [l [[-> ->]|[-> ->]]].
  - destruct l as [|c l].
    + rewrite app_nil_r in Hy. by apply (Hy [] y).
    + by apply Hx.
  - rewrite before_app. by apply Hy.
Qed.

Lemma before_nonempty prev prev' a : a ≠ [] → before prev a = before prev' a.
Proof.
  intros Ha. unfold before. destruct (last a) eqn:Hl; [done|].
  by apply last_None in Hl.
Qed.

Lemma inert_spec (token : str) :
  inert token = true →
  (∃ body, token = "["%char :: body) ∧ last token = Some "]"%char ∧
  ∀ (i : nat) (ty : str) r,
    1 ≤ i < length token → (ty, r) ∈ PATTERNS →
    match_here r (last (take i token)) (drop i token) = None.
Proof.
  unfold inert. destruct token as [|c body]; [done|].
  destruct (last (c :: body)) as [c'|] eqn:Hlast; [|done].
  intros [[Ho Hc]%andb_true_iff Hall]%andb_true_iff.
  apply code_inj in Ho, Hc. subst c c'.
  split; [by eexists|]. split; [done|].
  intros i ty r Hi Hin. rewrite forallb_forall in Hall.
  specialize (Hall i). rewrite forallb_forall in Hall.
  specialize (Hall ltac:(apply in_seq; lia) (ty, r)).
  rewrite <- list_elem_of_In in Hall. specialize (Hall Hin). cbn [snd] in Hall.
  by destruct (match_here r _ _).
Qed.

Lemma slice_split t (pos q : nat) :
  pos ≤ q → q ≤ length t →
  drop pos t = slice pos q t ++ drop q t ∧ take q t = take pos t ++ slice pos q t.
Proof.
  intros H1 H2. unfold slice. split.
  - rewrite <- (take_drop (q - pos) (drop pos t)) at 1. f_equal.
    rewrite drop_drop. f_equal. lia.
  - rewrite take_take_drop. f_equal. lia.
Qed.

(** The fresh copy of a text whose candidates are kept apart, begin and
    end at word boundaries and give way to inert tokens holds no match of
    a pattern, if the text holds none outside the candidates. *)
Lemma render_silent (ty : str) r t :
  (ty, r) ∈ PATTERNS →
  ∀ ms pos prev0,
    separated pos (length t) ms →
    Forall (delimited t) ms →
    Forall (λ m, inert (masked_value m) = true) ms →
    pos ≤ length t →
    word_before prev0 = false →
    (word_after (drop pos t) = true → word_before (before None (take pos t)) = false) →
    (∀ q : nat, pos ≤ q → q ≤ length t → Forall (λ m, ¬ (start m ≤ q < end_ m)) ms →
          match_here r (before None (take q t)) (drop q t) = None) →
    silent r prev0 (render t pos ms).
Proof.
  intros Hty. destruct (table_pattern ty r Hty) as (Hc & Hs & Hg & _ & _).
  induction ms as [|m ms IH]; intros pos prev0 Hsep Hdel Htok Hpos Hprev HJ Hfree.
  - cbn [render]. intros a b Hab.
    assert (drop (pos + length a) t = b ∧ take (pos + length a) t = take pos t ++ a)
      as [Hdrop Htake].
    { split.
      - rewrite <- drop_drop, Hab. apply drop_app_length.
      - rewrite <- take_take_drop, Hab. f_equal. apply take_app_length. }
    assert (pos + length a ≤ length t) as Hq.
    { apply (f_equal length) in Hab. rewrite length_drop, length_app in Hab. lia. }
    destruct a as [|c a].
    + cbn [app] in Hab. subst b. change (before prev0 []) with prev0.
      destruct (match_here r prev0 (drop pos t)) as [n|] eqn:Hm; [exfalso|done].
      assert (is_Some (match_here r (before None (take pos t)) (drop pos t))) as [n' Hm'].
      { apply (sim_match_here r prev0 (drop pos t)); [done..| |by rewrite Hm].
        apply (sim_start _ _ None None).
        - rewrite Hprev. cbn [xorb]. intros Hw. by rewrite Hw, (HJ Hw).
        - rewrite <- (app_nil_r (drop pos t)). by apply sim_same. }
      rewrite Hfree in Hm'; [done|lia|done|constructor].
    + rewrite (before_nonempty prev0 (before None (take pos t))) by done.
      rewrite <- before_app, <- Htake, <- Hdrop. apply Hfree; [lia|done|constructor].
  - cbn [separated] in Hsep. destruct Hsep as (Hstart & Hlt & Hend & Hsep).
    apply Forall_cons in Hdel as [[Hbs Hbe] Hdel].
    apply Forall_cons in Htok as [Hm Htok].
    apply inert_spec in Hm as ([body Hbody] & Hlast & Hinert).
    destruct (slice_split t pos (start m)) as [Hdrop Htake]; [lia..|].
    cbn [render]. apply silent_app.
    + intros a1 b1 Hseg Hb1.
      destruct (match_here r (before prev0 a1) _) as [n|] eqn:Hmatch; [exfalso|done].
      set (q := pos + length a1).
      assert (length a1 + length b1 = start m - pos) as Hlen.
      { apply (f_equal length) in Hseg. unfold slice in Hseg.
        rewrite length_take, length_drop, length_app in Hseg. lia. }
      assert (drop q t = b1 ++ drop (start m) t ∧ take q t = take pos t ++ a1)
        as [Hdq Htq].
      { subst q. split.
        - rewrite <- drop_drop, Hdrop, Hseg, <- app_assoc.
          apply drop_app_length.
        - rewrite <- take_take_drop, Hdrop, Hseg, <- app_assoc. f_equal.
          apply take_app_length. }
      assert (is_Some (match_here r (before None (take q t)) (drop q t))) as [n' Hm'].
      { apply (sim_match_here r (before prev0 a1) (b1 ++ masked_value m ++
                 render t (end_ m) ms)); [done..| |by rewrite Hmatch].
        rewrite Hdq. apply (sim_start _ _ (before None (take q t)) (before None (take q t))).
        - destruct b1 as [|c1 b1]; [done|]. cbn [app word_after].
          destruct a1 as [|c0 a1].
          + change (before prev0 []) with prev0. rewrite Hprev. cbn [xorb].
            intros Hw. rewrite Hw. subst q. rewrite Nat.add_0_r in *.
            rewrite HJ; [done|]. by rewrite Hdq.
          + by rewrite Htq, before_app,
              (before_nonempty prev0 (before None (take pos t)) (c0 :: a1)).
        - apply sim_same.
          + by rewrite Hbody.
          + by rewrite Hbody.
          + rewrite <- before_app, Htq, <- app_assoc, <- Hseg, <- Htake.
            unfold bounded_at in Hbs. intros Hw. rewrite Hw in Hbs.
            by destruct (word_after (drop (start m) t)). }
      assert (pos ≤ q ∧ q < start m) as [Hq1 Hq2].
      { subst q. destruct b1; [done|]. cbn [length] in Hlen. lia. }
      rewrite Hfree in Hm'; [done|lia|lia|].
      constructor; [lia|]. apply separated_starts in Hsep.
      eapply Forall_impl; [exact Hsep|]. cbn. intros m' Hm''. lia.
    + apply silent_app.
      * intros a2 b2 Htoken Hb2.
        destruct (match_here r _ (b2 ++ _)) as [n|] eqn:Hmatch; [exfalso|done].
        destruct a2 as [|c2 a2].
        { cbn [app] in Htoken. subst b2. rewrite Hbody in Hmatch.
          apply (match_here_sober r _ _ _ Hs) in Hmatch as (H1 & _ & Hplain).
          destruct n; [lia|]. cbn [app take] in Hplain.
          by apply Forall_cons in Hplain as [Hplain _]. }
        assert (∃ b2', b2 = b2' ++ ["]"%char]) as [b2' ->].
        { rewrite Htoken, last_app in Hlast.
          destruct (last b2) as [c|] eqn:Hl; [|by apply last_None in Hl].
          injection Hlast as ->. by apply last_Some in Hl. }
        assert (is_Some (match_here r (last (c2 :: a2)) (b2' ++ ["]"%char]))) as [n' Hm'].
        { apply (sim_match_here r (before (before prev0 (slice pos (start m) t)) (c2 :: a2))
                   ((b2' ++ ["]"%char]) ++ render t (end_ m) ms));
            [done..| |by rewrite Hmatch].
          rewrite <- app_assoc. cbn [app].
          assert (before (before prev0 (slice pos (start m) t)) (c2 :: a2)
                  = last (c2 :: a2)) as ->.
          { unfold before. destruct (last (c2 :: a2)) eqn:Hl; [done|].
            by apply last_None in Hl. }
          by apply sim_same. }
        rewrite <- (take_app_length (c2 :: a2) (b2' ++ ["]"%char])) in Hm' at 1.
        rewrite <- (drop_app_length (c2 :: a2) (b2' ++ ["]"%char])) in Hm' at 2.
        rewrite <- Htoken in Hm'.
        rewrite (Hinert (length (c2 :: a2)) ty r) in Hm'; [done| |done].
        rewrite Htoken, !length_app. cbn [length]. lia.
      * assert (before (before prev0 (slice pos (start m) t)) (masked_value m)
                = Some "]"%char) as ->.
        { unfold before. by rewrite Hlast. }
        apply IH; [done..|lia|done| |].
        -- unfold bounded_at in Hbe. intros Hw. rewrite Hw in Hbe.
           by destruct (word_before (before None (take (end_ m) t))).
        -- intros q Hq1 Hq2 Hall. apply Hfree; [lia|done|].
           constructor; [lia|done].
Qed.

(** The tokens of all types and labels but the card number and [PER]. *)
Lemma tokens_inert (ty : str) :
  ty ∈ PATTERNS.*1 ++ ner_labels →
  ty ≠ txt "kreditkarte" → ty ≠ txt "PER" → inert (mask_for ty) = true.
Proof.
  assert (forallb (λ ty, bool_decide (ty = txt "kreditkarte")
                         || bool_decide (ty = txt "PER") || inert (mask_for ty))
                  (PATTERNS.*1 ++ ner_labels) = true) as Hall
    by (vm_compute; reflexivity).
  rewrite forallb_forall in Hall. intros Hin%list_elem_of_In H1 H2.
  specialize (Hall ty Hin). rewrite !orb_true_iff, !bool_decide_eq_true in Hall.
  by destruct Hall as [[?|?]|?].
Qed.

Lemma flat_map_nil {A B} (f : A → list B) (l : list A) :
  (∀ x, x ∈ l → f x = []) → flat_map f l = [].
Proof.
  induction l as [|x l IH]; [done|]. intros Hall. cbn [flat_map].
  rewrite (Hall x) by (by left). apply IH. intros y Hy. apply Hall. by right.
Qed.

(** The masked text of candidates that are kept apart, none of them a card
    number or a [PER] entity, holds no match of the table. *)
Lemma masked_text_quiet (svc : PIIService) t :
  enabled svc = true →
  separated 0 (length t) (rev (sorted_desc (matches (detect_pii svc t true)))) →
  (∀ m, m ∈ matches (detect_pii svc t true) →
        type m ≠ txt "kreditkarte" ∧ type m ≠ txt "PER") →
  Forall (delimited t) (ner_matches svc t) →
  regex_matches (masked_text (detect_pii svc t true)) = [].
Proof.
  intros He Hsep Htypes Hner. rewrite masked_text_render by done.
  set (found := matches (detect_pii svc t true)) in *.
  assert (found = regex_matches t ++ ner_matches svc t) as Hfound
    by (subst found; by rewrite (detect_pii_enabled _ _ _ He)).
  assert (rev (sorted_desc found) ≡ₚ found) as Hperm
    by (by rewrite <- Permutation_rev, sorted_desc_perm).
  unfold regex_matches at 1. apply flat_map_nil. intros [ty r] Hty.
  destruct (table_pattern ty r Hty) as (_ & Hs & _).
  unfold finditer.
  rewrite silent_scan; [done|].
  apply (render_silent ty r t Hty); [done| | |lia|done|done|].
  - apply Forall_forall. intros m Hm. rewrite Hperm, Hfound in Hm.
    apply elem_of_app in Hm as [Hm|Hm]; [by apply regex_matches_delimited|].
    rewrite Forall_forall in Hner. by apply Hner.
  - apply Forall_forall. intros m Hm. rewrite Hperm in Hm.
    destruct (Htypes m Hm) as [H1 H2]. rewrite Hfound in Hm.
    assert (masked_value m = mask_for (type m) ∧ type m ∈ PATTERNS.*1 ++ ner_labels)
      as [-> Hin].
    { apply elem_of_app in Hm as [Hm|Hm].
      - apply regex_matches_elem in Hm as (ty' & r' & i & j & Hty' & _ & ->).
        split; [done|]. apply elem_of_app. left. apply list_elem_of_fmap.
        by exists (ty', r').
      - apply ner_matches_elem in Hm as [Hl Hv]. split; [done|].
        apply elem_of_app. by right. }
    by apply tokens_inert.
  - intros q _ Hq Hfree.
    destruct (match_here r (before None (take q t)) (drop q t)) as [n|] eqn:Hm; [|done].
    exfalso.
    destruct (scan_complete r Hs t None 0 0 q n) as (i & j & Hij & Hcover);
      [lia|done|done|].
    set (m0 := {| type := ty; value := slice i j t; start := i; end_ := j;
                  masked_value := mask_for ty |}).
    assert (m0 ∈ rev (sorted_desc found)) as Hm0.
    { rewrite Hperm, Hfound. apply elem_of_app. left. apply regex_matches_elem.
      by exists ty, r, i, j. }
    rewrite Forall_forall in Hfree. apply (Hfree m0 Hm0). unfold m0.
    cbn [start end_]. lia.
Qed.

(** The letters of [KREDITKARTE] and of [REDACTED] fit the BIC pattern,
    whatever stands around the token. *)
Lemma loud_token_matches (a b token : str) :
  token ∈ loud_tokens →
  ∃ m, m ∈ regex_matches (a ++ token ++ b) ∧ type m = txt "bic".
Proof.
  intros Hin.
  assert (∃ letters, token = "["%char :: letters ++ ["]"%char] ∧
                     is_Some (match_here bic (Some "["%char) (letters ++ ["]"%char])))
    as (letters & -> & Hm).
  { unfold loud_tokens in Hin. rewrite !elem_of_cons in Hin.
    destruct Hin as [->|[->|Hin%elem_of_nil]]; [| |done].
    - exists (txt "KREDITKARTE"). split; [done|]. vm_compute. by eexists.
    - exists (txt "REDACTED"). split; [done|]. vm_compute. by eexists. }
  assert ((txt "bic", bic) ∈ PATTERNS) as Hty
    by (unfold PATTERNS; do 3 apply list_elem_of_further; apply list_elem_of_here).
  destruct (table_pattern _ _ Hty) as (Hc & Hs & Hg & _).
  set (t := a ++ ("["%char :: letters ++ ["]"%char]) ++ b).
  assert (take (S (length a)) t = a ++ ["["%char] ∧
          drop (S (length a)) t = letters ++ "]"%char :: b) as [Htake Hdrop].
  { subst t. cbn [app]. rewrite <- (app_assoc letters). cbn [app].
    rewrite (cons_middle "["%char a), app_assoc.
    replace (S (length a)) with (length (a ++ ["["%char]))
      by (rewrite length_app; cbn; lia).
    rewrite take_app_length, drop_app_length. split; reflexivity. }
  assert (is_Some (match_here bic (before None (take (S (length a)) t))
                              (drop (S (length a)) t))) as [n Hn].
  { rewrite Htake, Hdrop, before_app.
    apply (sim_match_here bic (Some "["%char) (letters ++ ["]"%char])); [done..| |done].
    by apply sim_same. }
  destruct (scan_complete bic Hs t None 0 0 (S (length a)) n) as (i & j & Hij & _);
    [lia| |done|].
  { subst t. rewrite !length_app. cbn [length]. lia. }
  exists {| type := txt "bic"; value := slice i j t; start := i; end_ := j;
            masked_value := mask_for (txt "bic") |}.
  split; [|reflexivity]. apply regex_matches_elem.
  exists (txt "bic"), bic, i, j. split; [exact Hty|]. split; [exact Hij|reflexivity].
Qed.

(** C4, amended.  The masked text of a text whose candidates are kept apart
    holds no match of the pattern table, provided that none of the
    candidates is a card number or a [PER] entity and that the spans of
    the recogniser begin and end at word boundaries.  A text that holds
    the token [KREDITKARTE] or [REDACTED] always holds a match, of type
    [bic]; candidates that overlap can leave matches behind, as on the
    line [tangled]; and so can a span of the recogniser that begins within
    a word, as on the line [glued]. *)
Theorem rescan_finds_nothing_when_apart :
  (∀ (svc : PIIService) t,
     enabled svc = true →
     separated 0 (length t) (rev (sorted_desc (matches (detect_pii svc t true)))) →
     (∀ m, m ∈ matches (detect_pii svc t true) →
           type m ≠ txt "kreditkarte" ∧ type m ≠ txt "PER") →
     Forall (delimited t) (ner_matches svc t) →
     regex_matches (masked_text (detect_pii svc t true)) = []) ∧
  (∀ (a b token : str),
     token ∈ loud_tokens →
     ∃ m, m ∈ regex_matches (a ++ token ++ b) ∧ type m = txt "bic") ∧
  (let found := detect_pii regex_only tangled true in
   (type <$> matches found = [txt "phone_de"; txt "steuer_id"] ∧
    span <$> matches found = [(0, 16); (0, 11)]) ∧
   masked_text found = txt "[STEUER-ID]94189 4" ∧
   type <$> regex_matches (masked_text found) = [txt "plz_de"]) ∧
  (let found := detect_pii tagger glued true in
   regex_matches glued = [] ∧
   (type <$> matches found = [txt "PERSON"] ∧ span <$> matches found = [(5, 8)]) ∧
   masked_text found = txt "12345[PERSON]" ∧
   type <$> regex_matches (masked_text found) = [txt "plz_de"]).
Proof.
  split; [|split; [|split]].
  - intros svc t. apply masked_text_quiet.
  - apply loud_token_matches.
  - vm_compute. repeat split.
  - vm_compute. repeat split.
Qed.

Lemma rescan_finds_nothing_when_apart_witness :
  masked_text (detect_pii regex_only contact true) = txt "Kontakt: [EMAIL], Tel: [TELEFON]" ∧
  regex_matches (masked_text (detect_pii regex_only contact true)) = [].
Proof.
  split; [vm_compute; reflexivity|].
  apply (proj1 rescan_finds_nothing_when_apart regex_only contact).
  - reflexivity.
  - vm_compute. repeat split; lia.
  - assert (forallb (λ m, negb (bool_decide (type m = txt "kreditkarte"))
                          && negb (bool_decide (type m = txt "PER")))
                    (matches (detect_pii regex_only contact true)) = true) as Hall
      by (vm_compute; reflexivity).
    rewrite forallb_forall in Hall. intros m Hm%list_elem_of_In.
    specialize (Hall m Hm). apply andb_true_iff in Hall as [H1 H2].
    apply negb_true_iff, bool_decide_eq_false in H1, H2. split; assumption.
  - constructor.
Defined.

(** C3, amended.  Masking a masked text again changes nothing and finds
    nothing where the candidates of the text are kept apart, none of them
    is a card number or a [PER] entity, and the spans of the recogniser
    begin and end at word boundaries, the recogniser finding nothing in
    the masked text; nor does it where the service is disabled.  A service
    that masks from the pattern table alone changes every text that holds
    the token [KREDITKARTE] or [REDACTED], so a masked text that holds one
    is never a fixed point; candidates that overlap can leave text that a
    second pass changes, as on the line [tangled]; and so can a span of
    the recogniser that begins within a word, as on the line [glued]. *)
Theorem masking_idempotent_when_apart :
  (∀ (svc : PIIService) t,
     let once := masked_text (detect_pii svc t true) in
     let again := detect_pii svc once true in
     (enabled svc = false → masked_text again = once) ∧
     (enabled svc = true →
      separated 0 (length t) (rev (sorted_desc (matches (detect_pii svc t true)))) →
      (∀ m, m ∈ matches (detect_pii svc t true) →
            type m ≠ txt "kreditkarte" ∧ type m ≠ txt "PER") →
      Forall (delimited t) (ner_matches svc t) →
      ner_matches svc once = [] →
      matches again = [] ∧ masked_text again = once)) ∧
  (∀ (svc : PIIService) (a b token : str),
     enabled svc = true → nlp svc = None → token ∈ loud_tokens →
     masked_text (detect_pii svc (a ++ token ++ b) true) ≠ a ++ token ++ b) ∧
  (let once := masked_text (detect_pii regex_only tangled true) in
   once = txt "[STEUER-ID]94189 4" ∧
   masked_text (detect_pii regex_only once true) = txt "[STEUER-ID][PLZ] 4") ∧
  (let once := masked_text (detect_pii tagger glued true) in
   once = txt "12345[PERSON]" ∧
   ner_matches tagger once = [] ∧
   masked_text (detect_pii tagger once true) = txt "[PLZ][PERSON]").
Proof.
  split; [|split; [|split]].
  - intros svc t once again. split.
    + intros Hoff. subst again once. unfold detect_pii. by rewrite Hoff.
    + intros He Hsep Htypes Hdel Hner.
      assert (matches again = []) as Hnone.
      { subst again. rewrite (detect_pii_enabled _ _ _ He). cbn zeta. cbn [matches].
        subst once. by rewrite masked_text_quiet, Hner. }
      split; [done|]. by apply detect_pii_no_match.
  - intros svc a b token He Hnlp Hin.
    destruct (loud_token_matches a b token Hin) as (m & Hm & _).
    rewrite (detect_pii_enabled _ _ _ He). cbn zeta. cbn [masked_text].
    unfold ner_matches. rewrite Hnlp, app_nil_r.
    destruct (regex_matches (a ++ token ++ b)) as [|m0 found] eqn:Hfound;
      [by apply elem_of_nil in Hm|].
    cbn [andb nonempty]. apply apply_masks_changes; [done|].
    intros x Hx. by rewrite Hfound.
  - vm_compute. split; reflexivity.
  - vm_compute. repeat split.
Qed.

Lemma masking_idempotent_when_apart_witness :
  let once := masked_text (detect_pii regex_only contact true) in
  once = txt "Kontakt: [EMAIL], Tel: [TELEFON]" ∧
  matches (detect_pii regex_only once true) = [] ∧
  masked_text (detect_pii regex_only once true) = once.
Proof.
  intros once. split; [vm_compute; reflexivity|].
  apply (proj1 masking_idempotent_when_apart regex_only contact).
  - reflexivity.
  - vm_compute. repeat split; lia.
  - assert (forallb (λ m, negb (bool_decide (type m = txt "kreditkarte"))
                          && negb (bool_decide (type m = txt "PER")))
                    (matches (detect_pii regex_only contact true)) = true) as Hall
      by (vm_compute; reflexivity).
    rewrite forallb_forall in Hall. intros m Hm%list_elem_of_In.
    specialize (Hall m Hm). apply andb_true_iff in Hall as [H1 H2].
    apply negb_true_iff, bool_decide_eq_false in H1, H2. split; assumption.
  - constructor.
  - reflexivity.
Defined.

End Rescan.

(** ** The prompts of an ingestion *)

Section Prompts.
Import Sys Llm Store Docs.

Implicit Types (w : World) (env : Env) (svc : DocumentService) (i : nat).

Lemma fails_first_nil env base i : ¬ fails_first env base [] i.
Proof. intros [Hi _]. cbn in Hi. by rewrite lookup_nil in Hi. Qed.

(** C1, amended.  The prompts an ingestion sends to the embedding client
    are masked texts of its chunks, in the order of the chunks: the i-th
    prompt is the masked text of the i-th chunk.  The calls stop with the
    first one that fails, the ingestion raising the error of that call; an
    ingestion that returns has sent the masked text of every chunk.  Where
    the candidates recorded for a chunk are kept apart, its masked text is
    the chunk with the span of every candidate replaced by its token and
    everything else copied. *)
Theorem embedding_receives_masked_chunks svc env
    (filename content file_type user_id : str) w :
  let r := process_document svc env filename content file_type user_id w in
  let chunks := chunks_of svc env content file_type in
  let masked := masked_of svc chunks in
  (∃ prompts,
     embed_calls r.2 = embed_calls w ++ prompts ∧
     prompts `prefix_of` masked ∧
     (returned r → prompts = masked) ∧
     ∀ i prompt, prompts !! i = Some prompt →
       ∃ chunk, chunks !! i = Some chunk ∧
                prompt = Pii.masked_text (Pii.detect_pii (pii_service svc) chunk true)) ∧
  (∀ i, fails_first env (length (embed_calls w)) masked i →
        r.1 = Raise RuntimeError ∧
        embed_calls r.2 = embed_calls w ++ take (S i) masked) ∧
  (∀ chunk, chunk ∈ chunks →
     let found := Pii.detect_pii (pii_service svc) chunk true in
     separated 0 (length chunk) (rev (Pii.sorted_desc (Pii.matches found))) →
     Pii.masked_text found
     = render chunk 0 (rev (Pii.sorted_desc (Pii.matches found)))).
Proof.
  intros r chunks masked. split; [|split].
  - destruct (process_document_cases svc env filename content file_type user_id w)
      as [(k & Hs & Hp & Hr) _].
    exists k. do 3 (split; [done|]). intros i prompt Hi.
    pose proof (prefix_lookup_Some _ _ _ _ Hi Hp) as Hm.
    rewrite masked_of_lookup in Hm. fold chunks in Hm.
    destruct (chunks !! i) as [chunk|]; [|done]. exists chunk.
    split; [done|]. by injection Hm.
  - intros i Hi. subst r masked chunks. rewrite process_document_eq.
    unfold chunks_of in *.
    destruct (_extract_text env content file_type) as [[|c0 text]|];
      [by apply fails_first_nil in Hi| |by apply fails_first_nil in Hi].
    destruct (for_each_embedding env
                (masked_of svc (Chunker._chunk_text (chunk_size svc) (chunk_overlap svc)
                                  (c0 :: text))) w) as [_ Hfail].
    by rewrite (Hfail i Hi).
  - intros chunk _ found Hsep. by apply masked_text_render.
Qed.

Lemma embedding_receives_masked_chunks_witness :
  embed_calls uploaded = [txt "[EMAIL] max@firma.de_1"] ∧
  let r := upload second_fails twice uploaded in
  r.1 = Raise RuntimeError ∧
  embed_calls r.2 = [txt "[EMAIL] max@firma.de_1"; txt "[EMAIL] max@firma.de_1"].
Proof.
  split.
  - destruct (embedding_receives_masked_chunks service quiet (txt "a.txt") twice
                (txt ".txt") (txt "system") empty_world) as ((k & Hs & _ & Hr & _) & _).
    unfold uploaded, upload. rewrite Hs, Hr; [vm_compute; reflexivity|].
    vm_compute. exact I.
  - destruct (embedding_receives_masked_chunks service second_fails (txt "a.txt") twice
                (txt ".txt") (txt "system") uploaded) as (_ & Hfail & _).
    destruct (Hfail 0) as [Hr Hs].
    + split; [vm_compute; reflexivity|]. intros j Hj. lia.
    + split; [exact Hr|]. etrans; [exact Hs|]. vm_compute. reflexivity.
Defined.

End Prompts.

(** ** The dictionary, the file and the collection *)

Section Lifetime.
Import Sys Store Docs.

Implicit Types (w : World) (env : Env) (d : str) (m : gmap str DocMeta).

Lemma backed_delete env d w m :
  backed m w → backed (delete d m) (delete_document env d w).2.
Proof.
  intros Hm d' meta i [Hne Hd]%lookup_delete_Some Hi.
  destruct (Hm d' meta i Hd Hi) as (x & Hx & Hown). exists x. split; [|done].
  rewrite delete_document_spec. destruct (decide _); [|done].
  cbn zeta. cbn [snd collection]. destruct (_ && _); [|done].
  rewrite delete_ids_lookup, decide_False; [done|].
  intros (x' & Hx' & Hd')%ids_of_elem. congruence.
Qed.

(** What holds of the three stores all along: the records of the
    collection carry the identifiers of their documents, and the chunks
    counted by the dictionary and by the file are in the collection. *)
Lemma lived_sound w :
  lived w → owned w ∧ indexed w ∧ backed (metadata_file w) w.
Proof.
  unfold lived. intros Hw.
  eapply (rtc_ind_r (λ w, owned w ∧ indexed w ∧ backed (metadata_file w) w) empty_world);
    [| |exact Hw].
  { split; [|split].
    - intros k e He. cbn in He. by rewrite lookup_empty in He.
    - intros d meta i Hd. cbn in Hd. by rewrite lookup_empty in Hd.
    - intros d meta i Hd. cbn in Hd. by rewrite lookup_empty in Hd. }
  clear w Hw. intros w1 w2 _ Hevent (Hown & Hidx & Hfile).
  destruct Hevent as [svc env filename content file_type user_id w|env d w Hopen
                      |readable w].
  - pose proof (indexed_process svc env filename content file_type user_id w Hown Hidx)
      as Hidx'.
    split; [by apply owned_process|]. split; [done|].
    destruct (process_document_cases svc env filename content file_type user_id w)
      as [_ [(_ & _ & _ & Hf)|(_ & _ & _ & es & meta & _ & _ & _ & _ & Hf)]]; rewrite Hf.
    + by apply backed_process.
    + unfold dumped. destruct (metadata_open_ok env); [|by apply backed_process].
      destruct (json_dump_ok env); [exact Hidx'|].
      intros d meta' i Hd. by rewrite lookup_empty in Hd.
  - pose proof (indexed_delete env d w Hidx) as Hidx'.
    split; [by apply owned_delete|]. split; [done|].
    revert Hidx'. unfold indexed. rewrite delete_document_spec.
    destruct (decide _) as [Hin|Hout]; [|done]. cbn zeta.
    cbn [snd metadata_file documents_metadata collection]. intros Hidx'.
    unfold dumped. rewrite Hopen. destruct (json_dump_ok env); [exact Hidx'|].
    intros d' meta' i Hd. by rewrite lookup_empty in Hd.
  - unfold Catalog.init, Catalog._load_metadata, set_documents_metadata.
    split; [done|]. split; [|done]. unfold indexed. cbn [documents_metadata collection].
    destruct readable; [exact Hfile|].
    intros d meta i Hd. by rewrite lookup_empty in Hd.
Qed.

(** C5, refuted as stated: an erasure whose save could not open
    [documents.json] leaves the old file; the process that starts on it
    lists the erased document, whose chunk is no longer in the index. *)
Lemma restart_lists_erased_document :
  let r := delete_document open_fails (txt "d1") uploaded in
  let w := Catalog.init true r.2 in
  r.1 = Return true ∧ documents_metadata r.2 !! txt "d1" = None ∧
  ∃ meta, (txt "d1", meta) ∈ list_documents w ∧ chunk_count meta = 1 ∧
          collection w !! chunk_id (txt "d1") 0 = None.
Proof.
  split; [vm_compute; reflexivity|]. split; [vm_compute; reflexivity|].
  eexists. split; [apply elem_of_map_to_list; vm_compute; reflexivity|].
  split; vm_compute; reflexivity.
Qed.

(** C5, amended.  An ingestion whose index upsert fails, be it that the
    collection refuses the batch or that there is no chunk to add, ends in
    an exception and leaves the collection, the metadata dictionary, the
    metadata file and the listing as they were.  In every world reached
    from the empty one by ingestions, by erasures during which
    [documents.json] could be opened for writing, and by restarts, each
    chunk counted by a metadata record is in the index under its derived
    identifier and carries the record's document identifier; that holds
    in particular for every document the listing shows.  The same holds
    in every world one process reaches by ingestions and erasures of any
    kind, as long as it is not restarted. *)
Theorem upsert_failure_leaves_no_record :
  (∀ svc env (filename content file_type user_id : str) w,
     collection_add_ok env = false ∨ chunks_of svc env content file_type = [] →
     let r := process_document svc env filename content file_type user_id w in
     ¬ returned r ∧
     collection r.2 = collection w ∧
     documents_metadata r.2 = documents_metadata w ∧
     metadata_file r.2 = metadata_file w ∧
     list_documents r.2 = list_documents w) ∧
  (∀ w, lived w ∨ reachable w →
     indexed w ∧
     ∀ d meta, (d, meta) ∈ list_documents w →
       ∀ i : nat, i < chunk_count meta →
         ∃ x, collection w !! chunk_id d i = Some x ∧ document_id (metadata x) = d).
Proof.
  split.
  - intros svc env filename content file_type user_id w Hfail r.
    destruct (process_document_cases svc env filename content file_type user_id w)
      as [_ [(Hr & Hc & Hm & Hf)|(Hok & Hne & _)]].
    + fold r in Hr, Hc, Hm, Hf. unfold list_documents. rewrite Hm. done.
    + destruct Hfail; [congruence|done].
  - intros w Hw.
    assert (indexed w) as Hi.
    { destruct Hw as [Hw|Hw]; [by destruct (lived_sound w Hw) as (_ & Hi & _)|].
      by apply reachable_indexed. }
    split; [done|]. intros d meta Hin i Hlt. apply elem_of_map_to_list in Hin. by apply (Hi d meta i).
Qed.

Lemma upsert_failure_leaves_no_record_witness :
  let r := upload add_fails twice uploaded in
  let w := Catalog.init true (delete_document quiet (txt "d1") uploaded).2 in
  ¬ returned r ∧ list_documents r.2 = list_documents uploaded ∧
  (∃ x, collection uploaded !! chunk_id (txt "d1") 0 = Some x) ∧
  list_documents w = [].
Proof.
  destruct upsert_failure_leaves_no_record as [Hfail Hlived].
  destruct (Hfail service add_fails (txt "a.txt") twice (txt ".txt") (txt "system")
              uploaded (or_introl eq_refl)) as (Hr & _ & _ & _ & Hl).
  split; [exact Hr|]. split; [exact Hl|].
  assert (lived uploaded) as Hw.
  { eapply rtc_l; [|apply rtc_refl].
    apply (event_process service quiet (txt "a.txt") twice (txt ".txt") (txt "system")). }
  split.
  - destruct (Hlived uploaded (or_introl Hw)) as [Hi _].
    destruct (Hi (txt "d1") {| id := txt "d1"; filename := txt "a.txt";
                               file_type := txt ".txt";
                               uploaded_at := txt "2024-01-01T00:00:00";
                               chunk_count := 1; character_count := 27;
                               pii_detected := true;
                               pii_summary := Some (txt "Gefunden: {" ++ [quote]
                                                    ++ txt "email" ++ [quote]
                                                    ++ txt ": 1}");
                               user_id := txt "system" |} 0)
      as (x & Hx & _); [vm_compute; reflexivity|cbn; lia|].
    by exists x.
  - vm_compute. reflexivity.
Defined.

End Lifetime.
